(** * Mass-spring cloth simulation: a shallow embedding of the two Taichi
  scripts [test_ti/3.0physsim.py] (variant A) and [test_ti/p.clothes.py]
  (variant B), and the properties of their kernels.  The prime counter of
  [test_ti/2acc/count_prime.py] is embedded beside them.

  The kernels compute on floating-point vectors.  The arithmetic they use
  is kept behind the interface [Scalar]; the kernels are written once, over
  any scalar type, following the source line by line.  Three instances are
  given:
  - IEEE-754 binary32 ([spec_float] with 24 bits of precision), Taichi's
    default [float], in which the kernels run;
  - IEEE-754 binary64, the arithmetic of Python floats and of numpy, in
    which the host code ([pick_node], [substeps], [current_t]) computes;
  - exact real arithmetic ([R]), an idealisation without rounding, in which
    worked inputs are evaluated and the algebra behind the passes is
    stated. *)

From Stdlib Require Import ZArith Znumtheory List Bool Lia Permutation FinFun.
From Stdlib Require Import Reals Lra Psatz.
From Stdlib Require Import Floats.SpecFloat.
Import ListNotations.

Set Implicit Arguments.

(** ** Scalars *)

(** The operations the scripts apply to numbers.  [of_int] is the cast of a
  Python or Taichi integer to [float]; [dec m k] is the decimal literal
  [m * 10^-k] (so [0.334] is [dec 334 3]). *)
Class Scalar (T : Type) : Type := {
  of_int : Z -> T;
  dec : Z -> nat -> T;
  sadd : T -> T -> T;
  ssub : T -> T -> T;
  smul : T -> T -> T;
  sdiv : T -> T -> T;
  sneg : T -> T;
  ssqrt : T -> T;
  sexp : T -> T;
  smin : T -> T -> T;
  sleb : T -> T -> bool;
  sltb : T -> T -> bool
}.

Declare Scope sc_scope.
Delimit Scope sc_scope with sc.
Infix "+" := sadd : sc_scope.
Infix "-" := ssub : sc_scope.
Infix "*" := smul : sc_scope.
Infix "/" := sdiv : sc_scope.
Notation "- a" := (sneg a) : sc_scope.

(** ** Three- and two-component vectors ([ti.Vector]) *)

Record vec3 (T : Type) : Type := V3 { c0 : T; c1 : T; c2 : T }.

Arguments V3 {T} _ _ _.
Arguments c0 {T} _.
Arguments c1 {T} _.
Arguments c2 {T} _.

Section Vectors.
Context {T : Type} {ST : Scalar T}.
Local Open Scope sc_scope.

Definition vzero : vec3 T := V3 (of_int 0) (of_int 0) (of_int 0).

Definition vadd (a b : vec3 T) : vec3 T :=
  V3 (c0 a + c0 b) (c1 a + c1 b) (c2 a + c2 b).

Definition vsub (a b : vec3 T) : vec3 T :=
  V3 (c0 a - c0 b) (c1 a - c1 b) (c2 a - c2 b).

(** [s * a] with the scalar on the left. *)
Definition svmul (s : T) (a : vec3 T) : vec3 T :=
  V3 (s * c0 a) (s * c1 a) (s * c2 a).

(** [a * s] with the scalar on the right. *)
Definition vsmul (a : vec3 T) (s : T) : vec3 T :=
  V3 (c0 a * s) (c1 a * s) (c2 a * s).

(** [a / s]. *)
Definition vsdiv (a : vec3 T) (s : T) : vec3 T :=
  V3 (c0 a / s) (c1 a / s) (c2 a / s).

(** [a.dot(b)]: the sum of the component products, left to right. *)
Definition dot (a b : vec3 T) : T :=
  c0 a * c0 b + c1 a * c1 b + c2 a * c2 b.

Definition norm_sqr (a : vec3 T) : T := dot a a.

(** [a.norm()]. *)
Definition norm (a : vec3 T) : T := ssqrt (norm_sqr a).

(** [a.normalized()]: Taichi computes [invlen = 1 / a.norm()] and returns
    [invlen * a]; there is no test for a zero norm. *)
Definition normalized (a : vec3 T) : vec3 T :=
  svmul (of_int 1 / norm a) a.

(** [float(i - j).norm()] for a two-component integer vector. *)
Definition norm2 (d : Z * Z) : T :=
  ssqrt (of_int (fst d) * of_int (fst d) + of_int (snd d) * of_int (snd d)).
End Vectors.

(** A conversion applied to each component, as when an array of one
    [dtype] meets an array of another. *)
Definition vmap (A B : Type) (f : A -> B) (a : vec3 A) : vec3 B :=
  V3 (f (c0 a)) (f (c1 a)) (f (c2 a)).

(** ** Homogeneous coordinates ([numpy] arrays of shape [(4,)] and
    [(4, 4)]) *)

Record vec4 (T : Type) : Type := V4 { h0 : T; h1 : T; h2 : T; h3 : T }.

Arguments V4 {T} _ _ _ _.
Arguments h0 {T} _.
Arguments h1 {T} _.
Arguments h2 {T} _.
Arguments h3 {T} _.

(** A matrix is the vector of its rows. *)
Definition mat4 (T : Type) : Type := vec4 (vec4 T).

Section Homogeneous.
Context {T : Type} {ST : Scalar T}.
Local Open Scope sc_scope.

Definition dot4 (a b : vec4 T) : T :=
  h0 a * h0 b + h1 a * h1 b + h2 a * h2 b + h3 a * h3 b.

(** Column [k] of a matrix, [k] one of the four projections. *)
Definition column (m : mat4 T) (k : vec4 T -> T) : vec4 T :=
  V4 (k (h0 m)) (k (h1 m)) (k (h2 m)) (k (h3 m)).

(** [m @ u] for a matrix and a vector. *)
Definition matvec (m : mat4 T) (u : vec4 T) : vec4 T :=
  V4 (dot4 (h0 m) u) (dot4 (h1 m) u) (dot4 (h2 m) u) (dot4 (h3 m) u).

(** [a @ b] for two matrices. *)
Definition matmul (a b : mat4 T) : mat4 T :=
  let row := fun r =>
    V4 (dot4 r (column b h0)) (dot4 r (column b h1))
       (dot4 r (column b h2)) (dot4 r (column b h3)) in
  V4 (row (h0 a)) (row (h1 a)) (row (h2 a)) (row (h3 a)).

(** [a /= s]. *)
Definition v4div (a : vec4 T) (s : T) : vec4 T :=
  V4 (h0 a / s) (h1 a / s) (h2 a / s) (h3 a / s).

(** [a[:3]]. *)
Definition xyz (a : vec4 T) : vec3 T := V3 (h0 a) (h1 a) (h2 a).

Definition identity4 : mat4 T :=
  V4 (V4 (of_int 1) (of_int 0) (of_int 0) (of_int 0))
     (V4 (of_int 0) (of_int 1) (of_int 0) (of_int 0))
     (V4 (of_int 0) (of_int 0) (of_int 1) (of_int 0))
     (V4 (of_int 0) (of_int 0) (of_int 0) (of_int 1)).
End Homogeneous.

(** ** Grid indices *)

Abbreviation node := (Z * Z)%type.

Definition node_eqb (a b : node) : bool :=
  (fst a =? fst b)%Z && (snd a =? snd b)%Z.

Definition node_add (a b : node) : node := (fst a + fst b, snd a + snd b)%Z.
Definition node_sub (a b : node) : node := (fst a - fst b, snd a - snd b)%Z.
Definition node_opp (a : node) : node := (- fst a, - snd a)%Z.

(** [range(n)] as a list of integers. *)
Definition range (n : nat) : list Z := map Z.of_nat (seq 0 n).

(** [range(lo, hi)] for integer bounds. *)
Definition range_from (lo hi : Z) : list Z :=
  map (fun k => (lo + Z.of_nat k)%Z) (seq 0 (Z.to_nat (hi - lo))).

(** The indices of an [n x n] field in row-major order, the order in which
  a serial run of [for i in ti.grouped(x)] or [for i, j in x] visits them. *)
Definition nodes (n : nat) : list node := list_prod (range n) (range n).

(** [0 <= j[0] < n and 0 <= j[1] < n]. *)
Definition in_grid (n : nat) (j : node) : bool :=
  ((0 <=? fst j) && (fst j <? Z.of_nat n) &&
   ((0 <=? snd j) && (snd j <? Z.of_nat n)))%Z.

(** ** The module-level state *)

Section State.
Context {T : Type} {ST : Scalar T}.
Local Open Scope sc_scope.

(** An [n x n] vector field, read and written by index. *)
Definition field : Type := node -> vec3 T.

Definition upd (f : field) (i : node) (a : vec3 T) : field :=
  fun k => if node_eqb k i then a else f k.

(** The numeric constants of a script. *)
Record Params : Type := {
  n : nat;
  quad_size : T;
  dt : T;
  gravity : vec3 T;
  spring_Y : T;
  dashpot_damping : T;
  drag_damping : T;
  ball_radius : T
}.

(** The Taichi fields and the Python list the kernels work on.  Variant A
    has no drag fields; its kernels ignore them. *)
Record Store : Type := {
  x : field;
  v : field;
  ball_center : Z -> vec3 T;
  indices : Z -> Z;
  vertices : Z -> vec3 T;
  colors : Z -> vec3 T;
  spring_offsets : list node;
  dragging : bool;
  picked_node : node;
  drag_pos : vec3 T
}.

Definition set_x (st : Store) (i : node) (a : vec3 T) : Store :=
  {| x := upd (x st) i a; v := v st; ball_center := ball_center st;
     indices := indices st; vertices := vertices st; colors := colors st;
     spring_offsets := spring_offsets st; dragging := dragging st;
     picked_node := picked_node st; drag_pos := drag_pos st |}.

Definition set_v (st : Store) (i : node) (a : vec3 T) : Store :=
  {| x := x st; v := upd (v st) i a; ball_center := ball_center st;
     indices := indices st; vertices := vertices st; colors := colors st;
     spring_offsets := spring_offsets st; dragging := dragging st;
     picked_node := picked_node st; drag_pos := drag_pos st |}.

Definition set_spring_offsets (st : Store) (l : list node) : Store :=
  {| x := x st; v := v st; ball_center := ball_center st;
     indices := indices st; vertices := vertices st; colors := colors st;
     spring_offsets := l; dragging := dragging st;
     picked_node := picked_node st; drag_pos := drag_pos st |}.

Definition set_dragging (st : Store) (b : bool) : Store :=
  {| x := x st; v := v st; ball_center := ball_center st;
     indices := indices st; vertices := vertices st; colors := colors st;
     spring_offsets := spring_offsets st; dragging := b;
     picked_node := picked_node st; drag_pos := drag_pos st |}.

Definition set_picked_node (st : Store) (p : node) : Store :=
  {| x := x st; v := v st; ball_center := ball_center st;
     indices := indices st; vertices := vertices st; colors := colors st;
     spring_offsets := spring_offsets st; dragging := dragging st;
     picked_node := p; drag_pos := drag_pos st |}.

Definition set_drag_pos (st : Store) (a : vec3 T) : Store :=
  {| x := x st; v := v st; ball_center := ball_center st;
     indices := indices st; vertices := vertices st; colors := colors st;
     spring_offsets := spring_offsets st; dragging := dragging st;
     picked_node := picked_node st; drag_pos := a |}.

Definition set_indices (st : Store) (k val : Z) : Store :=
  {| x := x st; v := v st; ball_center := ball_center st;
     indices := fun m => if (m =? k)%Z then val else indices st m;
     vertices := vertices st; colors := colors st;
     spring_offsets := spring_offsets st; dragging := dragging st;
     picked_node := picked_node st; drag_pos := drag_pos st |}.

Definition set_colors (st : Store) (k : Z) (a : vec3 T) : Store :=
  {| x := x st; v := v st; ball_center := ball_center st;
     indices := indices st; vertices := vertices st;
     colors := fun m => if (m =? k)%Z then a else colors st m;
     spring_offsets := spring_offsets st; dragging := dragging st;
     picked_node := picked_node st; drag_pos := drag_pos st |}.

Definition set_vertices (st : Store) (k : Z) (a : vec3 T) : Store :=
  {| x := x st; v := v st; ball_center := ball_center st;
     indices := indices st;
     vertices := fun m => if (m =? k)%Z then a else vertices st m;
     colors := colors st;
     spring_offsets := spring_offsets st; dragging := dragging st;
     picked_node := picked_node st; drag_pos := drag_pos st |}.

(** The store when the script has declared its fields: Taichi fields start
    filled with zeros, [ball_center[0] = [0, 0, 0]], the list is empty. *)
Definition blank : Store :=
  {| x := fun _ => V3 (of_int 0) (of_int 0) (of_int 0);
     v := fun _ => V3 (of_int 0) (of_int 0) (of_int 0);
     ball_center := fun _ => V3 (of_int 0) (of_int 0) (of_int 0);
     indices := fun _ => 0%Z;
     vertices := fun _ => V3 (of_int 0) (of_int 0) (of_int 0);
     colors := fun _ => V3 (of_int 0) (of_int 0) (of_int 0);
     spring_offsets := [];
     dragging := false;
     picked_node := (0, 0)%Z;
     drag_pos := V3 (of_int 0) (of_int 0) (of_int 0) |}.

(** ** Code shared by the two scripts *)

(** [initialize_mass_points]: [r0] and [r1] are the two values returned
    by [ti.random()]; the offset is computed once, before the loop. *)
Definition random_offset (r0 r1 : T) : T * T :=
  ((r0 - dec 5 1) * dec 1 1, (r1 - dec 5 1) * dec 1 1).

Definition initialize_mass_points (P : Params) (r0 r1 : T) (st : Store)
  : Store :=
  let ro := random_offset r0 r1 in
  fold_left
    (fun s ij =>
       let s1 :=
         set_x s ij
           (V3 (of_int (fst ij) * quad_size P - dec 5 1 + fst ro)
               (dec 6 1)
               (of_int (snd ij) * quad_size P - dec 5 1 + snd ro)) in
       set_v s1 ij (V3 (of_int 0) (of_int 0) (of_int 0)))
    (nodes (n P)) st.

(** [initialize_mesh_indices] ([initial_mesh_indices] in variant A): two
    triangles per quad, and a checkerboard of colours. *)
Definition initialize_mesh_indices (P : Params) (st : Store) : Store :=
  let m := Z.of_nat (n P) in
  let st1 :=
    fold_left
      (fun s ij =>
         let i := fst ij in
         let j := snd ij in
         let quad_id := (i * (m - 1) + j)%Z in
         let s0 := set_indices s (quad_id * 6 + 0)%Z (i * m + j)%Z in
         let s1 := set_indices s0 (quad_id * 6 + 1)%Z ((i + 1) * m + j)%Z in
         let s2 := set_indices s1 (quad_id * 6 + 2)%Z (i * m + (j + 1))%Z in
         let s3 :=
           set_indices s2 (quad_id * 6 + 3)%Z ((i + 1) * m + (j + 1))%Z in
         let s4 := set_indices s3 (quad_id * 6 + 4)%Z (i * m + (j + 1))%Z in
         set_indices s4 (quad_id * 6 + 5)%Z ((i + 1) * m + j)%Z)
      (nodes (n P - 1)) st in
  fold_left
    (fun s ij =>
       let i := fst ij in
       let j := snd ij in
       if ((i / 4 + j / 4) mod 2 =? 0)%Z then
         set_colors s (i * m + j)%Z (V3 (dec 22 2) (dec 72 2) (dec 52 2))
       else
         set_colors s (i * m + j)%Z (V3 (of_int 1) (dec 334 3) (dec 52 2)))
    (nodes (n P)) st1.

(** The two ways of filling [spring_offsets]. *)
Definition offsets_of (bending_springs : bool) : list node :=
  if bending_springs then
    filter (fun o => negb (node_eqb o (0, 0)%Z))
      (list_prod (range_from (-1) 2) (range_from (-1) 2))
  else
    filter (fun o => negb (node_eqb o (0, 0)%Z) &&
                     (Z.abs (fst o) + Z.abs (snd o) <=? 2)%Z)
      (list_prod (range_from (-2) 3) (range_from (-2) 3)).

(** First loop of [substep]: [v[i] += gravity * dt]. *)
Definition gravity_pass (P : Params) (st : Store) : Store :=
  fold_left
    (fun s i => set_v s i (vadd (v s i) (vsmul (gravity P) (dt P))))
    (nodes (n P)) st.

(** The body of the [if] in the second loop, for node [i] and an in-bounds
    neighbour [j]: the increment of the spring's internal force ... *)
Definition spring_elastic (P : Params) (st : Store) (i j : node) : vec3 T :=
  let x_ij := vsub (x st i) (x st j) in
  let d := normalized x_ij in
  let current_dist := norm x_ij in
  let original_dist := quad_size P * norm2 (node_sub i j) in
  vsmul (svmul (- spring_Y P) d) (current_dist / original_dist - of_int 1).

(** ... and the increment of the damping force of the relative movement. *)
Definition spring_damping (P : Params) (st : Store) (i j : node) : vec3 T :=
  let x_ij := vsub (x st i) (x st j) in
  let v_ij := vsub (v st i) (v st j) in
  let d := normalized x_ij in
  vsmul (vsmul (svmul (- dot v_ij d) d) (dashpot_damping P)) (quad_size P).

(** [force += ...; force += ...]. *)
Definition spring_term (P : Params) (st : Store) (i j : node)
  (force : vec3 T) : vec3 T :=
  vadd (vadd force (spring_elastic P st i j)) (spring_damping P st i j).

(** The inner loop over [spring_offsets] for node [i]. *)
Definition spring_force (P : Params) (st : Store) (i : node) : vec3 T :=
  fold_left
    (fun force spring_offset =>
       let j := node_add i spring_offset in
       if in_grid (n P) j then spring_term P st i j force else force)
    (spring_offsets st) (V3 (of_int 0) (of_int 0) (of_int 0)).

(** Second loop of [substep], run serially over the nodes in the order
    [ord]: each iteration reads the store left by the previous ones and
    writes [v[i]] in place. *)
Definition spring_pass_over (P : Params) (ord : list node) (st : Store)
  : Store :=
  fold_left
    (fun s i => set_v s i (vadd (v s i) (vsmul (spring_force P s i) (dt P))))
    ord st.

Definition spring_pass (P : Params) (st : Store) : Store :=
  spring_pass_over P (nodes (n P)) st.

(** The double-buffered spring pass of the specification: all per-node
    increments are computed from the store as it is when the pass starts,
    then applied. *)
Definition spring_pass_buffered (P : Params) (ord : list node) (st : Store)
  : Store :=
  let delta := fun i => vsmul (spring_force P st i) (dt P) in
  fold_left (fun s i => set_v s i (vadd (v s i) (delta i))) ord st.

(** The velocity projection of the collision test, applied to node [i]. *)
Definition collide (P : Params) (st : Store) (i : node) : Store :=
  let offset_to_center := vsub (x st i) (ball_center st 0%Z) in
  if sleb (norm offset_to_center) (ball_radius P) then
    let normal := normalized offset_to_center in
    set_v st i
      (vsub (v st i) (svmul (smin (dot (v st i) normal) (of_int 0)) normal))
  else st.

(** [v[i] *= ti.exp(-drag_damping * dt)]. *)
Definition damp (P : Params) (st : Store) (i : node) : Store :=
  set_v st i (vsmul (v st i) (sexp (- drag_damping P * dt P))).

(** [x[i] += dt * v[i]]. *)
Definition integrate (P : Params) (st : Store) (i : node) : Store :=
  set_x st i (vadd (x st i) (svmul (dt P) (v st i))).

(** [update_vertices]: [vertices[i * n + j] = x[i, j]] over
    [ti.ndrange(n, n)]. *)
Definition update_vertices (P : Params) (st : Store) : Store :=
  let m := Z.of_nat (n P) in
  fold_left
    (fun s ij => set_vertices s (fst ij * m + snd ij)%Z (x s ij))
    (nodes (n P)) st.

End State.

Arguments Params T : clear implicits.
Arguments Store T : clear implicits.
Arguments field T : clear implicits.

(** ** Variant A: [3.0physsim.py] *)

Module PhysSim.
Section Kernel.
Context {T : Type} {ST : Scalar T}.
Local Open Scope sc_scope.

(** The constants of the script for a grid of side [n]
    ([quad_size = 1.0 / n], [dt = 4e-2 / n]). *)
Definition params_of (n : nat) : Params T :=
  {| n := n;
     quad_size := of_int 1 / of_int (Z.of_nat n);
     dt := dec 4 2 / of_int (Z.of_nat n);
     gravity := V3 (of_int 0) (dec (-98) 1) (of_int 0);
     spring_Y := of_int 30000;
     dashpot_damping := of_int 10000;
     drag_damping := of_int 1;
     ball_radius := dec 3 1 |}.

(** [n = 128]. *)
Definition params : Params T := params_of 128.

(** [bending_springs = True]. *)
Definition bending_springs : bool := true.

(** Third loop of [substep]. *)
Definition third_pass (P : Params T) (st : Store T) : Store T :=
  fold_left (fun s i => integrate P (collide P (damp P s i) i) i)
    (nodes (n P)) st.

Definition substep (P : Params T) (st : Store T) : Store T :=
  third_pass P (spring_pass P (gravity_pass P st)).

(** The store when the main loop starts: the mesh indices, the spring
    offsets, then [initialize_mass_points()], which draws [r0] and [r1]. *)
Definition startup (P : Params T) (r0 r1 : T) : Store T :=
  initialize_mass_points P r0 r1
    (set_spring_offsets (initialize_mesh_indices P blank)
       (offsets_of bending_springs)).

(** The body of [for i in range(substeps)] in the main loop, on the pair of
    the store and [current_t]: [substep(); current_t += dt]. *)
Definition tick (P : Params T) (s : Store T * T) : Store T * T :=
  (substep P (fst s), snd s + dt P).

(** One turn of [while window.running], up to the drawing calls.
    [substeps] is the module constant of that name; [r0] and [r1] are the
    values [ti.random()] returns if the sheet is reset in this turn. *)
Definition main_turn (P : Params T) (substeps : nat) (r0 r1 : T)
  (s : Store T * T) : Store T * T :=
  let s1 :=
    if sltb (dec 15 1) (snd s) then
      (initialize_mass_points P r0 r1 (fst s), of_int 0)
    else s in
  let s2 := Nat.iter substeps (tick P) s1 in
  (update_vertices P (fst s2), snd s2).

(** [while window.running], for as many turns as [draws] has entries: each
    turn is given the two values [ti.random()] would return in it.  The loop
    starts on the pair of the store [startup] leaves and [current_t = 0.0]. *)
Definition main_loop (P : Params T) (substeps : nat) (draws : list (T * T))
  (s : Store T * T) : Store T * T :=
  fold_left (fun s d => main_turn P substeps (fst d) (snd d) s) draws s.
End Kernel.

(** The main loop with the two arithmetics of the script kept apart.  The
    kernels compute in the field type [T]; [dt] and [current_t] are Python
    floats, of type [U], and [host_dt] is the module constant [dt] as the
    loop adds it to [current_t].  [main_turn] is the case [U = T]. *)
Section Host.
Context {T : Type} {ST : Scalar T} {U : Type} {SU : Scalar U}.
Local Open Scope sc_scope.

(** [substep(); current_t += dt]. *)
Definition tick_host (P : Params T) (host_dt : U) (s : Store T * U)
  : Store T * U :=
  (substep P (fst s), snd s + host_dt).

(** One turn of [while window.running], up to the drawing calls. *)
Definition main_turn_host (P : Params T) (host_dt : U) (substeps : nat)
  (r0 r1 : T) (s : Store T * U) : Store T * U :=
  let s1 :=
    if sltb (dec 15 1) (snd s) then
      (initialize_mass_points P r0 r1 (fst s), of_int 0)
    else s in
  let s2 := Nat.iter substeps (tick_host P host_dt) s1 in
  (update_vertices P (fst s2), snd s2).

Definition main_loop_host (P : Params T) (host_dt : U) (substeps : nat)
  (draws : list (T * T)) (s : Store T * U) : Store T * U :=
  fold_left (fun s d => main_turn_host P host_dt substeps (fst d) (snd d) s)
    draws s.
End Host.
End PhysSim.

(** ** Variant B: [p.clothes.py] *)

Module Clothes.
Section Kernel.
Context {T : Type} {ST : Scalar T}.
Local Open Scope sc_scope.

(** The constants of the script ([dt = 2e-2 / n]). *)
Definition params_of (n : nat) : Params T :=
  {| n := n;
     quad_size := of_int 1 / of_int (Z.of_nat n);
     dt := dec 2 2 / of_int (Z.of_nat n);
     gravity := V3 (of_int 0) (dec (-98) 1) (of_int 0);
     spring_Y := of_int 30000;
     dashpot_damping := of_int 10000;
     drag_damping := of_int 1;
     ball_radius := dec 3 1 |}.

Definition params : Params T := params_of 128.

(** [bending_springs = False]. *)
Definition bending_springs : bool := false.

(** [initialize_spring_offsets] appends to the module-level list. *)
Definition initialize_spring_offsets (st : Store T) : Store T :=
  set_spring_offsets st (spring_offsets st ++ offsets_of bending_springs).

(** [dragging[None] == 1 and all(i == picked_node[None])]. *)
Definition is_dragged (st : Store T) (i : node) : bool :=
  dragging st && node_eqb i (picked_node st).

(** The drag override: an [if] without [else]. *)
Definition drag_override (P : Params T) (st : Store T) (i : node) : Store T :=
  if is_dragged st i then
    set_v st i (vsmul (vsdiv (vsub (drag_pos st) (x st i)) (dt P)) (dec 5 1))
  else st.

(** Third loop of [substep]. *)
Definition third_pass (P : Params T) (st : Store T) : Store T :=
  fold_left
    (fun s i => integrate P (collide P (drag_override P (damp P s i) i) i) i)
    (nodes (n P)) st.

(** Fourth loop of [substep]: [for i in range(n)] resets column [n - 1]. *)
Definition pin_position (P : Params T) (i : Z) : vec3 T :=
  V3 (of_int i * quad_size P - dec 5 1) (dec 6 1) (dec 5 1).

Definition pin_pass (P : Params T) (st : Store T) : Store T :=
  fold_left
    (fun s i =>
       let c := (i, Z.of_nat (n P) - 1)%Z in
       set_v (set_x s c (pin_position P i)) c
         (V3 (of_int 0) (of_int 0) (of_int 0)))
    (range (n P)) st.

Definition substep (P : Params T) (st : Store T) : Store T :=
  pin_pass P (third_pass P (spring_pass P (gravity_pass P st))).

(** The first three calls of [main]. *)
Definition startup (P : Params T) (r0 r1 : T) : Store T :=
  initialize_spring_offsets
    (initialize_mass_points P r0 r1 (initialize_mesh_indices P blank)).

(** The distance computed in the body of [pick_node]'s loops. *)
Definition ray_dist (ray_ori ray_dir pos : vec3 T) : T :=
  let to_node := vsub pos ray_ori in
  let t := dot to_node ray_dir in
  let closest := vadd ray_ori (svmul t ray_dir) in
  norm (vsub closest pos).

(** One iteration of [pick_node]'s inner loop on [(min_dist, node)]. *)
Definition pick_step (ray_ori ray_dir : vec3 T) (st : Store T)
  (acc : T * option node) (ij : node) : T * option node :=
  let dist := ray_dist ray_ori ray_dir (x st ij) in
  if sltb dist (dec 2 2) && sltb dist (fst acc) then (dist, Some ij)
  else acc.

Definition pick_node (P : Params T) (ray_ori ray_dir : vec3 T)
  (st : Store T) : option node :=
  snd (fold_left (pick_step ray_ori ray_dir st) (nodes (n P))
         (of_int (10 ^ 10), None)).

(** What the window reports to one turn of [main]'s loop: the left button
    is up, or it is down and [get_mouse_ray] returned a ray. *)
Inductive mouse : Type :=
| Released
| Pressed (ray_ori ray_dir : vec3 T).

(** The two states of the drag controller, read off [dragging]. *)
Inductive drag_state : Type := Idle | Dragging.

Definition controller_state (st : Store T) : drag_state :=
  if dragging st then Dragging else Idle.

(** The mouse handling of [main]'s loop body. *)
Definition handle_mouse (P : Params T) (m : mouse) (st : Store T) : Store T :=
  match m with
  | Pressed ray_ori ray_dir =>
      if negb (dragging st) then
        match pick_node P ray_ori ray_dir st with
        | Some picked => set_dragging (set_picked_node st picked) true
        | None => st
        end
      else set_drag_pos st (vadd ray_ori (vsmul ray_dir (dec 15 1)))
  | Released => set_dragging st false
  end.

(** What [get_mouse_ray] asks of a [ti.ui.Camera]. *)
Record Camera : Type := {
  get_view_matrix : mat4 T;
  get_projection_matrix : T -> mat4 T
}.

Section MouseRay.
(** [np.linalg.inv]: the inverse, or [None] where it raises
    [LinAlgError]. *)
Variable inv : mat4 T -> option (mat4 T).

(** [get_mouse_ray]: [None] when the inversion raises. *)
Definition get_mouse_ray (camera : Camera) (screen_pos : T * T)
  (width height : T) : option (vec3 T * vec3 T) :=
  let view_mat := get_view_matrix camera in
  let aspect := width / height in
  let proj_mat := get_projection_matrix camera aspect in
  match inv (matmul proj_mat view_mat) with
  | None => None
  | Some inv_vp =>
      let ndc_x := fst screen_pos * dec 20 1 - dec 10 1 in
      let ndc_y := dec 10 1 - snd screen_pos * dec 20 1 in
      let near := V4 ndc_x ndc_y (dec (-10) 1) (dec 10 1) in
      let far := V4 ndc_x ndc_y (dec 10 1) (dec 10 1) in
      let near_world := matvec inv_vp near in
      let far_world := matvec inv_vp far in
      let near_world := v4div near_world (h3 near_world) in
      let far_world := v4div far_world (h3 far_world) in
      let ray_origin := xyz near_world in
      let ray_dir := vsub (xyz far_world) (xyz near_world) in
      let ray_dir := vsdiv ray_dir (norm ray_dir) in
      Some (ray_origin, ray_dir)
  end.

(** One turn of [while window.running] in [main], up to the drawing calls.
    [substeps] is the module constant of that name; [input] is the cursor
    position when the left button is pressed, and [None] when it is not.
    The result is [None] when [get_mouse_ray] raises. *)
Definition main_turn (P : Params T) (substeps : nat) (camera : Camera)
  (input : option (T * T)) (st : Store T) : option (Store T) :=
  let st1 := update_vertices P (Nat.iter substeps (substep P) st) in
  match input with
  | Some mpos =>
      match get_mouse_ray camera mpos (of_int 768) (of_int 768) with
      | Some (ray_ori, ray_dir) =>
          Some (handle_mouse P (Pressed ray_ori ray_dir) st1)
      | None => None
      end
  | None => Some (handle_mouse P Released st1)
  end.
End MouseRay.
End Kernel.

(** [pick_node] with the two arithmetics of the script kept apart.  The
    positions are read from the field ([x.to_numpy()], of the field's type
    [T]); the ray, the literals [0.02] and [1e10] and every intermediate
    value are numpy and Python floats, of type [U]; [to_host] is the
    conversion numpy applies to a position when it meets the ray.
    [pick_node] above is the case [U = T]. *)
Section Host.
Context {T : Type} {U : Type} {SU : Scalar U}.
Variable to_host : T -> U.

Definition pick_step_host (ray_ori ray_dir : vec3 U) (st : Store T)
  (acc : U * option node) (ij : node) : U * option node :=
  let dist := ray_dist ray_ori ray_dir (vmap to_host (x st ij)) in
  if sltb dist (dec 2 2) && sltb dist (fst acc) then (dist, Some ij)
  else acc.

Definition pick_node_host (P : Params T) (ray_ori ray_dir : vec3 U)
  (st : Store T) : option node :=
  snd (fold_left (pick_step_host ray_ori ray_dir st) (nodes (n P))
         (of_int (10 ^ 10), None)).
End Host.
End Clothes.

(** ** Counting primes: [test_ti/2acc/count_prime.py] *)

Module CountPrime.

(** Taichi's [int] is a signed 32-bit integer; [wrap32] is the value an
    arithmetic result is stored as. *)
Definition wrap32 (z : Z) : Z := ((z + 2 ^ 31) mod 2 ^ 32 - 2 ^ 31)%Z.

Section IsPrime.
(** [int(n ** 0.5)]: the power is computed in floating point and the result
    truncated. *)
Variable isqrt : Z -> Z.

(** The loop of [is_prime] over the remaining values [ks] of [k]: a divisor
    sets [result = False] and leaves the loop. *)
Fixpoint is_prime_loop (n : Z) (ks : list Z) (result : bool) : bool :=
  match ks with
  | [] => result
  | k :: ks' =>
      if (n mod k =? 0)%Z then false else is_prime_loop n ks' result
  end.

Definition is_prime (n : Z) : bool :=
  is_prime_loop n (range_from 2 (wrap32 (isqrt n + 1))) true.

(** [count_primes]: the loop over [range(2, n)] adds one for each [k] that
    [is_prime] accepts. *)
Definition count_primes (n : Z) : Z :=
  fold_left
    (fun count k => if is_prime k then wrap32 (count + 1) else count)
    (range_from 2 n) 0%Z.
End IsPrime.
End CountPrime.

(** ** Exact real arithmetic *)

Definition Rleb (a b : R) : bool := if Rle_dec a b then true else false.
Definition Rltb (a b : R) : bool := if Rlt_dec a b then true else false.

#[export] Instance R_scalar : Scalar R := {|
  of_int := IZR;
  dec := fun m k => (IZR m / IZR (10 ^ Z.of_nat k))%R;
  sadd := Rplus;
  ssub := Rminus;
  smul := Rmult;
  sdiv := Rdiv;
  sneg := Ropp;
  ssqrt := sqrt;
  sexp := exp;
  smin := Rmin;
  sleb := Rleb;
  sltb := Rltb
|}.

(** ** IEEE-754 binary32 *)

Module B32.
Definition prec : Z := 24.
Definition emax : Z := 128.

Definition of_Z (z : Z) : spec_float := binary_normalize prec emax z 0 false.

Definition nan : spec_float := S754_nan.

(** The C idiom [a < b ? a : b]. *)
Definition fmin (a b : spec_float) : spec_float :=
  if SFltb a b then a else b.

(** [exp] is not an IEEE-754 operation; any implementation [expf] can be
    plugged in. *)
Definition scalar (expf : spec_float -> spec_float) : Scalar spec_float := {|
  of_int := of_Z;
  dec := fun m k => SFdiv prec emax (of_Z m) (of_Z (10 ^ Z.of_nat k));
  sadd := SFadd prec emax;
  ssub := SFsub prec emax;
  smul := SFmul prec emax;
  sdiv := SFdiv prec emax;
  sneg := SFopp;
  ssqrt := SFsqrt prec emax;
  sexp := expf;
  smin := fmin;
  sleb := SFleb;
  sltb := SFltb
|}.

(** A degree-6 Taylor polynomial of the exponential in Horner form, computed
    in binary32; the kernels apply [exp] to [-dt], of the order of [1e-4]. *)
Definition exp_taylor (a : spec_float) : spec_float :=
  let add := SFadd prec emax in
  let mul := SFmul prec emax in
  let div := SFdiv prec emax in
  let one := of_Z 1 in
  fold_right (fun k acc => add one (mul (div a (of_Z k)) acc)) one
    [1; 2; 3; 4; 5; 6]%Z.

Definition is_nan (a : spec_float) : bool :=
  match a with S754_nan => true | _ => false end.

Definition vnan (a : vec3 spec_float) : bool :=
  is_nan (c0 a) && is_nan (c1 a) && is_nan (c2 a).
End B32.

(** ** IEEE-754 binary64: Python floats and numpy's [float64] *)

Module B64.
Definition prec : Z := 53.
Definition emax : Z := 1024.

Definition of_Z (z : Z) : spec_float := binary_normalize prec emax z 0 false.

Definition fmin (a b : spec_float) : spec_float :=
  if SFltb a b then a else b.

Definition scalar (expf : spec_float -> spec_float) : Scalar spec_float := {|
  of_int := of_Z;
  dec := fun m k => SFdiv prec emax (of_Z m) (of_Z (10 ^ Z.of_nat k));
  sadd := SFadd prec emax;
  ssub := SFsub prec emax;
  smul := SFmul prec emax;
  sdiv := SFdiv prec emax;
  sneg := SFopp;
  ssqrt := SFsqrt prec emax;
  sexp := expf;
  smin := fmin;
  sleb := SFleb;
  sltb := SFltb
|}.

(** The host code of the scripts never calls [exp]; the same polynomial as
    in binary32 fills the field. *)
Definition exp_taylor (a : spec_float) : spec_float :=
  let add := SFadd prec emax in
  let mul := SFmul prec emax in
  let div := SFdiv prec emax in
  let one := of_Z 1 in
  fold_right (fun k acc => add one (mul (div a (of_Z k)) acc)) one
    [1; 2; 3; 4; 5; 6]%Z.


(** C's [fmod]: the remainder of the magnitudes with the sign of [a]; it is
    computed without rounding. *)
Definition fmod (a b : spec_float) : spec_float :=
  match a, b with
  | S754_finite sa ma ea, S754_finite _ mb eb =>
      let e := Z.min ea eb in
      let r := ((Zpos ma * 2 ^ (ea - e)) mod (Zpos mb * 2 ^ (eb - e)))%Z in
      if (r =? 0)%Z then S754_zero sa
      else binary_normalize prec emax (cond_Zopp sa r) e false
  | S754_finite _ _ _, S754_infinity _ => a
  | S754_zero _, S754_finite _ _ _ => a
  | S754_zero _, S754_infinity _ => a
  | _, _ => S754_nan
  end.

(** C's [floor]. *)
Definition floor (a : spec_float) : spec_float :=
  match a with
  | S754_finite s m e =>
      if (0 <=? e)%Z then a
      else
        let q := (cond_Zopp s (Zpos m) / 2 ^ (- e))%Z in
        if (q =? 0)%Z then S754_zero s else of_Z q
  | _ => a
  end.

Definition sign (a : spec_float) : bool :=
  match a with
  | S754_zero s | S754_infinity s | S754_finite s _ _ => s
  | S754_nan => false
  end.

(** [vx // wx] on Python floats, as CPython's [float_floor_div] computes
    it: the quotient of [vx - fmod(vx, wx)] by [wx], lowered by one when
    the remainder and the divisor differ in sign, then snapped to the
    nearest integral value.  [None] where it raises [ZeroDivisionError]. *)
Definition floor_div (vx wx : spec_float) : option spec_float :=
  let zero := of_Z 0 in
  let one := of_Z 1 in
  if SFeqb wx zero then None
  else
    let rem := fmod vx wx in
    let div := SFdiv prec emax (SFsub prec emax vx rem) wx in
    let div :=
      if negb (SFeqb rem zero) && xorb (SFltb wx zero) (SFltb rem zero)
      then SFsub prec emax div one
      else div in
    Some
      (if negb (SFeqb div zero) then
         let floordiv := floor div in
         if SFltb (SFdiv prec emax one (of_Z 2)) (SFsub prec emax div floordiv)
         then SFadd prec emax floordiv one
         else floordiv
       else S754_zero (sign (SFdiv prec emax vx wx))).

(** [int(a)]: truncation; [None] where it raises (infinities and NaN). *)
Definition to_int (a : spec_float) : option Z :=
  match a with
  | S754_zero _ => Some 0%Z
  | S754_finite s m e =>
      Some (cond_Zopp s
              (if (0 <=? e)%Z then Zpos m * 2 ^ e else Zpos m / 2 ^ (- e)))%Z
  | _ => None
  end.
End B64.

(** [substeps = int(1 / 60 // dt)], the module constant of both scripts,
    for the Python float [dt]; [None] where the script stops with an
    exception. *)
Definition substeps (dt : spec_float) : option Z :=
  match
    B64.floor_div (SFdiv B64.prec B64.emax (B64.of_Z 1) (B64.of_Z 60)) dt
  with
  | Some q => B64.to_int q
  | None => None
  end.

(** ** The number a float stands for *)






(** * Properties *)

(** ** Grid indices *)

Lemma node_eqb_eq (a b : node) : node_eqb a b = true <-> a = b.
Proof.
  destruct a as [a1 a2], b as [b1 b2]; unfold node_eqb; simpl.
  rewrite andb_true_iff, !Z.eqb_eq. split.
  - intros [-> ->]; reflexivity.
  - intros E; inversion E; split; reflexivity.
Qed.

Lemma node_eqb_refl (a : node) : node_eqb a a = true.
Proof. apply node_eqb_eq; reflexivity. Qed.

Lemma node_eqb_neq (a b : node) : node_eqb a b = false <-> a <> b.
Proof.
  split.
  - intros E F. apply node_eqb_eq in F. congruence.
  - intros F. destruct (node_eqb a b) eqn:E; [|reflexivity].
    apply node_eqb_eq in E. contradiction.
Qed.

Lemma node_eq_dec (a b : node) : {a = b} + {a <> b}.
Proof.
  destruct (node_eqb a b) eqn:E.
  - left. now apply node_eqb_eq.
  - right. now apply node_eqb_neq.
Qed.

Lemma in_range (n : nat) (z : Z) :
  In z (range n) <-> (0 <= z < Z.of_nat n)%Z.
Proof.
  unfold range. rewrite in_map_iff. split.
  - intros [k [<- Hk]]. apply in_seq in Hk. lia.
  - intros Hz. exists (Z.to_nat z). split; [lia|]. apply in_seq. lia.
Qed.

Lemma NoDup_range (n : nat) : NoDup (range n).
Proof.
  unfold range. apply Injective_map_NoDup.
  - intros a b E. lia.
  - apply seq_NoDup.
Qed.

Lemma length_range (n : nat) : length (range n) = n.
Proof. unfold range. now rewrite length_map, length_seq. Qed.

Lemma in_nodes (n : nat) (k : node) :
  In k (nodes n) <-> in_grid n k = true.
Proof.
  destruct k as [i j]. unfold nodes, in_grid. rewrite in_prod_iff, !in_range.
  simpl. rewrite !andb_true_iff, !Z.leb_le, !Z.ltb_lt. tauto.
Qed.

Lemma NoDup_list_prod (A B : Type) (l : list A) (l' : list B) :
  NoDup l -> NoDup l' -> NoDup (list_prod l l').
Proof.
  intros Hl Hl'. induction Hl as [|a l Ha Hl IH]; simpl.
  - constructor.
  - apply NoDup_app.
    + apply Injective_map_NoDup; [|assumption].
      intros b b' E. now inversion E.
    + assumption.
    + intros [a' b] Hin Hin'. apply in_map_iff in Hin as [b' [E _]].
      inversion E; subst. apply in_prod_iff in Hin' as [Hin' _].
      contradiction.
Qed.

Lemma NoDup_nodes (n : nat) : NoDup (nodes n).
Proof. apply NoDup_list_prod; apply NoDup_range. Qed.

Lemma length_nodes (n : nat) : length (nodes n) = (n * n)%nat.
Proof. unfold nodes. now rewrite length_prod, length_range. Qed.

(** ** Stores: what a loop over the nodes leaves untouched *)

Section StoreFacts.
Context {T : Type} {ST : Scalar T}.

(** Everything in the store except the two fields [x] and [v]. *)
Definition frame (st : Store T) :=
  (ball_center st, indices st, vertices st, colors st,
   spring_offsets st, (dragging st, picked_node st, drag_pos st)).

Lemma upd_same (f : field T) (i : node) (a : vec3 T) : upd f i a i = a.
Proof. unfold upd. now rewrite node_eqb_refl. Qed.

Lemma upd_other (f : field T) (i k : node) (a : vec3 T) :
  k <> i -> upd f i a k = f k.
Proof. intros E. unfold upd. apply node_eqb_neq in E. now rewrite E. Qed.

Lemma fold_left_preserves (A B C : Type) (step : A -> B -> A) (p : A -> C) :
  (forall s i, p (step s i) = p s) ->
  forall l s, p (fold_left step l s) = p s.
Proof.
  intros Hp l. induction l as [|a l IH]; intros s; simpl.
  - reflexivity.
  - now rewrite IH, Hp.
Qed.

(** A loop whose iteration [i] writes only [x[i]] and [v[i]], and computes
    them from the values at [i] and from the rest of the store, acts on
    each visited node as a single iteration on the initial store does. *)
Section LocalPass.
Variable step : Store T -> node -> Store T.
Hypothesis step_frame : forall s i, frame (step s i) = frame s.
Hypothesis step_other :
  forall s i k, k <> i -> x (step s i) k = x s k /\ v (step s i) k = v s k.
Hypothesis step_local :
  forall s s' i, frame s = frame s' -> x s i = x s' i -> v s i = v s' i ->
    x (step s i) i = x (step s' i) i /\ v (step s i) i = v (step s' i) i.

Lemma local_pass_frame (l : list node) (s : Store T) :
  frame (fold_left step l s) = frame s.
Proof. apply fold_left_preserves with (p := frame). exact step_frame. Qed.

Lemma local_pass_notin (l : list node) :
  forall s k, ~ In k l ->
    x (fold_left step l s) k = x s k /\ v (fold_left step l s) k = v s k.
Proof.
  induction l as [|a l IH]; intros s k Hk; simpl.
  - split; reflexivity.
  - destruct (IH (step s a) k) as [Ex Ev].
    + intros F. apply Hk. now right.
    + rewrite Ex, Ev. apply step_other. intros ->. apply Hk. now left.
Qed.

Lemma local_pass_in (l : list node) :
  NoDup l ->
  forall s k, In k l ->
    x (fold_left step l s) k = x (step s k) k /\
    v (fold_left step l s) k = v (step s k) k.
Proof.
  induction 1 as [|a l Ha Hl IH]; intros s k Hk; simpl.
  - destruct Hk.
  - destruct Hk as [->|Hk].
    + apply local_pass_notin. exact Ha.
    + destruct (IH (step s a) k Hk) as [Ex Ev]. rewrite Ex, Ev.
      assert (k <> a) as Hka by (intros ->; contradiction).
      destruct (step_other s Hka) as [Ox Ov].
      apply step_local; auto.
Qed.
End LocalPass.

(** The building blocks of the passes. *)

Lemma frame_set_x (s : Store T) i a : frame (set_x s i a) = frame s.
Proof. reflexivity. Qed.

Lemma frame_set_v (s : Store T) i a : frame (set_v s i a) = frame s.
Proof. reflexivity. Qed.

Lemma x_set_x (s : Store T) i a : x (set_x s i a) = upd (x s) i a.
Proof. reflexivity. Qed.

Lemma v_set_x (s : Store T) i a : v (set_x s i a) = v s.
Proof. reflexivity. Qed.

Lemma x_set_v (s : Store T) i a : x (set_v s i a) = x s.
Proof. reflexivity. Qed.

Lemma v_set_v (s : Store T) i a : v (set_v s i a) = upd (v s) i a.
Proof. reflexivity. Qed.

Lemma spring_offsets_set_v (s : Store T) i a :
  spring_offsets (set_v s i a) = spring_offsets s.
Proof. reflexivity. Qed.

Lemma spring_offsets_set_x (s : Store T) i a :
  spring_offsets (set_x s i a) = spring_offsets s.
Proof. reflexivity. Qed.

Lemma spring_offsets_set_spring_offsets (s : Store T) l :
  spring_offsets (set_spring_offsets s l) = l.
Proof. reflexivity. Qed.

Lemma x_set_spring_offsets (s : Store T) l :
  x (set_spring_offsets s l) = x s.
Proof. reflexivity. Qed.

Lemma v_set_spring_offsets (s : Store T) l :
  v (set_spring_offsets s l) = v s.
Proof. reflexivity. Qed.

Lemma frame_collide (P : Params T) (s : Store T) i :
  frame (collide P s i) = frame s.
Proof. unfold collide. destruct (sleb _ _); reflexivity. Qed.

Lemma x_collide (P : Params T) (s : Store T) i : x (collide P s i) = x s.
Proof. unfold collide. destruct (sleb _ _); reflexivity. Qed.

Lemma v_collide_other (P : Params T) (s : Store T) i k :
  k <> i -> v (collide P s i) k = v s k.
Proof.
  intros E. unfold collide. destruct (sleb _ _); [|reflexivity].
  simpl. now apply upd_other.
Qed.

Lemma frame_ball_center (s s' : Store T) :
  frame s = frame s' -> ball_center s = ball_center s'.
Proof. unfold frame. congruence. Qed.

Lemma frame_spring_offsets (s s' : Store T) :
  frame s = frame s' -> spring_offsets s = spring_offsets s'.
Proof. unfold frame. congruence. Qed.

Lemma frame_drag (s s' : Store T) :
  frame s = frame s' ->
  dragging s = dragging s' /\ picked_node s = picked_node s' /\
  drag_pos s = drag_pos s'.
Proof. unfold frame. intros E. repeat split; congruence. Qed.

(** *** Gravity pass *)

Lemma gravity_pass_frame (P : Params T) (st : Store T) :
  frame (gravity_pass P st) = frame st.
Proof. apply fold_left_preserves with (p := frame). reflexivity. Qed.

Lemma gravity_pass_x (P : Params T) (st : Store T) :
  x (gravity_pass P st) = x st.
Proof. apply fold_left_preserves with (p := @x T). reflexivity. Qed.

Lemma gravity_pass_v (P : Params T) (st : Store T) (k : node) :
  v (gravity_pass P st) k =
  if in_grid (n P) k then vadd (v st k) (vsmul (gravity P) (dt P))
  else v st k.
Proof.
  unfold gravity_pass.
  set (step := fun (s : Store T) i =>
                 set_v s i (vadd (v s i) (vsmul (gravity P) (dt P)))).
  destruct (in_grid (n P) k) eqn:E.
  - apply in_nodes in E.
    destruct (@local_pass_in step) with (l := nodes (n P)) (s := st) (k := k)
      as [_ Ev]; auto using NoDup_nodes.
    + intros s i j Hj. unfold step; simpl. split; [reflexivity|].
      now apply upd_other.
    + intros s s' i _ Ex Ev. unfold step; simpl. split; [assumption|].
      now rewrite !upd_same, Ev.
    + rewrite Ev. unfold step; simpl. apply upd_same.
  - apply (@local_pass_notin step).
    + intros s i j Hj. unfold step; simpl. split; [reflexivity|].
      now apply upd_other.
    + intros F. apply in_nodes in F. congruence.
Qed.

(** *** Spring pass *)

Lemma spring_pass_over_frame (P : Params T) ord (st : Store T) :
  frame (spring_pass_over P ord st) = frame st.
Proof. apply fold_left_preserves with (p := frame). reflexivity. Qed.

Lemma spring_pass_over_x (P : Params T) ord (st : Store T) :
  x (spring_pass_over P ord st) = x st.
Proof. apply fold_left_preserves with (p := @x T). reflexivity. Qed.

Lemma spring_pass_over_app (P : Params T) p q (st : Store T) :
  spring_pass_over P (p ++ q) st =
  spring_pass_over P q (spring_pass_over P p st).
Proof. apply fold_left_app. Qed.

Lemma spring_pass_over_notin (P : Params T) ord :
  forall (st : Store T) k, ~ In k ord ->
    v (spring_pass_over P ord st) k = v st k.
Proof.
  unfold spring_pass_over.
  induction ord as [|a l IH]; intros st k Hk; simpl.
  - reflexivity.
  - rewrite IH by (intros F; apply Hk; now right).
    simpl. apply upd_other. intros ->. apply Hk. now left.
Qed.
End StoreFacts.

Section SpringPass.
Context {T : Type} {ST : Scalar T}.


Lemma fold_set_v_notin (g : Store T -> node -> vec3 T) (l : list node) :
  forall (s : Store T) k, ~ In k l ->
    v (fold_left (fun s i => set_v s i (g s i)) l s) k = v s k.
Proof.
  induction l as [|a l IH]; intros s k Hk; simpl.
  - reflexivity.
  - rewrite IH by (intros F; apply Hk; now right).
    simpl. apply upd_other. intros ->. apply Hk. now left.
Qed.


Lemma spring_pass_buffered_notin (P : Params T) ord (st : Store T) k :
  ~ In k ord -> v (spring_pass_buffered P ord st) k = v st k.
Proof.
  intros Hk. unfold spring_pass_buffered.
  now rewrite (fold_set_v_notin
                 (fun s i => vadd (v s i) (vsmul (spring_force P st i) (dt P)))).
Qed.


Lemma spring_pass_buffered_x (P : Params T) ord (st : Store T) :
  x (spring_pass_buffered P ord st) = x st.
Proof.
  unfold spring_pass_buffered.
  apply fold_left_preserves with (p := @x T). reflexivity.
Qed.

(** What the in-place pass has done when it reaches node [i], after the
    nodes of [p]. *)
Lemma spring_pass_over_at (P : Params T) p i q (st : Store T) :
  NoDup (p ++ i :: q) ->
  v (spring_pass_over P (p ++ i :: q) st) i =
  vadd (v st i) (vsmul (spring_force P (spring_pass_over P p st) i) (dt P)).
Proof.
  intros Hnd. rewrite spring_pass_over_app.
  apply NoDup_remove_2 in Hnd as Hi.
  change (spring_pass_over P (i :: q) (spring_pass_over P p st))
    with (spring_pass_over P q
            (set_v (spring_pass_over P p st) i
               (vadd (v (spring_pass_over P p st) i)
                  (vsmul (spring_force P (spring_pass_over P p st) i)
                     (dt P))))).
  rewrite spring_pass_over_notin by (intros F; apply Hi, in_or_app; now right).
  simpl. rewrite upd_same.
  rewrite spring_pass_over_notin by (intros F; apply Hi, in_or_app; now left).
  reflexivity.
Qed.
(** The inner loop visits the in-bounds neighbours of [i], in the order of
    [spring_offsets]. *)
Lemma spring_force_neighbours (P : Params T) (st : Store T) (i : node) :
  spring_force P st i =
  fold_left (fun force j => spring_term P st i j force)
    (filter (in_grid (n P)) (map (node_add i) (spring_offsets st)))
    (V3 (of_int 0) (of_int 0) (of_int 0)).
Proof.
  unfold spring_force. generalize (V3 (T:=T) (of_int 0) (of_int 0) (of_int 0)).
  induction (spring_offsets st) as [|o l IH]; intros f; simpl.
  - reflexivity.
  - destruct (in_grid (n P) (node_add i o)); simpl; apply IH.
Qed.
End SpringPass.

Section SpringPassReads.
Context {T : Type} {ST : Scalar T}.

End SpringPassReads.

(** ** The third pass of [substep] *)

Section ThirdPass.
Context {T : Type} {ST : Scalar T}.
Local Open Scope sc_scope.

(** The velocity the collision test leaves for a node at position [xi]
    with velocity [w]. *)
Definition collided (P : Params T) (center xi w : vec3 T) : vec3 T :=
  let offset_to_center := vsub xi center in
  if sleb (norm offset_to_center) (ball_radius P) then
    vsub w (svmul (smin (dot w (normalized offset_to_center)) (of_int 0))
              (normalized offset_to_center))
  else w.

Lemma v_collide_self (P : Params T) (s : Store T) i :
  v (collide P s i) i = collided P (ball_center s 0%Z) (x s i) (v s i).
Proof.
  unfold collide, collided. destruct (sleb _ _); [|reflexivity].
  simpl. apply upd_same.
Qed.

(** Variant A: one iteration of the third loop. *)
Definition physsim_step (P : Params T) (s : Store T) (i : node) : Store T :=
  integrate P (collide P (damp P s i) i) i.

Lemma physsim_step_self (P : Params T) (s : Store T) i :
  let v1 := vsmul (v s i) (sexp (- drag_damping P * dt P)) in
  let v3 := collided P (ball_center s 0%Z) (x s i) v1 in
  v (physsim_step P s i) i = v3 /\
  x (physsim_step P s i) i = vadd (x s i) (svmul (dt P) v3).
Proof.
  intros v1 v3. unfold physsim_step, integrate. simpl.
  rewrite upd_same, x_collide, v_collide_self. simpl.
  rewrite upd_same. split; reflexivity.
Qed.

Lemma physsim_step_other (P : Params T) (s : Store T) i k :
  k <> i ->
  x (physsim_step P s i) k = x s k /\ v (physsim_step P s i) k = v s k.
Proof.
  intros E. unfold physsim_step, integrate. simpl.
  rewrite upd_other, x_collide, v_collide_other by assumption. simpl.
  rewrite upd_other by assumption. split; reflexivity.
Qed.

Lemma physsim_step_frame (P : Params T) (s : Store T) i :
  frame (physsim_step P s i) = frame s.
Proof.
  unfold physsim_step, integrate. rewrite frame_set_x, frame_collide.
  reflexivity.
Qed.

Lemma physsim_third_pass_frame (P : Params T) (st : Store T) :
  frame (PhysSim.third_pass P st) = frame st.
Proof.
  apply (local_pass_frame (physsim_step P)), physsim_step_frame.
Qed.

Lemma physsim_third_pass_in (P : Params T) (st : Store T) i :
  in_grid (n P) i = true ->
  x (PhysSim.third_pass P st) i = x (physsim_step P st i) i /\
  v (PhysSim.third_pass P st) i = v (physsim_step P st i) i.
Proof.
  intros Hi. apply (local_pass_in (physsim_step P)).
  - apply physsim_step_frame.
  - intros s j k. apply physsim_step_other.
  - intros s s' j Ef Ex Ev.
    destruct (physsim_step_self P s j) as [-> ->].
    destruct (physsim_step_self P s' j) as [-> ->].
    apply frame_ball_center in Ef. rewrite Ef, Ex, Ev. split; reflexivity.
  - apply NoDup_nodes.
  - now apply in_nodes.
Qed.

(** Variant B: one iteration of the third loop. *)
Definition clothes_step (P : Params T) (s : Store T) (i : node) : Store T :=
  integrate P (collide P (Clothes.drag_override P (damp P s i) i) i) i.

(** The velocity after the damping and the drag override. *)
Definition dragged (P : Params T) (s : Store T) (i : node) : vec3 T :=
  if Clothes.is_dragged s i then
    vsmul (vsdiv (vsub (drag_pos s) (x s i)) (dt P)) (dec 5 1)
  else vsmul (v s i) (sexp (- drag_damping P * dt P)).

Lemma clothes_override_facts (P : Params T) (s : Store T) i :
  let s2 := Clothes.drag_override P (damp P s i) i in
  frame s2 = frame s /\ x s2 = x s /\ v s2 i = dragged P s i /\
  forall k, k <> i -> v s2 k = v s k.
Proof.
  unfold Clothes.drag_override, dragged, Clothes.is_dragged. simpl.
  destruct (dragging s && node_eqb i (picked_node s)); simpl.
  - rewrite upd_same. repeat split. intros k E. now rewrite !upd_other.
  - rewrite upd_same. repeat split. intros k E. now rewrite !upd_other.
Qed.

Lemma clothes_step_self (P : Params T) (s : Store T) i :
  let v3 := collided P (ball_center s 0%Z) (x s i) (dragged P s i) in
  v (clothes_step P s i) i = v3 /\
  x (clothes_step P s i) i = vadd (x s i) (svmul (dt P) v3).
Proof.
  intros v3. unfold clothes_step, integrate. simpl.
  destruct (clothes_override_facts P s i) as [Ef [Ex [Ev _]]].
  rewrite upd_same, x_collide, v_collide_self, Ex, Ev.
  apply frame_ball_center in Ef. rewrite Ef. split; reflexivity.
Qed.

Lemma clothes_step_other (P : Params T) (s : Store T) i k :
  k <> i ->
  x (clothes_step P s i) k = x s k /\ v (clothes_step P s i) k = v s k.
Proof.
  intros E. unfold clothes_step, integrate. simpl.
  destruct (clothes_override_facts P s i) as [_ [Ex [_ Ev]]].
  rewrite upd_other, x_collide, v_collide_other, Ex, Ev by assumption.
  split; reflexivity.
Qed.

Lemma clothes_step_frame (P : Params T) (s : Store T) i :
  frame (clothes_step P s i) = frame s.
Proof.
  unfold clothes_step, integrate. rewrite frame_set_x, frame_collide.
  apply clothes_override_facts.
Qed.

Lemma clothes_third_pass_frame (P : Params T) (st : Store T) :
  frame (Clothes.third_pass P st) = frame st.
Proof.
  apply (local_pass_frame (clothes_step P)), clothes_step_frame.
Qed.

Lemma clothes_third_pass_in (P : Params T) (st : Store T) i :
  in_grid (n P) i = true ->
  x (Clothes.third_pass P st) i = x (clothes_step P st i) i /\
  v (Clothes.third_pass P st) i = v (clothes_step P st i) i.
Proof.
  intros Hi. apply (local_pass_in (clothes_step P)).
  - apply clothes_step_frame.
  - intros s j k. apply clothes_step_other.
  - intros s s' j Ef Ex Ev.
    destruct (clothes_step_self P s j) as [-> ->].
    destruct (clothes_step_self P s' j) as [-> ->].
    unfold dragged, Clothes.is_dragged.
    destruct (frame_drag Ef) as [-> [-> ->]].
    apply frame_ball_center in Ef. rewrite Ef, Ex, Ev. split; reflexivity.
  - apply NoDup_nodes.
  - now apply in_nodes.
Qed.

Lemma clothes_third_pass_notin (P : Params T) (st : Store T) k :
  in_grid (n P) k = false ->
  x (Clothes.third_pass P st) k = x st k /\
  v (Clothes.third_pass P st) k = v st k.
Proof.
  intros Hk. apply (local_pass_notin (clothes_step P)).
  - intros s j k'. apply clothes_step_other.
  - intros F. apply in_nodes in F. congruence.
Qed.

(** The third pass as the specification words it, for one node: the
    collision test is the [else] branch of the drag test.  The result is
    the new velocity and the new position. *)
Definition third_pass_node_spec (P : Params T) (st : Store T) (i : node)
  : vec3 T * vec3 T :=
  let v1 := vsmul (v st i) (sexp (- drag_damping P * dt P)) in
  let offset_to_center := vsub (x st i) (ball_center st 0%Z) in
  let normal := normalized offset_to_center in
  let v2 :=
    if dragging st && node_eqb i (picked_node st) then
      vsmul (vsdiv (vsub (drag_pos st) (x st i)) (dt P)) (dec 5 1)
    else if sleb (norm offset_to_center) (ball_radius P) then
      vsub v1 (svmul (smin (dot v1 normal) (of_int 0)) normal)
    else v1 in
  (v2, vadd (x st i) (svmul (dt P) v2)).

(** C2 (amended).  In the third pass of variant B every node [i] of the
    grid is treated from its own values at the start of the pass, in this
    order: the velocity is scaled by [exp(-drag_damping*dt)]; if the drag
    state is active and [i] is the picked index, the velocity is replaced
    by [(target - position)/dt * 0.5]; then, for every node, dragged or
    not, if [norm(position - center) <= radius] the inward-normal component
    of the velocity is removed; finally [position += velocity * dt]. *)
Theorem third_pass_order (P : Params T) (st : Store T) (i : node) :
  in_grid (n P) i = true ->
  let st' := Clothes.third_pass P st in
  let v1 := vsmul (v st i) (sexp (- drag_damping P * dt P)) in
  let v2 :=
    if dragging st && node_eqb i (picked_node st) then
      vsmul (vsdiv (vsub (drag_pos st) (x st i)) (dt P)) (dec 5 1)
    else v1 in
  let offset_to_center := vsub (x st i) (ball_center st 0%Z) in
  let normal := normalized offset_to_center in
  let v3 :=
    if sleb (norm offset_to_center) (ball_radius P) then
      vsub v2 (svmul (smin (dot v2 normal) (of_int 0)) normal)
    else v2 in
  v st' i = v3 /\ x st' i = vadd (x st i) (svmul (dt P) v3).
Proof.
  intros Hi st' v1 v2 off normal v3.
  destruct (clothes_third_pass_in P st i Hi) as [Ex Ev].
  destruct (clothes_step_self P st i) as [Sv Sx].
  unfold st'. rewrite Ex, Ev, Sv, Sx. split; reflexivity.
Qed.
End ThirdPass.

(** ** Whole substeps *)

Section Substep.
Context {T : Type} {ST : Scalar T}.
Local Open Scope sc_scope.

Lemma spring_pass_frame (P : Params T) (st : Store T) :
  frame (spring_pass P st) = frame st.
Proof. apply spring_pass_over_frame. Qed.

Lemma pin_pass_frame (P : Params T) (st : Store T) :
  frame (Clothes.pin_pass P st) = frame st.
Proof. apply fold_left_preserves with (p := frame). reflexivity. Qed.

Lemma physsim_substep_frame (P : Params T) (st : Store T) :
  frame (PhysSim.substep P st) = frame st.
Proof.
  unfold PhysSim.substep.
  now rewrite physsim_third_pass_frame, spring_pass_frame, gravity_pass_frame.
Qed.

Lemma clothes_substep_frame (P : Params T) (st : Store T) :
  frame (Clothes.substep P st) = frame st.
Proof.
  unfold Clothes.substep.
  now rewrite pin_pass_frame, clothes_third_pass_frame, spring_pass_frame,
    gravity_pass_frame.
Qed.

Lemma iter_frame (f : Store T -> Store T) :
  (forall s, frame (f s) = frame s) ->
  forall k s, frame (Nat.iter k f s) = frame s.
Proof.
  intros Hf k. induction k as [|k IH]; intros s; simpl.
  - reflexivity.
  - now rewrite Hf, IH.
Qed.

(** C10.  Any number of calls of [substep], in either script, leaves the
    collider centre, the spring offsets, the index buffer and the colour
    buffer as they were (and the vertex buffer and the drag fields too);
    only [x] and [v] are written.  The collider radius is a constant of
    [Params], which [substep] receives and does not return. *)
Theorem substep_writes_only_x_v (P : Params T) (k : nat) (st : Store T) :
  let stA := Nat.iter k (PhysSim.substep P) st in
  let stB := Nat.iter k (Clothes.substep P) st in
  (ball_center stA = ball_center st /\
   spring_offsets stA = spring_offsets st /\
   indices stA = indices st /\ colors stA = colors st /\
   vertices stA = vertices st) /\
  (ball_center stB = ball_center st /\
   spring_offsets stB = spring_offsets st /\
   indices stB = indices st /\ colors stB = colors st /\
   vertices stB = vertices st /\
   dragging stB = dragging st /\ picked_node stB = picked_node st /\
   drag_pos stB = drag_pos st).
Proof.
  intros stA stB.
  pose proof (iter_frame (PhysSim.substep P) (physsim_substep_frame P) k st)
    as EA.
  pose proof (iter_frame (Clothes.substep P) (clothes_substep_frame P) k st)
    as EB.
  fold stA in EA. fold stB in EB. unfold frame in EA, EB.
  inversion EA. inversion EB. repeat split; congruence.
Qed.

(** *** The pinned column of variant B *)

Lemma pin_pass_column (P : Params T) (l : list Z) :
  forall (s : Store T) i, In i l ->
    let c := (i, Z.of_nat (n P) - 1)%Z in
    let s' :=
      fold_left
        (fun s i =>
           let c := (i, Z.of_nat (n P) - 1)%Z in
           set_v (set_x s c (Clothes.pin_position P i)) c
             (V3 (of_int 0) (of_int 0) (of_int 0)))
        l s in
    x s' c = Clothes.pin_position P i /\
    v s' c = V3 (of_int 0) (of_int 0) (of_int 0).
Proof.
  induction l as [|a l IH] using rev_ind; intros s i Hi; simpl.
  - destruct Hi.
  - rewrite fold_left_app. simpl.
    destruct (Z.eq_dec i a) as [->|Hne].
    + rewrite !upd_same. split; reflexivity.
    + apply in_app_or in Hi as [Hi|[Hi|[]]]; [|congruence].
      rewrite !upd_other by congruence. now apply IH.
Qed.

(** The fourth loop leaves the other columns alone. *)
Lemma pin_pass_elsewhere (P : Params T) (st : Store T) (k : node) :
  snd k <> (Z.of_nat (n P) - 1)%Z ->
  x (Clothes.pin_pass P st) k = x st k /\ v (Clothes.pin_pass P st) k = v st k.
Proof.
  intros Hk. unfold Clothes.pin_pass. revert st.
  induction (range (n P)) as [|a l IH]; intros st; cbn [fold_left].
  - split; reflexivity.
  - destruct (IH (set_v (set_x st (a, (Z.of_nat (n P) - 1)%Z)
                           (Clothes.pin_position P a))
                    (a, (Z.of_nat (n P) - 1)%Z)
                    (V3 (of_int 0) (of_int 0) (of_int 0)))) as [-> ->].
    simpl. rewrite !upd_other; [split; reflexivity| |];
      intros E; apply Hk; now rewrite E.
Qed.

Lemma substep_pinned (P : Params T) (st : Store T) (i : Z) :
  (0 <= i < Z.of_nat (n P))%Z ->
  x (Clothes.substep P st) (i, Z.of_nat (n P) - 1)%Z = Clothes.pin_position P i
  /\ v (Clothes.substep P st) (i, Z.of_nat (n P) - 1)%Z
     = V3 (of_int 0) (of_int 0) (of_int 0).
Proof.
  intros Hi. apply in_range in Hi.
  exact (pin_pass_column P (range (n P))
           (Clothes.third_pass P (spring_pass P (gravity_pass P st))) i Hi).
Qed.

(** C4 (amended).  In variant B, after every substep, every node of the
    column [(i, n-1)], [0 <= i < n], has zero velocity and the fixed position
    [(i * quad_size - 0.5, 0.6, 0.5)], whatever the three physics passes
    computed for it. *)
Theorem pinned_column (P : Params T) (st : Store T) (i : Z) :
  (0 <= i < Z.of_nat (n P))%Z ->
  let st' := Clothes.substep P st in
  let c := (i, Z.of_nat (n P) - 1)%Z in
  v st' c = V3 (of_int 0) (of_int 0) (of_int 0) /\
  x st' c = V3 (of_int i * quad_size P - dec 5 1) (dec 6 1) (dec 5 1).
Proof.
  intros Hi st' c. destruct (substep_pinned P st Hi) as [Ex Ev].
  split; [exact Ev|exact Ex].
Qed.

(** *** [initialize_mass_points] *)

Lemma initialize_mass_points_frame (P : Params T) r0 r1 (st : Store T) :
  frame (initialize_mass_points P r0 r1 st) = frame st.
Proof. apply fold_left_preserves with (p := frame). reflexivity. Qed.

Lemma initialize_mass_points_in (P : Params T) r0 r1 (st : Store T) ij :
  in_grid (n P) ij = true ->
  let st' := initialize_mass_points P r0 r1 st in
  x st' ij =
    V3 (of_int (fst ij) * quad_size P - dec 5 1 + fst (random_offset r0 r1))
       (dec 6 1)
       (of_int (snd ij) * quad_size P - dec 5 1 + snd (random_offset r0 r1))
  /\ v st' ij = V3 (of_int 0) (of_int 0) (of_int 0).
Proof.
  intros Hi st'. unfold st', initialize_mass_points.
  set (step := fun (s : Store T) (ij : node) =>
     set_v
       (set_x s ij
          (V3 (of_int (fst ij) * quad_size P - dec 5 1
               + fst (random_offset r0 r1))
              (dec 6 1)
              (of_int (snd ij) * quad_size P - dec 5 1
               + snd (random_offset r0 r1))))
       ij (V3 (of_int 0) (of_int 0) (of_int 0))).
  destruct (local_pass_in step) with (l := nodes (n P)) (s := st) (k := ij)
    as [Ex Ev].
  - reflexivity.
  - intros s i k Hk. unfold step; simpl. now rewrite !upd_other.
  - intros s s' i _ _ _. unfold step; simpl. now rewrite !upd_same.
  - apply NoDup_nodes.
  - now apply in_nodes.
  - change (fold_left _ (nodes (n P)) st) with (fold_left step (nodes (n P)) st).
    rewrite Ex, Ev. unfold step; simpl. now rewrite !upd_same.
Qed.

Lemma initialize_mass_points_notin (P : Params T) r0 r1 (st : Store T) ij :
  in_grid (n P) ij = false ->
  let st' := initialize_mass_points P r0 r1 st in
  x st' ij = x st ij /\ v st' ij = v st ij.
Proof.
  intros Hi st'. unfold st', initialize_mass_points.
  apply (local_pass_notin
           (fun (s : Store T) (ij : node) =>
              set_v (set_x s ij _) ij (V3 (of_int 0) (of_int 0) (of_int 0)))).
  - intros s i k Hk. simpl. now rewrite !upd_other.
  - intros F. apply in_nodes in F. congruence.
Qed.
End Substep.

(** ** The drag controller of variant B *)

Section DragController.
Context {T : Type} {ST : Scalar T}.

(** C7 (amended).  The drag controller has the two states Idle and
    Dragging, read off the flag [dragging]; at most one node passes the drag
    test of [substep]; on a release the flag is reset, so the controller is
    Idle and no node passes the drag test, and the stored [picked_node] keeps
    its value (it is not cleared; a later successful pick overwrites it).
    While the button is held in Dragging only the target moves; in Idle a
    press starts a drag exactly when [pick_node] finds a node. *)
Theorem drag_controller_transitions (P : Params T) (st : Store T) :
  (forall i j, Clothes.is_dragged st i = true ->
               Clothes.is_dragged st j = true -> i = j) /\
  (let st' := Clothes.handle_mouse P (@Clothes.Released T) st in
   Clothes.controller_state st' = Clothes.Idle /\
   picked_node st' = picked_node st /\
   forall i, Clothes.is_dragged st' i = false) /\
  (forall o d,
     Clothes.controller_state st = Clothes.Dragging ->
     let st' := Clothes.handle_mouse P (Clothes.Pressed o d) st in
     Clothes.controller_state st' = Clothes.Dragging /\
     picked_node st' = picked_node st /\
     drag_pos st' = vadd o (vsmul d (dec 15 1))) /\
  (forall o d,
     Clothes.controller_state st = Clothes.Idle ->
     let st' := Clothes.handle_mouse P (Clothes.Pressed o d) st in
     match Clothes.pick_node P o d st with
     | Some p =>
         Clothes.controller_state st' = Clothes.Dragging /\
         picked_node st' = p /\
         forall i, Clothes.is_dragged st' i = true <-> i = p
     | None => st' = st
     end).
Proof.
  unfold Clothes.controller_state, Clothes.is_dragged.
  split; [|split; [|split]].
  - intros i j Hi Hj.
    apply andb_true_iff in Hi as [_ Hi], Hj as [_ Hj].
    apply node_eqb_eq in Hi, Hj. congruence.
  - simpl. repeat split.
  - intros o d H. simpl. destruct (dragging st) eqn:D; [|discriminate].
    simpl. rewrite D. repeat split.
  - intros o d H. simpl. destruct (dragging st); [discriminate|]. simpl.
    destruct (Clothes.pick_node P o d st) as [p|]; [|reflexivity].
    simpl. repeat split.
    + intros E. now apply node_eqb_eq.
    + intros ->. apply node_eqb_refl.
Qed.
End DragController.

(** * Exact real arithmetic *)

(** The operations of the [R] instance, made visible to [ring], [field]
    and [lra]. *)
Ltac to_R :=
  change (@of_int R _) with IZR in *;
  change (@sadd R _) with Rplus in *;
  change (@ssub R _) with Rminus in *;
  change (@smul R _) with Rmult in *;
  change (@sdiv R _) with Rdiv in *;
  change (@sneg R _) with Ropp in *;
  change (@ssqrt R _) with sqrt in *;
  change (@sexp R _) with exp in *;
  change (@smin R _) with Rmin in *;
  change (@sleb R _) with Rleb in *;
  change (@sltb R _) with Rltb in *.

Section Exact.
Local Open Scope R_scope.

Lemma Rleb_true (a b : R) : Rleb a b = true <-> a <= b.
Proof. unfold Rleb. destruct (Rle_dec a b); split; intros; easy. Qed.

Lemma Rltb_true (a b : R) : Rltb a b = true <-> a < b.
Proof. unfold Rltb. destruct (Rlt_dec a b); split; intros; easy. Qed.

Lemma Rltb_false (a b : R) : Rltb a b = false <-> b <= a.
Proof.
  unfold Rltb. destruct (Rlt_dec a b); split; intros; try easy; lra.
Qed.

Lemma vec3_eq (a b : vec3 R) :
  c0 a = c0 b -> c1 a = c1 b -> c2 a = c2 b -> a = b.
Proof. destruct a, b; simpl; intros; subst; reflexivity. Qed.

Lemma vec3_neq (a b : vec3 R) :
  c0 a <> c0 b \/ c1 a <> c1 b \/ c2 a <> c2 b -> a <> b.
Proof. intros H E. subst b. destruct H as [H|[H|H]]; now apply H. Qed.

Lemma norm_sqr_R (a : vec3 R) :
  norm_sqr a = c0 a * c0 a + c1 a * c1 a + c2 a * c2 a.
Proof. reflexivity. Qed.

Lemma norm_sqr_nonneg (a : vec3 R) : 0 <= norm_sqr a.
Proof. rewrite norm_sqr_R. nra. Qed.

Lemma norm_nonneg (a : vec3 R) : 0 <= norm a.
Proof. apply sqrt_pos. Qed.

Lemma norm_norm (a : vec3 R) : norm a * norm a = norm_sqr a.
Proof. apply sqrt_sqrt, norm_sqr_nonneg. Qed.

Lemma norm_pos (a : vec3 R) : a <> V3 0 0 0 -> 0 < norm a.
Proof.
  intros Ha. apply sqrt_lt_R0.
  destruct (Rle_lt_or_eq_dec _ _ (norm_sqr_nonneg a)) as [|E]; [assumption|].
  exfalso. apply Ha. rewrite norm_sqr_R in E.
  apply vec3_eq; simpl; nra.
Qed.

Lemma sqrt_le_bound (a b : R) : 0 <= b -> a <= b * b -> sqrt a <= b.
Proof.
  intros Hb Hab. rewrite <- (sqrt_square b) by assumption.
  now apply sqrt_le_1_alt.
Qed.

Lemma sqrt_ge_bound (a b : R) : 0 <= b -> b * b <= a -> b <= sqrt a.
Proof.
  intros Hb Hab. rewrite <- (sqrt_square b) at 1 by assumption.
  now apply sqrt_le_1_alt.
Qed.

Lemma dot_normalized (a : vec3 R) :
  a <> V3 0 0 0 -> dot (normalized a) (normalized a) = 1.
Proof.
  intros Ha. pose proof (norm_pos Ha) as Hn. pose proof (norm_norm a) as Hs.
  rewrite norm_sqr_R in Hs. unfold normalized.
  set (N := norm a) in *. unfold svmul, dot. simpl.
  replace (1 / N * c0 a * (1 / N * c0 a) + 1 / N * c1 a * (1 / N * c1 a) +
           1 / N * c2 a * (1 / N * c2 a))
    with ((c0 a * c0 a + c1 a * c1 a + c2 a * c2 a) / (N * N))
    by (field; lra).
  rewrite <- Hs. field. lra.
Qed.

Lemma vsub_nonzero (a b : vec3 R) : a <> b -> vsub a b <> V3 0 0 0.
Proof.
  intros Hab E. apply Hab. unfold vsub in E. inversion E.
  apply vec3_eq; simpl in *; lra.
Qed.

(** Removing [min(dot(w, u), 0) * u] from [w] leaves no component against
    a unit vector [u]. *)
Lemma projection_outward (w u : vec3 R) :
  dot u u = 1 -> 0 <= dot (vsub w (svmul (Rmin (dot w u) 0) u)) u.
Proof.
  destruct w as [w0 w1 w2], u as [u0 u1 u2].
  unfold dot, vsub, svmul. simpl. intros Hu.
  set (m := Rmin _ 0).
  assert (m <= 0) as Hm0 by apply Rmin_r.
  assert (m <= w0 * u0 + w1 * u1 + w2 * u2) as Hm by apply Rmin_l.
  replace ((w0 - m * u0) * u0 + (w1 - m * u1) * u1 + (w2 - m * u2) * u2)
    with (w0 * u0 + w1 * u1 + w2 * u2 -
          m * (u0 * u0 + u1 * u1 + u2 * u2)) by ring.
  rewrite Hu. unfold m, Rmin in *.
  destruct (Rle_dec _ 0); lra.
Qed.

(** The velocity left by the collision test has no inward component. *)
Lemma collided_outward (P : Params R) (center xi w : vec3 R) :
  norm (vsub xi center) <= ball_radius P ->
  xi <> center ->
  0 <= dot (collided P center xi w) (normalized (vsub xi center)).
Proof.
  intros Hin Hne. unfold collided.
  apply Rleb_true in Hin.
  change (sleb (norm (vsub xi center)) (ball_radius P))
    with (Rleb (norm (vsub xi center)) (ball_radius P)).
  rewrite Hin.
  apply projection_outward, dot_normalized, vsub_nonzero, Hne.
Qed.

(** Without rounding, a grid node whose position lies within the collider,
    and is not its centre, leaves the collision handling of the third pass
    of either script with a velocity that has no inward component:
    [dot(velocity, normal) >= 0] with
    [normal = normalize(position - center)]. *)
Lemma collision_projection_exact (P : Params R) (st : Store R) (i : node) :
  in_grid (n P) i = true ->
  let offset_to_center := vsub (x st i) (ball_center st 0%Z) in
  let normal := normalized offset_to_center in
  norm offset_to_center <= ball_radius P ->
  x st i <> ball_center st 0%Z ->
  0 <= dot (v (collide P st i) i) normal /\
  0 <= dot (v (PhysSim.third_pass P st) i) normal /\
  0 <= dot (v (Clothes.third_pass P st) i) normal.
Proof.
  intros Hi off normal Hin Hne. repeat split.
  - rewrite v_collide_self. now apply collided_outward.
  - destruct (physsim_third_pass_in P st i Hi) as [_ ->].
    destruct (physsim_step_self P st i) as [-> _].
    now apply collided_outward.
  - destruct (clothes_third_pass_in P st i Hi) as [_ ->].
    destruct (clothes_step_self P st i) as [-> _].
    now apply collided_outward.
Qed.
End Exact.

(** ** The initial sheet *)

Section InitialSheet.
Local Open Scope R_scope.

(** The lattice before jitter: node [(i, j)] at
    [(i * quad_size - 0.5, 0.6, j * quad_size - 0.5)]. *)
Definition lattice (P : Params R) (ij : node) : vec3 R :=
  V3 (IZR (fst ij) * quad_size P - 1 / 2) (3 / 5)
     (IZR (snd ij) * quad_size P - 1 / 2).

(** The jitter drawn by [initialize_mass_points]: one vector for all nodes. *)
Definition jitter (r0 r1 : R) : vec3 R :=
  V3 ((r0 - 1 / 2) * (1 / 10)) 0 ((r1 - 1 / 2) * (1 / 10)).

Lemma lattice_diff (P : Params R) (i j : node) :
  vsub (lattice P i) (lattice P j) =
  V3 (IZR (fst (node_sub i j)) * quad_size P) 0
     (IZR (snd (node_sub i j)) * quad_size P).
Proof.
  unfold lattice, node_sub. apply vec3_eq; simpl; rewrite ?minus_IZR; lra.
Qed.

(** Distances on the lattice: [quad_size] times the norm of the index
    difference. *)
Lemma norm_planar (q a b : R) :
  0 <= q -> norm (V3 (a * q) 0 (b * q)) = q * sqrt (a * a + b * b).
Proof.
  intros Hq. unfold norm. rewrite norm_sqr_R. simpl.
  replace (a * q * (a * q) + 0 * 0 + b * q * (b * q))
    with (q * q * (a * a + b * b)) by ring.
  rewrite sqrt_mult_alt by nra. now rewrite sqrt_square.
Qed.

Lemma initial_position (P : Params R) r0 r1 (st : Store R) ij :
  in_grid (n P) ij = true ->
  x (initialize_mass_points P r0 r1 st) ij = vadd (lattice P ij) (jitter r0 r1)
  /\ v (initialize_mass_points P r0 r1 st) ij = V3 0 0 0.
Proof.
  intros Hi. destruct (initialize_mass_points_in P r0 r1 st ij Hi) as [Ex Ev].
  split; [|exact Ev]. rewrite Ex. apply vec3_eq; simpl; lra.
Qed.

(** Without rounding, for every grid size [n >= 2] and spacing
    [quad_size >= 0], each node gets the position of the planar lattice
    (height [0.6], axis-adjacent nodes [quad_size] apart) moved by one
    jitter vector, the same for all nodes, so that the relative positions
    and the distances of the nodes are those of the lattice before jitter. *)
Lemma initialize_lattice_exact (P : Params R) (r0 r1 : R) (st : Store R) :
  (2 <= n P)%nat ->
  0 <= quad_size P ->
  let st' := initialize_mass_points P r0 r1 st in
  (length (nodes (n P)) = (n P * n P)%nat /\ NoDup (nodes (n P)) /\
   forall ij, in_grid (n P) ij = false ->
     x st' ij = x st ij /\ v st' ij = v st ij) /\
  (forall ij, in_grid (n P) ij = true ->
     v st' ij = V3 0 0 0 /\
     x st' ij = vadd (lattice P ij) (jitter r0 r1) /\
     c1 (x st' ij) = 3 / 5) /\
  (forall ij kl, in_grid (n P) ij = true -> in_grid (n P) kl = true ->
     vsub (x st' ij) (x st' kl) = vsub (lattice P ij) (lattice P kl)) /\
  (forall i j, in_grid (n P) (i, j) = true ->
     (in_grid (n P) (i + 1, j)%Z = true ->
      norm (vsub (lattice P (i + 1, j)%Z) (lattice P (i, j))) = quad_size P /\
      norm (vsub (x st' (i + 1, j)%Z) (x st' (i, j))) = quad_size P) /\
     (in_grid (n P) (i, j + 1)%Z = true ->
      norm (vsub (lattice P (i, j + 1)%Z) (lattice P (i, j))) = quad_size P /\
      norm (vsub (x st' (i, j + 1)%Z) (x st' (i, j))) = quad_size P)).
Proof.
  intros Hn Hq st'.
  assert (forall ij kl, in_grid (n P) ij = true -> in_grid (n P) kl = true ->
            vsub (x st' ij) (x st' kl) = vsub (lattice P ij) (lattice P kl))
    as Hrel.
  { intros ij kl Hij Hkl. unfold st'.
    destruct (initial_position P r0 r1 st ij Hij) as [-> _].
    destruct (initial_position P r0 r1 st kl Hkl) as [-> _].
    apply vec3_eq; simpl; lra. }
  assert (forall i j d, node_sub i j = d ->
            sqrt (IZR (fst d) * IZR (fst d) + IZR (snd d) * IZR (snd d)) = 1 ->
            norm (vsub (lattice P i) (lattice P j)) = quad_size P) as Hadj.
  { intros i j d <- Hd. rewrite lattice_diff, norm_planar, Hd by assumption.
    lra. }
  split; [|split; [|split]].
  - split; [apply length_nodes|]. split; [apply NoDup_nodes|].
    intros ij Hij. now apply initialize_mass_points_notin.
  - intros ij Hij. unfold st'.
    destruct (initial_position P r0 r1 st ij Hij) as [-> ->].
    repeat split. simpl. lra.
  - exact Hrel.
  - intros i j Hij. split; intros Hn'.
    + assert (norm (vsub (lattice P (i + 1, j)%Z) (lattice P (i, j)))
              = quad_size P) as E.
      { apply Hadj with (d := (1, 0)%Z).
        - unfold node_sub; simpl. f_equal; lia.
        - simpl. replace (1 * 1 + 0 * 0) with 1 by ring. apply sqrt_1. }
      split; [exact E|]. now rewrite Hrel.
    + assert (norm (vsub (lattice P (i, j + 1)%Z) (lattice P (i, j)))
              = quad_size P) as E.
      { apply Hadj with (d := (0, 1)%Z).
        - unfold node_sub; simpl. f_equal; lia.
        - simpl. replace (0 * 0 + 1 * 1) with 1 by ring. apply sqrt_1. }
      split; [exact E|]. now rewrite Hrel.
Qed.

(** The constants of both scripts give a positive spacing. *)
Lemma script_quad_size_pos (m : nat) :
  (1 <= m)%nat ->
  0 < quad_size (PhysSim.params_of (T:=R) m) /\
  0 < quad_size (Clothes.params_of (T:=R) m).
Proof.
  intros Hm. simpl. assert (0 < IZR (Z.of_nat m)) as H.
  { apply IZR_lt. lia. }
  split; apply Rdiv_lt_0_compat; lra.
Qed.

End InitialSheet.

(** ** The spring pass on the flat sheet *)

Section SpringOnSheet.
Local Open Scope R_scope.

Local Abbreviation PA := (PhysSim.params (T:=R)).







Lemma spring_elastic_ext (P : Params R) (s s' : Store R) i j :
  x s = x s' -> spring_elastic P s i j = spring_elastic P s' i j.
Proof. intros E. unfold spring_elastic. now rewrite E. Qed.



(** Any store of variant A with the 8 offsets, the nodes on the lattice
    and all velocities equal but for node [(0, 0)], which moves along [z]
    with relative velocity [1]: what the spring pass does at nodes [(0, 0)]
    and [(0, 1)]. *)
Section KickedSheet.
Variable G : Store R.
Hypothesis G_offsets : spring_offsets G = offsets_of true.
Hypothesis G_x : forall k, in_grid 128 k = true -> x G k = lattice PA k.
Hypothesis G_v :
  forall k, in_grid 128 k = true ->
    v G k = vadd (if node_eqb k (0, 0)%Z then V3 0 0 1 else V3 0 0 0)
              (vsmul (gravity PA) (dt PA)).




Local Abbreviation Gp := (spring_pass_over PA [(0, 0)%Z] G).



End KickedSheet.






End SpringOnSheet.

(** ** Picking *)

Section Picking.
Local Open Scope R_scope.
Variables (ray_ori ray_dir : vec3 R) (st : Store R).

Local Abbreviation dist :=
  (fun ij => Clothes.ray_dist ray_ori ray_dir (x st ij)).
Local Abbreviation tol := (2 / 100).

(** What [pick_node]'s loops have established when they have scanned the
    nodes of [l]. *)
Definition scanned (l : list node) (acc : R * option node) : Prop :=
  match snd acc with
  | None => fst acc = IZR (10 ^ 10) /\ forall q, In q l -> ~ dist q < tol
  | Some p =>
      fst acc = dist p /\ dist p < tol /\
      exists l1 l2, l = l1 ++ p :: l2 /\
        (forall q, In q l1 -> dist p < dist q) /\
        (forall q, In q l2 -> dist p <= dist q)
  end.

Lemma pick_step_cases (acc : R * option node) (a : node) :
  (dist a < tol /\ dist a < fst acc /\
   Clothes.pick_step ray_ori ray_dir st acc a = (dist a, Some a)) \/
  ((~ dist a < tol \/ fst acc <= dist a) /\
   Clothes.pick_step ray_ori ray_dir st acc a = acc).
Proof.
  unfold Clothes.pick_step. cbv zeta.
  set (d := Clothes.ray_dist ray_ori ray_dir (x st a)).
  change (@sltb R _) with Rltb. change (@dec R _ 2 2) with tol.
  destruct (Rltb d tol) eqn:E1; cbn [andb].
  - apply Rltb_true in E1.
    destruct (Rltb d (fst acc)) eqn:E2.
    + apply Rltb_true in E2. left. repeat split; assumption.
    + apply Rltb_false in E2. right. split; [now right|reflexivity].
  - apply Rltb_false in E1. right. split; [|reflexivity].
    left. lra.
Qed.

Lemma scan_invariant (l : list node) :
  scanned l (fold_left (Clothes.pick_step ray_ori ray_dir st) l
               (IZR (10 ^ 10), None)).
Proof.
  induction l as [|a l IH] using rev_ind.
  - unfold scanned. cbn [fold_left fst snd]. split; [reflexivity|]. intros q [].
  - rewrite fold_left_app. cbn [fold_left].
    set (acc := fold_left _ l _) in *.
    destruct (pick_step_cases acc a) as [[Ht [Hm ->]]|[Hno ->]].
    + unfold scanned. cbn [fst snd]. repeat split; try assumption.
      exists l, []. split; [reflexivity|]. split; [|intros q []].
      intros q Hq. unfold scanned in IH.
      destruct (snd acc) as [p|].
      * destruct IH as [Em [Hp [l1 [l2 [-> [H1 H2]]]]]].
        rewrite Em in Hm.
        apply in_app_or in Hq as [Hq|[<-|Hq]].
        -- specialize (H1 q Hq). lra.
        -- assumption.
        -- specialize (H2 q Hq). lra.
      * destruct IH as [_ Hn]. specialize (Hn q Hq). lra.
    + unfold scanned in *. destruct (snd acc) as [p|].
      * destruct IH as [Em [Hp [l1 [l2 [-> [H1 H2]]]]]].
        repeat split; try assumption.
        exists l1, (l2 ++ [a]). split; [now rewrite <- app_assoc|].
        split; [assumption|].
        intros q Hq. apply in_app_or in Hq as [Hq|[<-|[]]].
        -- now apply H2.
        -- rewrite Em in Hno. destruct Hno; lra.
      * destruct IH as [Em Hn]. split; [assumption|].
        intros q Hq. apply in_app_or in Hq as [Hq|[<-|[]]].
        -- now apply Hn.
        -- rewrite Em in Hno. destruct Hno as [Hno|Hno]; [assumption|].
           intros Hlt. assert (IZR (10 ^ 10) <= 2 / 100) as F by lra.
           simpl in F. lra.
Qed.
End Picking.

Section PickNode.
Local Open Scope R_scope.

(** For a unit direction, [ray_dist] is the distance from [pos] to the foot
    of the perpendicular on the line through [ray_ori] along [ray_dir], and
    no point of that line is closer to [pos]. *)
Lemma ray_dist_perpendicular (ray_ori ray_dir pos : vec3 R) :
  dot ray_dir ray_dir = 1 ->
  dot (vsub (vadd ray_ori (svmul (dot (vsub pos ray_ori) ray_dir) ray_dir))
         pos) ray_dir = 0 /\
  forall s,
    Clothes.ray_dist ray_ori ray_dir pos <=
    norm (vsub (vadd ray_ori (svmul s ray_dir)) pos).
Proof.
  destruct ray_ori as [o0 o1 o2], ray_dir as [d0 d1 d2], pos as [p0 p1 p2].
  unfold Clothes.ray_dist, norm, norm_sqr, dot, vsub, vadd, svmul.
  cbn [c0 c1 c2]. to_R. intros Hu.
  set (t := (p0 - o0) * d0 + (p1 - o1) * d1 + (p2 - o2) * d2).
  split.
  - replace ((o0 + t * d0 - p0) * d0 + (o1 + t * d1 - p1) * d1 +
             (o2 + t * d2 - p2) * d2)
      with (t * (d0 * d0 + d1 * d1 + d2 * d2) - t) by (unfold t; ring).
    rewrite Hu. ring.
  - intros s. apply sqrt_le_1_alt.
    replace ((o0 + s * d0 - p0) * (o0 + s * d0 - p0) +
             (o1 + s * d1 - p1) * (o1 + s * d1 - p1) +
             (o2 + s * d2 - p2) * (o2 + s * d2 - p2))
      with ((o0 + t * d0 - p0) * (o0 + t * d0 - p0) +
            (o1 + t * d1 - p1) * (o1 + t * d1 - p1) +
            (o2 + t * d2 - p2) * (o2 + t * d2 - p2) +
            (s - t) * (s - t) +
            (s * s - t * t) * (d0 * d0 + d1 * d1 + d2 * d2 - 1))
      by (unfold t; ring).
    rewrite Hu. clearbody t.
    match goal with |- ?A <= _ => generalize A; intros A' end.
    pose proof (Rle_0_sqr (s - t)) as Hsq. unfold Rsqr in Hsq. lra.
Qed.

(** Without rounding, for every store and every ray with a unit direction,
    the distance [pick_node] computes for a node is its perpendicular
    distance to the infinite line of the ray, and [pick_node] returns a grid
    node of least distance provided that distance is strictly below [0.02];
    it returns [None] when no grid node is within the tolerance; among the
    nodes of least distance it returns the first in row-major order. *)
Lemma pick_node_nearest_exact (P : Params R) (st : Store R)
  (ray_ori ray_dir : vec3 R) :
  dot ray_dir ray_dir = 1 ->
  let dist := fun ij => Clothes.ray_dist ray_ori ray_dir (x st ij) in
  (forall ij,
     let foot :=
       vadd ray_ori (svmul (dot (vsub (x st ij) ray_ori) ray_dir) ray_dir) in
     dist ij = norm (vsub foot (x st ij)) /\
     dot (vsub foot (x st ij)) ray_dir = 0 /\
     forall s,
       dist ij <= norm (vsub (vadd ray_ori (svmul s ray_dir)) (x st ij)))
  /\
  match Clothes.pick_node P ray_ori ray_dir st with
  | None => forall q, in_grid (n P) q = true -> 2 / 100 <= dist q
  | Some p =>
      in_grid (n P) p = true /\ dist p < 2 / 100 /\
      (forall q, in_grid (n P) q = true -> dist p <= dist q) /\
      exists l1 l2, nodes (n P) = l1 ++ p :: l2 /\
        forall q, In q l1 -> dist p < dist q
  end.
Proof.
  intros Hu dist. split.
  - intros ij foot. unfold dist, foot.
    destruct (@ray_dist_perpendicular ray_ori ray_dir (x st ij) Hu)
      as [Hp Hm].
    split; [reflexivity|]. split; [exact Hp|exact Hm].
  - pose proof (@scan_invariant ray_ori ray_dir st (nodes (n P))) as H.
    unfold Clothes.pick_node.
    change (@of_int R _ (10 ^ 10)) with (IZR (10 ^ 10)).
    unfold scanned in H.
    destruct (snd (fold_left _ (nodes (n P)) _)) as [p|].
    + destruct H as [_ [Hp [l1 [l2 [E [H1 H2]]]]]].
      split; [|split; [exact Hp|split]].
      * apply in_nodes. rewrite E. apply in_or_app. right. now left.
      * intros q Hq. apply in_nodes in Hq. rewrite E in Hq.
        apply in_app_or in Hq as [Hq|[<-|Hq]].
        -- apply Rlt_le. now apply H1.
        -- apply Rle_refl.
        -- now apply H2.
      * exists l1, l2. split; assumption.
    + destruct H as [_ Hn]. intros q Hq. apply in_nodes in Hq.
      specialize (Hn q Hq). fold (dist q) in Hn. lra.
Qed.
End PickNode.

(** ** Momentum *)

Section Momentum.
Local Open Scope R_scope.

(** The sum of a list of vectors. *)
Definition vsum (l : list (vec3 R)) : vec3 R :=
  fold_right vadd (V3 0 0 0) l.

Lemma vadd_comm (a b : vec3 R) : vadd a b = vadd b a.
Proof. apply vec3_eq; simpl; ring. Qed.

Lemma vadd_assoc (a b c : vec3 R) : vadd a (vadd b c) = vadd (vadd a b) c.
Proof. apply vec3_eq; simpl; ring. Qed.

Lemma vadd_zero_r (a : vec3 R) : vadd a (V3 0 0 0) = a.
Proof. apply vec3_eq; simpl; ring. Qed.

Lemma vadd_zero_l (a : vec3 R) : vadd (V3 0 0 0) a = a.
Proof. apply vec3_eq; simpl; ring. Qed.

Lemma vsum_app (l l' : list (vec3 R)) :
  vsum (l ++ l') = vadd (vsum l) (vsum l').
Proof.
  induction l as [|a l IH]; simpl.
  - now rewrite vadd_zero_l.
  - now rewrite IH, vadd_assoc.
Qed.

Lemma vsum_perm (l l' : list (vec3 R)) :
  Permutation l l' -> vsum l = vsum l'.
Proof.
  induction 1 as [|a l l' _ IH|a b l|l l' l'' _ IH1 _ IH2]; simpl.
  - reflexivity.
  - now rewrite IH.
  - now rewrite !vadd_assoc, (vadd_comm a b).
  - now rewrite IH1.
Qed.

Lemma vsum_add (A : Type) (f g : A -> vec3 R) (l : list A) :
  vsum (map (fun a => vadd (f a) (g a)) l) =
  vadd (vsum (map f l)) (vsum (map g l)).
Proof.
  induction l as [|a l IH]; simpl.
  - now rewrite vadd_zero_l.
  - rewrite IH. apply vec3_eq; simpl; ring.
Qed.

Lemma vsum_zero (A : Type) (f : A -> vec3 R) (l : list A) :
  (forall a, In a l -> f a = V3 0 0 0) -> vsum (map f l) = V3 0 0 0.
Proof.
  induction l as [|a l IH]; intros H; simpl.
  - reflexivity.
  - rewrite H by now left. rewrite IH by (intros; apply H; now right).
    apply vadd_zero_l.
Qed.

Lemma vsum_flat_map (A B : Type) (f : A -> list B) (g : B -> vec3 R)
  (l : list A) :
  vsum (map g (flat_map f l)) = vsum (map (fun a => vsum (map g (f a))) l).
Proof.
  induction l as [|a l IH]; simpl.
  - reflexivity.
  - now rewrite map_app, vsum_app, IH.
Qed.

Lemma vsum_scale (A : Type) (f : A -> vec3 R) (c : R) (l : list A) :
  vsum (map (fun a => vsmul (f a) c) l) = vsmul (vsum (map f l)) c.
Proof.
  induction l as [|a l IH]; simpl.
  - apply vec3_eq; simpl; ring.
  - rewrite IH. apply vec3_eq; simpl; ring.
Qed.

(** A sum over a list that is stable under an involution negating the
    summand vanishes. *)
Lemma vsum_antisymmetric (A : Type) (swap : A -> A) (f : A -> vec3 R)
  (l : list A) :
  Permutation (map swap l) l ->
  (forall a, In a l -> vadd (f a) (f (swap a)) = V3 0 0 0) ->
  vsum (map f l) = V3 0 0 0.
Proof.
  intros Hp Hf.
  assert (vadd (vsum (map f l)) (vsum (map f l)) = V3 0 0 0) as H.
  { rewrite <- (vsum_perm (Permutation_map f Hp)) at 2.
    rewrite map_map, <- vsum_add. now apply vsum_zero. }
  inversion H as [[H0 H1 H2]].
  apply vec3_eq; simpl; lra.
Qed.

(** The in-bounds neighbours of [i], in the order of the inner loop. *)
Definition neighbours (P : Params R) (st : Store R) (i : node) : list node :=
  filter (in_grid (n P)) (map (node_add i) (spring_offsets st)).

(** What one neighbour [j] adds to the force on [i]. *)
Definition contribution (P : Params R) (st : Store R) (i j : node) : vec3 R :=
  vadd (spring_elastic P st i j) (spring_damping P st i j).

(** The momentum of the nodes of [S] (unit masses). *)
Definition momentum (S : list node) (st : Store R) : vec3 R :=
  vsum (map (v st) S).

Lemma fold_left_vadd (A : Type) (e d : A -> vec3 R) (l : list A) :
  forall f0,
    fold_left (fun f j => vadd (vadd f (e j)) (d j)) l f0 =
    vadd f0 (vsum (map (fun j => vadd (e j) (d j)) l)).
Proof.
  induction l as [|a l IH]; intros f0; simpl.
  - now rewrite vadd_zero_r.
  - rewrite IH. apply vec3_eq; simpl; ring.
Qed.

Lemma spring_force_sum (P : Params R) (st : Store R) (i : node) :
  spring_force P st i = vsum (map (contribution P st i) (neighbours P st i)).
Proof.
  rewrite spring_force_neighbours. unfold spring_term.
  rewrite (fold_left_vadd (spring_elastic P st i) (spring_damping P st i)).
  apply vadd_zero_l.
Qed.

Lemma norm_vsub_sym (a b : vec3 R) : norm (vsub a b) = norm (vsub b a).
Proof.
  unfold norm. f_equal. rewrite !norm_sqr_R. unfold vsub. cbn [c0 c1 c2].
  to_R. ring.
Qed.

Lemma norm2_sym (i j : node) :
  norm2 (T:=R) (node_sub i j) = norm2 (node_sub j i).
Proof.
  unfold norm2, node_sub. cbn [fst snd]. to_R. f_equal.
  replace (fst j - fst i)%Z with (- (fst i - fst j))%Z by lia.
  replace (snd j - snd i)%Z with (- (snd i - snd j))%Z by lia.
  rewrite !opp_IZR. ring.
Qed.

(** The elastic forces two nodes exert on each other are opposite. *)
Lemma spring_elastic_opposite (P : Params R) (s s' : Store R) (i j : node) :
  x s = x s' ->
  vadd (spring_elastic P s i j) (spring_elastic P s' j i) = V3 0 0 0.
Proof.
  intros Ex. unfold spring_elastic. rewrite <- Ex.
  rewrite (norm2_sym j i). unfold normalized.
  rewrite (norm_vsub_sym (x s j) (x s i)).
  set (N := norm (vsub (x s i) (x s j))).
  set (L := quad_size P * norm2 (node_sub i j)).
  unfold vadd, vsmul, svmul, vsub. cbn [c0 c1 c2]. to_R.
  apply vec3_eq; cbn [c0 c1 c2]; ring.
Qed.

(** So are the damping forces, when both are computed on one store. *)
Lemma spring_damping_opposite (P : Params R) (s : Store R) (i j : node) :
  vadd (spring_damping P s i j) (spring_damping P s j i) = V3 0 0 0.
Proof.
  unfold spring_damping, normalized.
  rewrite (norm_vsub_sym (x s j) (x s i)).
  set (N := norm (vsub (x s i) (x s j))).
  unfold vadd, vsmul, svmul, vsub, dot. cbn [c0 c1 c2]. to_R.
  apply vec3_eq; cbn [c0 c1 c2]; ring.
Qed.

Lemma spring_damping_off (P : Params R) (s : Store R) (i j : node) :
  dashpot_damping P = 0 -> spring_damping P s i j = V3 0 0 0.
Proof.
  intros HD. unfold spring_damping, vsmul. rewrite HD. to_R.
  apply vec3_eq; cbn [c0 c1 c2]; ring.
Qed.

(** *** The springs of a set of nodes, as directed edges *)

Definition edges (P : Params R) (st : Store R) (S : list node)
  : list (node * node) :=
  flat_map (fun i => map (pair i) (neighbours P st i)) S.

Definition swap (e : node * node) : node * node := (snd e, fst e).

Lemma in_neighbours (P : Params R) (st : Store R) (i j : node) :
  In j (neighbours P st i) <->
  in_grid (n P) j = true /\
  exists o, In o (spring_offsets st) /\ j = node_add i o.
Proof.
  unfold neighbours. rewrite filter_In, in_map_iff. split.
  - intros [[o [E Ho]] Hg]. split; [assumption|]. exists o. now split.
  - intros [Hg [o [Ho E]]]. split; [|assumption]. exists o. now split.
Qed.

Lemma in_edges (P : Params R) (st : Store R) (S : list node) i j :
  In (i, j) (edges P st S) <-> In i S /\ In j (neighbours P st i).
Proof.
  unfold edges. rewrite in_flat_map. split.
  - intros [k [Hk Hin]]. apply in_map_iff in Hin as [j' [E Hj]].
    inversion E; subst. now split.
  - intros [Hi Hj]. exists i. split; [assumption|]. now apply in_map.
Qed.

Lemma node_add_inj (i o o' : node) : node_add i o = node_add i o' -> o = o'.
Proof.
  destruct i, o, o'. unfold node_add. simpl. intros E. inversion E.
  f_equal; lia.
Qed.

Lemma NoDup_neighbours (P : Params R) (st : Store R) (i : node) :
  NoDup (spring_offsets st) -> NoDup (neighbours P st i).
Proof.
  intros H. unfold neighbours. apply NoDup_filter.
  apply Injective_map_NoDup; [|assumption].
  intros o o'. apply node_add_inj.
Qed.

Lemma NoDup_edges (P : Params R) (st : Store R) (S : list node) :
  NoDup (spring_offsets st) -> NoDup S -> NoDup (edges P st S).
Proof.
  intros Ho HS. induction HS as [|i S Hi HS IH]; simpl.
  - constructor.
  - apply NoDup_app.
    + apply Injective_map_NoDup; [|now apply NoDup_neighbours].
      intros a b E. now inversion E.
    + exact IH.
    + intros [a b] Hin Hin'. apply in_map_iff in Hin as [j [E _]].
      inversion E; subst. apply in_edges in Hin' as [Hin' _]. contradiction.
Qed.

(** Offsets closed under negation, nodes closed under the springs: every
    edge has its reverse. *)
Lemma edges_swap (P : Params R) (st : Store R) (S : list node) :
  NoDup (spring_offsets st) ->
  (forall o, In o (spring_offsets st) -> In (node_opp o) (spring_offsets st)) ->
  NoDup S ->
  (forall i, In i S -> in_grid (n P) i = true) ->
  (forall i j, In i S -> In j (neighbours P st i) -> In j S) ->
  Permutation (map swap (edges P st S)) (edges P st S).
Proof.
  intros Ho Hsym HS Hg Hcl.
  assert (forall i j, In (i, j) (edges P st S) -> In (j, i) (edges P st S))
    as Hrev.
  { intros i j Hij. apply in_edges in Hij as [Hi Hj].
    apply in_edges. split; [now apply (Hcl i)|].
    apply in_neighbours in Hj as [_ [o [Hoo ->]]].
    apply in_neighbours. split; [now apply Hg|].
    exists (node_opp o). split; [now apply Hsym|].
    destruct i, o. unfold node_add, node_opp. simpl. f_equal; lia. }
  apply NoDup_Permutation.
  - apply Injective_map_NoDup; [|now apply NoDup_edges].
    intros [a b] [c d] E. unfold swap in E. simpl in E. now inversion E.
  - now apply NoDup_edges.
  - intros [a b]. split.
    + intros Hin. apply in_map_iff in Hin as [[c d] [E Hin]].
      unfold swap in E. simpl in E. inversion E; subst. now apply Hrev.
    + intros Hin. apply in_map_iff. exists (b, a). split; [reflexivity|].
      now apply Hrev.
Qed.

(** The elastic forces inside a closed set of nodes add up to zero. *)
Lemma elastic_forces_cancel (P : Params R) (st : Store R) (S : list node) :
  NoDup (spring_offsets st) ->
  (forall o, In o (spring_offsets st) -> In (node_opp o) (spring_offsets st)) ->
  NoDup S ->
  (forall i, In i S -> in_grid (n P) i = true) ->
  (forall i j, In i S -> In j (neighbours P st i) -> In j S) ->
  vsum (map (fun i => vsum (map (spring_elastic P st i) (neighbours P st i)))
          S) = V3 0 0 0.
Proof.
  intros Ho Hsym HS Hg Hcl.
  transitivity
    (vsum (map (fun e => spring_elastic P st (fst e) (snd e)) (edges P st S))).
  - unfold edges. rewrite vsum_flat_map. f_equal. apply map_ext.
    intros i. now rewrite map_map.
  - apply vsum_antisymmetric with (swap := swap).
    + now apply edges_swap.
    + intros [i j] _. simpl. now apply spring_elastic_opposite.
Qed.

(** *** One substep without gravity, damping and collision *)

Section FreeSheet.
Variable P : Params R.
Hypothesis no_gravity : gravity P = V3 0 0 0.
Hypothesis no_dashpot : dashpot_damping P = 0.
Hypothesis no_drag : drag_damping P = 0.

(** The sum of the elastic forces on node [i]. *)
Definition elastic_force (st : Store R) (i : node) : vec3 R :=
  vsum (map (spring_elastic P st i) (neighbours P st i)).

Lemma spring_force_undamped (st : Store R) (i : node) :
  spring_force P st i = elastic_force st i.
Proof.
  rewrite spring_force_sum. unfold elastic_force, contribution. f_equal.
  apply map_ext. intros j. rewrite spring_damping_off by assumption.
  apply vadd_zero_r.
Qed.

Lemma elastic_force_ext (s s' : Store R) (i : node) :
  x s = x s' -> spring_offsets s = spring_offsets s' ->
  elastic_force s i = elastic_force s' i.
Proof.
  intros Ex Eo. unfold elastic_force, neighbours. rewrite Eo. f_equal.
  apply map_ext. intros j. now apply spring_elastic_ext.
Qed.

Lemma gravity_pass_off (st : Store R) (k : node) :
  v (gravity_pass P st) k = v st k.
Proof.
  rewrite gravity_pass_v. destruct (in_grid (n P) k); [|reflexivity].
  rewrite no_gravity. apply vec3_eq; simpl; ring.
Qed.

(** Without dashpot damping the in-place spring pass adds to every node
    the elastic force of the positions, whatever the order. *)
Lemma spring_pass_undamped (st : Store R) (i : node) :
  in_grid (n P) i = true ->
  v (spring_pass P st) i = vadd (v st i) (vsmul (elastic_force st i) (dt P)).
Proof.
  intros Hi. apply in_nodes in Hi. unfold spring_pass.
  pose proof (NoDup_nodes (n P)) as Hnd.
  destruct (in_split _ _ Hi) as [p [q E]]. rewrite E in *.
  rewrite spring_pass_over_at by assumption.
  rewrite spring_force_undamped. f_equal. f_equal.
  apply elastic_force_ext.
  - apply spring_pass_over_x.
  - apply frame_spring_offsets, spring_pass_over_frame.
Qed.

Lemma substep_free (st : Store R) (i : node) :
  in_grid (n P) i = true ->
  ball_radius P < norm (vsub (x st i) (ball_center st 0%Z)) ->
  v (PhysSim.substep P st) i =
  vadd (v st i) (vsmul (elastic_force st i) (dt P)).
Proof.
  intros Hi Hout. unfold PhysSim.substep.
  destruct (physsim_third_pass_in P (spring_pass P (gravity_pass P st)) i Hi)
    as [_ ->].
  destruct (physsim_step_self P (spring_pass P (gravity_pass P st)) i)
    as [-> _].
  rewrite (frame_ball_center (spring_pass_frame P (gravity_pass P st))).
  rewrite (frame_ball_center (gravity_pass_frame P st)).
  replace (x (spring_pass P (gravity_pass P st))) with (x st)
    by (unfold spring_pass; now rewrite spring_pass_over_x, gravity_pass_x).
  unfold collided.
  replace (sleb (norm (vsub (x st i) (ball_center st 0%Z))) (ball_radius P))
    with false.
  2:{ symmetry. change (@sleb R _) with Rleb. unfold Rleb.
      destruct (Rle_dec _ _); [lra|reflexivity]. }
  rewrite spring_pass_undamped by assumption.
  rewrite gravity_pass_off.
  rewrite (elastic_force_ext (gravity_pass P st) st i)
    by (apply gravity_pass_x || apply frame_spring_offsets, gravity_pass_frame).
  rewrite no_drag. to_R.
  replace (- 0 * dt P) with 0 by ring. rewrite exp_0.
  apply vec3_eq; simpl; ring.
Qed.

Lemma momentum_substep (st : Store R) (S : list node) :
  NoDup (spring_offsets st) ->
  (forall o, In o (spring_offsets st) -> In (node_opp o) (spring_offsets st)) ->
  NoDup S ->
  (forall i, In i S -> in_grid (n P) i = true) ->
  (forall i j, In i S -> In j (neighbours P st i) -> In j S) ->
  (forall i, In i S ->
     ball_radius P < norm (vsub (x st i) (ball_center st 0%Z))) ->
  momentum S (PhysSim.substep P st) = momentum S st.
Proof.
  intros Ho Hsym HS Hg Hcl Hout. unfold momentum.
  rewrite (map_ext_in (v (PhysSim.substep P st))
             (fun i => vadd (v st i) (vsmul (elastic_force st i) (dt P)))).
  2:{ intros i Hi. apply substep_free; auto. }
  rewrite vsum_add, vsum_scale.
  unfold elastic_force. rewrite elastic_forces_cancel by assumption.
  apply vec3_eq; simpl; ring.
Qed.
End FreeSheet.

Lemma offsets_of_symmetric (b : bool) :
  NoDup (offsets_of b) /\
  forall o, In o (offsets_of b) -> In (node_opp o) (offsets_of b).
Proof.
  split.
  - destruct b; vm_compute; repeat constructor; simpl; intuition discriminate.
  - intros o Ho. destruct b; vm_compute in Ho;
      repeat (destruct Ho as [<-|Ho]; [vm_compute; tauto|]); destruct Ho.
Qed.

(** Without rounding: take a set [S] of grid nodes closed under the springs (for two
    nodes joined by one spring: the two nodes), offsets that come in
    opposite pairs, no gravity, no dashpot damping, no drag damping, and no
    node of [S] within the collider during the [k] substeps.  Then the
    force contributions two nodes exert on each other are opposite, whether
    both are computed on one store (with any damping) or, undamped, at
    different moments of the in-place pass on the same positions; and the
    sum of the velocities of the nodes of [S] after [k] substeps of variant A
    is the sum before. *)
Lemma spring_momentum_conserved_exact (P : Params R) (st : Store R)
  (S : list node) (k : nat) :
  gravity P = V3 0 0 0 ->
  dashpot_damping P = 0 ->
  drag_damping P = 0 ->
  NoDup (spring_offsets st) ->
  (forall o, In o (spring_offsets st) -> In (node_opp o) (spring_offsets st)) ->
  NoDup S ->
  (forall i, In i S -> in_grid (n P) i = true) ->
  (forall i j, In i S -> In j (neighbours P st i) -> In j S) ->
  (forall m i, (m < k)%nat -> In i S ->
     ball_radius P <
     norm (vsub (x (Nat.iter m (PhysSim.substep P) st) i)
             (ball_center st 0%Z))) ->
  (forall s i j,
     vadd (contribution P s i j) (contribution P s j i) = V3 0 0 0) /\
  (forall s s' i j, x s = x s' ->
     vadd (contribution P s i j) (contribution P s' j i) = V3 0 0 0) /\
  momentum S (Nat.iter k (PhysSim.substep P) st) = momentum S st.
Proof.
  intros Hg HD Hd Ho Hsym HS Hin Hcl Hout. split; [|split].
  - intros s i j. unfold contribution.
    pose proof (spring_elastic_opposite P s s i j eq_refl) as He.
    pose proof (spring_damping_opposite P s i j) as Hp.
    inversion He. inversion Hp. apply vec3_eq; simpl in *; lra.
  - intros s s' i j Ex. unfold contribution.
    rewrite !spring_damping_off, !vadd_zero_r by assumption.
    now apply spring_elastic_opposite.
  - induction k as [|k IH].
    + reflexivity.
    + rewrite Nat.iter_succ.
      set (s := Nat.iter k (PhysSim.substep P) st) in *.
      assert (frame s = frame st) as Hf
        by apply (iter_frame (PhysSim.substep P) (physsim_substep_frame P)).
      pose proof (frame_spring_offsets Hf) as Eo.
      rewrite momentum_substep; try assumption.
      * apply IH. intros m i Hm. apply Hout. lia.
      * now rewrite Eo.
      * rewrite Eo. exact Hsym.
      * intros i j Hi Hj. apply (Hcl i); [assumption|].
        unfold neighbours in *. now rewrite <- Eo.
      * intros i Hi. rewrite (frame_ball_center Hf). apply Hout; [lia|assumption].
Qed.
End Momentum.

Section TwoNodes.
Local Open Scope R_scope.
(** Two nodes joined by one spring: row 0 of a 2 x 2 grid whose only
    offsets are [(0, 1)] and [(0, -1)], without gravity and damping, the
    spring stretched to twice its rest length. *)
Definition two_node_params : Params R :=
  {| n := 2; quad_size := 1 / 2; dt := 1 / 100;
     gravity := V3 0 0 0; spring_Y := 30000;
     dashpot_damping := 0; drag_damping := 0; ball_radius := 3 / 10 |}.

Definition two_node_store : Store R :=
  {| x := fun ij => V3 (IZR (fst ij)) 1 (IZR (snd ij));
     v := fun ij => V3 0 (IZR (snd ij)) 0;
     ball_center := fun _ => V3 0 0 0;
     indices := fun _ => 0%Z;
     vertices := fun _ => V3 0 0 0;
     colors := fun _ => V3 0 0 0;
     spring_offsets := [(0, 1); (0, -1)]%Z;
     dragging := false;
     picked_node := (0, 0)%Z;
     drag_pos := V3 0 0 0 |}.

Lemma sqrt_gt_bound (a b : R) : 0 <= b -> b * b < a -> b < sqrt a.
Proof.
  intros Hb Hab. rewrite <- (sqrt_square b) at 1 by assumption.
  apply sqrt_lt_1_alt. split; [nra|assumption].
Qed.

Lemma two_nodes_outside (i : node) :
  ball_radius two_node_params <
  norm (vsub (x two_node_store i) (ball_center two_node_store 0%Z)).
Proof.
  unfold norm. apply sqrt_gt_bound; [simpl; lra|].
  rewrite norm_sqr_R. simpl. nra.
Qed.

End TwoNodes.

(** * IEEE-754 binary32: coinciding nodes *)

Section NotANumber.
Variable expf : spec_float -> spec_float.

#[local] Instance binary32 : Scalar spec_float := B32.scalar expf.

Local Abbreviation nan := S754_nan.

(** The vector of three NaNs. *)
Definition nanv : vec3 spec_float := V3 nan nan nan.

Lemma sadd_nan_r (a : spec_float) : sadd a nan = nan.
Proof. destruct a; reflexivity. Qed.

Lemma ssub_nan_r (a : spec_float) : ssub a nan = nan.
Proof. destruct a; reflexivity. Qed.

Lemma smul_nan_r (a : spec_float) : smul a nan = nan.
Proof. destruct a; reflexivity. Qed.

(** [a - a] is [+0] when [a] is finite and NaN otherwise. *)
Lemma ssub_self (a : spec_float) :
  ssub a a = S754_zero false \/ ssub a a = nan.
Proof.
  destruct a as [s|s| |s m e].
  - left. destruct s; reflexivity.
  - right. destruct s; reflexivity.
  - right. reflexivity.
  - left. simpl. unfold SFsub. rewrite Z.sub_diag. reflexivity.
Qed.

Lemma vadd_nanv_l (a : vec3 spec_float) : vadd nanv a = nanv.
Proof. reflexivity. Qed.

Lemma vadd_nanv_r (a : vec3 spec_float) : vadd a nanv = nanv.
Proof. unfold vadd, nanv. simpl c0. simpl c1. simpl c2. now rewrite !sadd_nan_r. Qed.

Lemma vsub_nanv_l (a : vec3 spec_float) : vsub nanv a = nanv.
Proof. reflexivity. Qed.

Lemma vsmul_nanv (c : spec_float) : vsmul nanv c = nanv.
Proof. reflexivity. Qed.

Lemma svmul_nanv (c : spec_float) : svmul c nanv = nanv.
Proof. unfold svmul, nanv. simpl c0. simpl c1. simpl c2. now rewrite !smul_nan_r. Qed.

(** Taichi's [normalized] of the difference of two equal vectors. *)
Lemma normalized_coincident (a : vec3 spec_float) :
  normalized (vsub a a) = nanv.
Proof.
  destruct a as [a0 a1 a2]. unfold vsub. cbn [c0 c1 c2].
  destruct (ssub_self a0) as [-> | ->], (ssub_self a1) as [-> | ->],
    (ssub_self a2) as [-> | ->]; reflexivity.
Qed.

Lemma spring_damping_coincident (P : Params spec_float)
  (st : Store spec_float) (i j : node) :
  x st i = x st j -> spring_damping P st i j = nanv.
Proof.
  intros E. unfold spring_damping. rewrite <- E, normalized_coincident.
  now rewrite svmul_nanv, !vsmul_nanv.
Qed.

Lemma spring_term_coincident (P : Params spec_float)
  (st : Store spec_float) (i j : node) (force : vec3 spec_float) :
  x st i = x st j -> spring_term P st i j force = nanv.
Proof.
  intros E. unfold spring_term. rewrite spring_damping_coincident by assumption.
  apply vadd_nanv_r.
Qed.

Lemma spring_term_nanv (P : Params spec_float) (st : Store spec_float)
  (i j : node) :
  spring_term P st i j nanv = nanv.
Proof. reflexivity. Qed.

(** Once NaN, the accumulated force stays NaN; a coinciding in-bounds
    neighbour makes it NaN. *)
Lemma spring_force_coincident (P : Params spec_float)
  (st : Store spec_float) (i o : node) :
  In o (spring_offsets st) ->
  in_grid (n P) (node_add i o) = true ->
  x st i = x st (node_add i o) ->
  spring_force P st i = nanv.
Proof.
  intros Ho Hg Ex. unfold spring_force.
  generalize (V3 (T:=spec_float) (of_int 0) (of_int 0) (of_int 0)).
  revert Ho. induction (spring_offsets st) as [|a l IH]; intros Ho f.
  - destruct Ho.
  - cbn [fold_left]. destruct Ho as [->|Ho].
    + rewrite Hg, spring_term_coincident by assumption.
      clear IH. induction l as [|b l IHl]; [reflexivity|].
      cbn [fold_left]. destruct (in_grid (n P) (node_add i b)); apply IHl.
    + now apply IH.
Qed.

Lemma collided_nanv (P : Params spec_float) (center xi : vec3 spec_float) :
  collided P center xi nanv = nanv.
Proof. unfold collided. destruct (sleb _ _); reflexivity. Qed.

(** The velocity of a node that coincides with a neighbour, after the
    in-place spring pass. *)
Lemma spring_pass_coincident (P : Params spec_float)
  (st : Store spec_float) (i o : node) :
  in_grid (n P) i = true ->
  In o (spring_offsets st) ->
  in_grid (n P) (node_add i o) = true ->
  x st i = x st (node_add i o) ->
  v (spring_pass P st) i = nanv.
Proof.
  intros Hi Ho Hg Ex. apply in_nodes in Hi. unfold spring_pass.
  pose proof (NoDup_nodes (n P)) as Hnd.
  destruct (in_split _ _ Hi) as [p [q E]]. rewrite E in *.
  rewrite spring_pass_over_at by assumption.
  rewrite (@spring_force_coincident P (spring_pass_over P p st) i o).
  - now rewrite vsmul_nanv, vadd_nanv_r.
  - now rewrite (frame_spring_offsets (spring_pass_over_frame P p st)).
  - assumption.
  - now rewrite spring_pass_over_x.
Qed.

Lemma physsim_substep_coincident (P : Params spec_float)
  (st : Store spec_float) (i o : node) :
  in_grid (n P) i = true ->
  In o (spring_offsets st) ->
  in_grid (n P) (node_add i o) = true ->
  x st i = x st (node_add i o) ->
  v (PhysSim.substep P st) i = nanv /\ x (PhysSim.substep P st) i = nanv.
Proof.
  intros Hi Ho Hg Ex. unfold PhysSim.substep.
  destruct (physsim_third_pass_in P (spring_pass P (gravity_pass P st)) i Hi)
    as [-> ->].
  destruct (physsim_step_self P (spring_pass P (gravity_pass P st)) i)
    as [-> ->].
  rewrite (@spring_pass_coincident P (gravity_pass P st) i o); try assumption.
  - rewrite vsmul_nanv, collided_nanv, svmul_nanv, vadd_nanv_r.
    split; reflexivity.
  - now rewrite (frame_spring_offsets (gravity_pass_frame P st)).
  - now rewrite gravity_pass_x.
Qed.

(** C3 (amended).  In binary32 arithmetic, with any implementation of
    [exp]: when a grid node [i] and an in-bounds neighbour of it have exactly
    coinciding positions, the scripts have no guard.  [normalized] divides
    by the zero norm, the pair's force contribution is NaN and not zero, and
    the substep, which always completes, leaves NaN in every component of the
    velocity and of the position of [i]: in variant A always, in variant B
    unless [i] is the dragged node or lies in the pinned column. *)
Theorem coincident_nodes_become_nan (P : Params spec_float)
  (st : Store spec_float) (i o : node) :
  in_grid (n P) i = true ->
  In o (spring_offsets st) ->
  in_grid (n P) (node_add i o) = true ->
  x st i = x st (node_add i o) ->
  (B32.vnan (v (PhysSim.substep P st) i) = true /\
   B32.vnan (x (PhysSim.substep P st) i) = true) /\
  (Clothes.is_dragged st i = false ->
   snd i <> (Z.of_nat (n P) - 1)%Z ->
   B32.vnan (v (Clothes.substep P st) i) = true /\
   B32.vnan (x (Clothes.substep P st) i) = true).
Proof.
  intros Hi Ho Hg Ex. split.
  - destruct (physsim_substep_coincident P st i o Hi Ho Hg Ex) as [-> ->].
    split; reflexivity.
  - intros Hd Hp. unfold Clothes.substep.
    destruct (@pin_pass_elsewhere _ _ P
                (Clothes.third_pass P (spring_pass P (gravity_pass P st))) i Hp)
      as [-> ->].
    destruct (clothes_third_pass_in P (spring_pass P (gravity_pass P st)) i Hi)
      as [-> ->].
    destruct (clothes_step_self P (spring_pass P (gravity_pass P st)) i)
      as [-> ->].
    unfold dragged, Clothes.is_dragged in *.
    destruct (frame_drag (spring_pass_frame P (gravity_pass P st)))
      as [-> [-> _]].
    destruct (frame_drag (gravity_pass_frame P st)) as [-> [-> _]].
    rewrite Hd.
    rewrite (@spring_pass_coincident P (gravity_pass P st) i o); try assumption.
    + rewrite vsmul_nanv, collided_nanv, svmul_nanv, vadd_nanv_r.
      split; reflexivity.
    + now rewrite (frame_spring_offsets (gravity_pass_frame P st)).
    + now rewrite gravity_pass_x.
Qed.
End NotANumber.

Section Collapsed.
#[local] Instance b32 : Scalar spec_float := binary32 B32.exp_taylor.

(** The sheet of variant A as initialized (both random draws [0.5]), with
    node [(0, 1)] moved onto node [(0, 0)]. *)
Definition collapsed_pair : Store spec_float :=
  let st := PhysSim.startup PhysSim.params (dec 5 1) (dec 5 1) in
  set_x st (0, 1)%Z (x st (0, 0)%Z).

Lemma collapsed_pair_coincide :
  x collapsed_pair (0, 0)%Z = x collapsed_pair (node_add (0, 0) (0, 1))%Z.
Proof.
  unfold collapsed_pair. cbv zeta. rewrite x_set_x. unfold upd.
  cbn [node_add node_eqb fst snd Z.add Z.eqb andb]. reflexivity.
Qed.

Lemma collapsed_pair_offsets :
  In (0, 1)%Z (spring_offsets collapsed_pair).
Proof.
  unfold collapsed_pair, PhysSim.startup. cbv zeta.
  rewrite spring_offsets_set_x.
  rewrite (frame_spring_offsets (initialize_mass_points_frame _ _ _ _)).
  rewrite spring_offsets_set_spring_offsets.
  vm_compute. tauto.
Qed.

(** The two nodes are at [(-0.5, 0.6, -0.5)] (in binary32), at rest. *)
Lemma collapsed_pair_input :
  x collapsed_pair (0, 0)%Z =
    V3 (S754_finite true 8388608 (-24)) (S754_finite false 10066330 (-24))
       (S754_finite true 8388608 (-24)) /\
  v collapsed_pair (0, 0)%Z =
    V3 (S754_zero false) (S754_zero false) (S754_zero false).
Proof.
  unfold collapsed_pair. cbv zeta. rewrite x_set_x, v_set_x.
  unfold upd. cbn [node_eqb fst snd Z.eqb andb].
  unfold PhysSim.startup.
  destruct (@initialize_mass_points_in _ _ PhysSim.params (dec 5 1) (dec 5 1)
              (set_spring_offsets (initialize_mesh_indices PhysSim.params blank)
                 (offsets_of PhysSim.bending_springs)) (0, 0)%Z eq_refl)
    as [-> ->].
  split; vm_compute; reflexivity.
Qed.

(** C3 (counterexample).  On the sheet [collapsed_pair], where nodes
    [(0, 0)] and [(0, 1)] coincide at the finite position
    [(-0.5, 0.6, -0.5)], one substep of variant A leaves NaN in all
    components of the velocity and of the position of node [(0, 0)]. *)
Lemma coincident_nodes_give_nan :
  x collapsed_pair (0, 1)%Z = x collapsed_pair (0, 0)%Z /\
  x collapsed_pair (0, 0)%Z =
    V3 (S754_finite true 8388608 (-24)) (S754_finite false 10066330 (-24))
       (S754_finite true 8388608 (-24)) /\
  B32.vnan (v (PhysSim.substep PhysSim.params collapsed_pair) (0, 0)%Z) = true
  /\
  B32.vnan (x (PhysSim.substep PhysSim.params collapsed_pair) (0, 0)%Z) = true.
Proof.
  split.
  { unfold collapsed_pair. cbv zeta. rewrite x_set_x. unfold upd.
    cbn [node_eqb fst snd Z.eqb andb]. reflexivity. }
  split; [exact (proj1 collapsed_pair_input)|].
  destruct (@physsim_substep_coincident B32.exp_taylor PhysSim.params
              collapsed_pair (0, 0)%Z (0, 1)%Z) as [Hv Hx].
  - reflexivity.
  - exact collapsed_pair_offsets.
  - reflexivity.
  - exact collapsed_pair_coincide.
  - unfold b32 in *. rewrite Hv, Hx. split; reflexivity.
Qed.

Lemma coincident_nodes_become_nan_witness :
  in_grid (n (PhysSim.params (T:=spec_float))) (0, 0)%Z = true /\
  In (0, 1)%Z (spring_offsets collapsed_pair) /\
  in_grid (n (PhysSim.params (T:=spec_float))) (node_add (0, 0) (0, 1))%Z
    = true /\
  x collapsed_pair (0, 0)%Z = x collapsed_pair (node_add (0, 0) (0, 1))%Z /\
  B32.vnan (v (PhysSim.substep PhysSim.params collapsed_pair) (0, 0)%Z) = true.
Proof.
  assert (in_grid (n (PhysSim.params (T:=spec_float))) (0, 0)%Z = true) as H1
    by reflexivity.
  assert (in_grid (n (PhysSim.params (T:=spec_float)))
            (node_add (0, 0) (0, 1))%Z = true) as H3 by reflexivity.
  pose proof collapsed_pair_offsets as H2.
  pose proof collapsed_pair_coincide as H4.
  split; [exact H1|]. split; [exact H2|]. split; [exact H3|].
  split; [exact H4|].
  exact (proj1 (proj1 (@coincident_nodes_become_nan B32.exp_taylor
                         PhysSim.params collapsed_pair (0, 0)%Z (0, 1)%Z
                         H1 H2 H3 H4))).
Defined.
End Collapsed.

(** ** Worked inputs *)

Section WorkedInputs.
Local Open Scope R_scope.

(** A node of variant B held one fifth above the centre of the ball, picked
    and dragged towards the centre. *)
Definition dragged_inside : Store R :=
  set_dragging (set_x blank (0, 0)%Z (V3 0 (1 / 5) 0)) true.

Lemma norm_on_y (a : R) : 0 <= a -> norm (V3 0 a 0) = a.
Proof.
  intros Ha. unfold norm. rewrite norm_sqr_R. simpl.
  replace (0 * 0 + a * a + 0 * 0) with (a * a) by ring.
  now apply sqrt_square.
Qed.

Lemma dragged_inside_offset :
  vsub (x dragged_inside (0, 0)%Z) (ball_center dragged_inside 0%Z)
  = V3 0 (1 / 5) 0.
Proof. apply vec3_eq; simpl; lra. Qed.

Lemma third_pass_order_witness :
  in_grid (n (Clothes.params (T:=R))) (0, 0)%Z = true /\
  v (Clothes.third_pass Clothes.params dragged_inside) (0, 0)%Z =
  collided Clothes.params (ball_center dragged_inside 0%Z)
    (x dragged_inside (0, 0)%Z)
    (vsmul (vsdiv (vsub (drag_pos dragged_inside)
                     (x dragged_inside (0, 0)%Z))
              (dt Clothes.params)) (dec 5 1)).
Proof.
  assert (in_grid (n (Clothes.params (T:=R))) (0, 0)%Z = true) as H1
    by reflexivity.
  split; [exact H1|].
  exact (proj1 (third_pass_order Clothes.params dragged_inside (0, 0)%Z H1)).
Defined.

(** C2 (counterexample).  The dragged node of [dragged_inside] lies within
    the ball.  The override gives it the velocity [(0, -640, 0)], which is
    what the specification's [else] reading returns; the script then applies
    the collision test to it all the same and returns [(0, 0, 0)]. *)
Lemma collision_applies_to_dragged_node :
  fst (third_pass_node_spec Clothes.params dragged_inside (0, 0)%Z)
    = V3 0 (-640) 0 /\
  v (Clothes.third_pass Clothes.params dragged_inside) (0, 0)%Z = V3 0 0 0 /\
  v (Clothes.third_pass Clothes.params dragged_inside) (0, 0)%Z <>
  fst (third_pass_node_spec Clothes.params dragged_inside (0, 0)%Z).
Proof.
  assert (fst (third_pass_node_spec Clothes.params dragged_inside (0, 0)%Z)
          = V3 0 (-640) 0) as Hs.
  { apply vec3_eq; simpl; field. }
  assert (v (Clothes.third_pass Clothes.params dragged_inside) (0, 0)%Z
          = V3 0 0 0) as Hc.
  { destruct (clothes_third_pass_in Clothes.params dragged_inside (0, 0)%Z)
      as [_ ->]; [reflexivity|].
    destruct (clothes_step_self Clothes.params dragged_inside (0, 0)%Z)
      as [-> _].
    unfold collided. rewrite dragged_inside_offset, norm_on_y by lra.
    replace (sleb (1 / 5) (ball_radius Clothes.params)) with true
      by (symmetry; apply Rleb_true; simpl; lra).
    unfold normalized. rewrite norm_on_y by lra.
    assert (dragged Clothes.params dragged_inside (0, 0)%Z = V3 0 (-640) 0)
      as ->.
    { apply vec3_eq; simpl; field. }
    unfold dot, svmul, vsub. simpl.
    replace (0 * (1 / (1 / 5) * 0) + -640 * (1 / (1 / 5) * (1 / 5)) +
             0 * (1 / (1 / 5) * 0)) with (-640) by field.
    rewrite Rmin_left by lra.
    apply vec3_eq; simpl; field. }
  split; [exact Hs|]. split; [exact Hc|].
  rewrite Hs, Hc. apply vec3_neq. right. left. simpl. lra.
Qed.

Lemma pinned_column_witness :
  (0 <= 0 < Z.of_nat (n (Clothes.params (T:=R))))%Z /\
  v (Clothes.substep Clothes.params dragged_inside)
    (0, Z.of_nat (n (Clothes.params (T:=R))) - 1)%Z = V3 0 0 0 /\
  x (Clothes.substep Clothes.params dragged_inside)
    (0, Z.of_nat (n (Clothes.params (T:=R))) - 1)%Z
  = V3 (0 * quad_size Clothes.params - 5 / 10) (6 / 10) (5 / 10).
Proof.
  assert (0 <= 0 < Z.of_nat (n (Clothes.params (T:=R))))%Z as H1
    by (simpl; lia).
  split; [exact H1|].
  exact (@pinned_column R _ Clothes.params dragged_inside 0%Z H1).
Defined.

(** C4 (counterexample).  Variant B started without jitter
    ([ti.random()] returning [0.5] twice): node [(0, 127)] of the pinned
    column is initialized at [z = 127/128 - 0.5] and is at [z = 0.5] after
    one substep, which is not its initial position. *)
Lemma pin_is_not_the_initial_position :
  x (Clothes.startup Clothes.params (1 / 2) (1 / 2)) (0, 127)%Z
    = V3 (-1 / 2) (3 / 5) (127 / 128 - 1 / 2) /\
  x (Clothes.substep Clothes.params
       (Clothes.startup Clothes.params (1 / 2) (1 / 2))) (0, 127)%Z
    = V3 (-1 / 2) (3 / 5) (1 / 2) /\
  x (Clothes.substep Clothes.params
       (Clothes.startup Clothes.params (1 / 2) (1 / 2))) (0, 127)%Z <>
  x (Clothes.startup Clothes.params (1 / 2) (1 / 2)) (0, 127)%Z.
Proof.
  assert (x (Clothes.startup Clothes.params (1 / 2) (1 / 2)) (0, 127)%Z
          = V3 (-1 / 2) (3 / 5) (127 / 128 - 1 / 2)) as H0.
  { unfold Clothes.startup, Clothes.initialize_spring_offsets.
    rewrite x_set_spring_offsets.
    destruct (initial_position Clothes.params (1 / 2) (1 / 2)
                (initialize_mesh_indices Clothes.params blank) (0, 127)%Z)
      as [-> _]; [reflexivity|].
    apply vec3_eq; simpl; lra. }
  assert (x (Clothes.substep Clothes.params
               (Clothes.startup Clothes.params (1 / 2) (1 / 2))) (0, 127)%Z
          = V3 (-1 / 2) (3 / 5) (1 / 2)) as H1.
  { pose proof (substep_pinned Clothes.params
                  (Clothes.startup Clothes.params (1 / 2) (1 / 2)) (i:=0%Z))
      as E.
    change (Z.of_nat (n Clothes.params) - 1)%Z with 127%Z in E.
    destruct E as [E _]; [simpl; lia|].
    rewrite E. apply vec3_eq; simpl; lra. }
  split; [exact H0|]. split; [exact H1|].
  rewrite H0, H1. apply vec3_neq. right. right. simpl. lra.
Qed.

(** C7 (counterexample).  A store of variant B in state Dragging with the
    picked index [(3, 4)]: after a release the controller is Idle and
    [picked_node] still holds [(3, 4)]; it has not been cleared. *)
Lemma release_keeps_picked_node :
  Clothes.controller_state
    (set_dragging (set_picked_node (blank (T:=R)) (3, 4)%Z) true)
    = Clothes.Dragging /\
  Clothes.controller_state
    (Clothes.handle_mouse Clothes.params (@Clothes.Released R)
       (set_dragging (set_picked_node blank (3, 4)%Z) true))
    = Clothes.Idle /\
  picked_node
    (Clothes.handle_mouse Clothes.params (@Clothes.Released R)
       (set_dragging (set_picked_node blank (3, 4)%Z) true))
    = (3, 4)%Z /\
  picked_node
    (Clothes.handle_mouse Clothes.params (@Clothes.Released R)
       (set_dragging (set_picked_node blank (3, 4)%Z) true))
    <> picked_node (blank (T:=R)).
Proof.
  unfold Clothes.controller_state. simpl.
  repeat split. discriminate.
Qed.

End WorkedInputs.

(** * Running the kernels in binary32

    The kernels are executable: on the binary32 instance a substep is
    evaluated by the kernel's own reduction.  Two small runs of variant A's
    [substep], with the script's constants replaced by small ones. *)

Section Runs.
#[local] Instance run32 : Scalar spec_float := B32.scalar B32.exp_taylor.

(** Componentwise IEEE equality (so [+0] and [-0] are equal). *)
Definition veqb (a b : vec3 spec_float) : bool :=
  SFeqb (c0 a) (c0 b) && SFeqb (c1 a) (c1 b) && SFeqb (c2 a) (c2 b).

(** A 4 x 4 sheet at rest: spacing [0.25], no gravity, no damping,
    [dt = 0.01]. *)
Definition still_params : Params spec_float :=
  {| n := 4; quad_size := dec 25 2; dt := dec 1 2;
     gravity := V3 (of_int 0) (of_int 0) (of_int 0);
     spring_Y := of_int 30000; dashpot_damping := of_int 0;
     drag_damping := of_int 0; ball_radius := dec 3 1 |}.

Definition still_sheet : Store spec_float :=
  PhysSim.startup still_params (dec 5 1) (dec 5 1).

(** A single node under gravity [(0, -9.8, 0)], [dt = 0.01]. *)
Definition drop_params : Params spec_float :=
  {| n := 1; quad_size := of_int 1; dt := dec 1 2;
     gravity := V3 (of_int 0) (dec (-98) 1) (of_int 0);
     spring_Y := of_int 30000; dashpot_damping := of_int 10000;
     drag_damping := of_int 0; ball_radius := dec 3 1 |}.

Definition drop_sheet : Store spec_float :=
  PhysSim.startup drop_params (dec 5 1) (dec 5 1).

(** On the sheet at rest every spring has its rest length: one substep leaves
    every velocity zero and every position as it was. *)
Example still_sheet_stays :
  forallb
    (fun ij =>
       veqb (v (PhysSim.substep still_params still_sheet) ij)
            (V3 (of_int 0) (of_int 0) (of_int 0)) &&
       veqb (x (PhysSim.substep still_params still_sheet) ij)
            (x still_sheet ij))
    (nodes 4) = true.
Proof. vm_compute. reflexivity. Qed.

(** The single node has no spring: after one substep its velocity is the
    binary32 value of [-0.098] along y, and it has moved by [v * dt]. *)
Example drop_sheet_falls :
  v (PhysSim.substep drop_params drop_sheet) (0, 0)%Z
  = V3 (of_int 0) (dec (-98) 3) (of_int 0) /\
  x (PhysSim.substep drop_params drop_sheet) (0, 0)%Z
  = vadd (x drop_sheet (0, 0)%Z)
         (svmul (dt drop_params)
                (v (PhysSim.substep drop_params drop_sheet) (0, 0)%Z)).
Proof. split; vm_compute; reflexivity. Qed.
End Runs.

(** * The computed values

    What the scripts compute is what the floating-point operations return.
    The properties of this part are stated for every scalar type, or on the
    binary32 and binary64 instances; the inputs on which rounding shows are
    evaluated by the kernels' own reduction. *)

(** ** Comparisons of floats *)

Section FloatOrder.








End FloatOrder.

(** ** Negation of floats *)

(** Rounding is symmetric: negating the operands of a product or swapping
    those of a difference negates the result, up to the sign of a zero. *)
Section Negation.
Variables prec emax : Z.

Local Abbreviation add := (SFadd prec emax).
Local Abbreviation sub := (SFsub prec emax).
Local Abbreviation mul := (SFmul prec emax).
















End Negation.

(** ** Picking, as numpy computes it *)

Section HostScan.
Context {T : Type} {U : Type} {SU : Scalar U}.
Variable to_host : T -> U.
Variables (ray_ori ray_dir : vec3 U) (st : Store T).

(** What the scan needs of the comparison [<] of the host arithmetic. *)
Hypothesis lt_irrefl : forall a : U, sltb a a = false.
Hypothesis lt_trans :
  forall a b c : U, sltb a b = true -> sltb b c = true -> sltb a c = true.
Hypothesis lt_below :
  forall a b c t : U,
    sltb a b = true -> sltb c b = false -> sltb c t = true -> sltb a c = true.

Local Abbreviation dist :=
  (fun ij => Clothes.ray_dist ray_ori ray_dir (vmap to_host (x st ij))).
Local Abbreviation tol := (dec 2 2 : U).
Local Abbreviation far := (of_int (10 ^ 10) : U).



Hypothesis tol_below_far : sltb tol far = true.

End HostScan.

(** When the ray is given in the field's own arithmetic, the host scan is
    the scan of [pick_node]. *)
Lemma pick_node_host_same (T : Type) (ST : Scalar T) (P : Params T)
  (ray_ori ray_dir : vec3 T) (st : Store T) :
  Clothes.pick_node_host (fun a => a) P ray_ori ray_dir st =
  Clothes.pick_node P ray_ori ray_dir st.
Proof. reflexivity. Qed.

Section PickNode64.
Variable expf : spec_float -> spec_float.
Context {T : Type}.
Variable to_host : T -> spec_float.


End PickNode64.

Section Tie.
Local Abbreviation S32 := (B32.scalar B32.exp_taylor).
Local Abbreviation S64 := (B64.scalar B64.exp_taylor).





End Tie.

(** ** The collision test, as the kernels compute it *)

Section Collision.
Context {T : Type} {ST : Scalar T}.
Local Open Scope sc_scope.

(** C6 (amended).  In the third pass of either script, a grid node whose
    computed distance to the collider's centre is at most the radius leaves
    the collision handling with the velocity
    [w - min(dot(w, normal), 0) * normal], every operation rounded, where
    [normal = normalized(position - center)] and [w] is the velocity that
    enters the test: the damped velocity in variant A, the damped or
    overridden velocity in variant B.  The velocity is not written again in
    the pass.  Rounding can leave that velocity a negative component along
    [normal], and a NaN when the squared norm of the offset underflows. *)
Theorem collision_projection (P : Params T) (st : Store T) (i : node) :
  in_grid (n P) i = true ->
  let offset_to_center := vsub (x st i) (ball_center st 0%Z) in
  let normal := normalized offset_to_center in
  let project :=
    fun w => vsub w (svmul (smin (dot w normal) (of_int 0)) normal) in
  let damped := vsmul (v st i) (sexp (- drag_damping P * dt P)) in
  let overridden :=
    if Clothes.is_dragged st i then
      vsmul (vsdiv (vsub (drag_pos st) (x st i)) (dt P)) (dec 5 1)
    else damped in
  sleb (norm offset_to_center) (ball_radius P) = true ->
  v (collide P st i) i = project (v st i) /\
  v (PhysSim.third_pass P st) i = project damped /\
  v (Clothes.third_pass P st) i = project overridden.
Proof.
  intros Hi off normal project damped overridden Hin. repeat split.
  - rewrite v_collide_self. unfold collided. fold off. now rewrite Hin.
  - destruct (physsim_third_pass_in P st i Hi) as [_ ->].
    destruct (physsim_step_self P st i) as [-> _].
    unfold collided. fold off. now rewrite Hin.
  - destruct (clothes_third_pass_in P st i Hi) as [_ ->].
    destruct (clothes_step_self P st i) as [-> _].
    unfold collided. fold off. now rewrite Hin.
Qed.
End Collision.

Section Grazing.
#[local] Existing Instance b32.
Local Open Scope sc_scope.

(** A binary32 node at [(0.1, 0.2, 0.05)], within the ball, moving with
    velocity [(-1, 0.3, 0.2)]. *)
Definition grazing : Store spec_float :=
  set_v (set_x blank (0, 0)%Z (V3 (dec 1 1) (dec 2 1) (dec 5 2))) (0, 0)%Z
    (V3 (of_int (-1)) (dec 3 1) (dec 2 1)).

(** The same node at [(1e-30, 0, 0)]. *)
Definition nearly_centred : Store spec_float :=
  set_v
    (set_x blank (0, 0)%Z
       (V3 (of_int 1 / of_int (10 ^ 30)) (of_int 0) (of_int 0)))
    (0, 0)%Z (V3 (of_int (-1)) (dec 3 1) (dec 2 1)).

(** After the collision step and after the third pass of either variant
    the velocity of the first node has a negative component along the
    normal; the second node, within the ball and not at its centre, is left
    with NaN. *)
Lemma collision_leaves_inward_component :
  let i := (0, 0)%Z in
  let normal := normalized (vsub (x grazing i) (ball_center grazing 0%Z)) in
  in_grid (n PhysSim.params) i = true /\
  sleb (norm (vsub (x grazing i) (ball_center grazing 0%Z)))
    (ball_radius PhysSim.params) = true /\
  x grazing i <> ball_center grazing 0%Z /\
  SFltb (dot (v (collide PhysSim.params grazing i) i) normal) (of_int 0)
    = true /\
  SFltb (dot (v (PhysSim.third_pass PhysSim.params grazing) i) normal)
    (of_int 0) = true /\
  SFltb (dot (v (Clothes.third_pass Clothes.params grazing) i) normal)
    (of_int 0) = true /\
  sleb (norm (vsub (x nearly_centred i) (ball_center nearly_centred 0%Z)))
    (ball_radius PhysSim.params) = true /\
  x nearly_centred i <> ball_center nearly_centred 0%Z /\
  B32.vnan (v (collide PhysSim.params nearly_centred i) i) = true.
Proof.
  intros i normal.
  split; [reflexivity|]. split; [vm_compute; reflexivity|].
  split; [vm_compute; discriminate|].
  split; [vm_compute; reflexivity|]. split.
  { destruct (physsim_third_pass_in PhysSim.params grazing i eq_refl)
      as [_ ->].
    vm_compute; reflexivity. }
  split.
  { destruct (clothes_third_pass_in Clothes.params grazing i eq_refl)
      as [_ ->].
    vm_compute; reflexivity. }
  split; [vm_compute; reflexivity|].
  split; [vm_compute; discriminate|]. vm_compute; reflexivity.
Qed.

Lemma collision_projection_witness :
  in_grid (n PhysSim.params) (0, 0)%Z = true /\
  sleb (norm (vsub (x grazing (0, 0)%Z) (ball_center grazing 0%Z)))
    (ball_radius PhysSim.params) = true /\
  v (collide PhysSim.params grazing (0, 0)%Z) (0, 0)%Z =
  V3 (S754_finite true 15818518 (-24)) (S754_finite false 13901121 (-25))
     (S754_finite false 15339169 (-26)).
Proof.
  assert (H : sleb (norm (vsub (x grazing (0, 0)%Z) (ball_center grazing 0%Z)))
                (ball_radius PhysSim.params) = true)
    by (vm_compute; reflexivity).
  split; [reflexivity|]. split; [exact H|].
  rewrite (proj1 (@collision_projection _ _ PhysSim.params grazing (0, 0)%Z
                    eq_refl H)).
  vm_compute. reflexivity.
Defined.
End Grazing.

(** ** Reciprocal springs, as the kernels compute them *)

Section Reciprocal.
Variable expf : spec_float -> spec_float.
#[local] Hint Extern 0 (Scalar spec_float) =>
  exact (B32.scalar expf) : typeclass_instances.










End Reciprocal.

Section Pair.
#[local] Existing Instance b32.




End Pair.

(** ** The initial sheet, as the kernel computes it *)

Section Lattice.
Context {T : Type} {ST : Scalar T}.
Local Open Scope sc_scope.

(** C9 (amended).  For every grid size [n], [initialize_mass_points]
    writes exactly the [n * n] nodes of the grid and no other; each of them
    gets zero velocity and the position
    [(i * quad_size - 0.5 + jitter[0], 0.6, j * quad_size - 0.5 + jitter[1])],
    every operation rounded, where the jitter
    [((r0 - 0.5) * 0.1, (r1 - 0.5) * 0.1)] is computed once, before the
    loop, from two random draws and is the same for all nodes.  So all
    nodes have the height [0.6], the nodes of a row share their first
    coordinate and the nodes of a column their third.  The jitter is added
    before the coordinate is rounded, so the differences of the positions
    are those of the lattice before jitter only up to rounding. *)
Theorem initialize_lattice (P : Params T) (r0 r1 : T) (st : Store T) :
  let st' := initialize_mass_points P r0 r1 st in
  let jitter := random_offset r0 r1 in
  (length (nodes (n P)) = (n P * n P)%nat /\ NoDup (nodes (n P)) /\
   (forall ij, In ij (nodes (n P)) <-> in_grid (n P) ij = true) /\
   forall ij, in_grid (n P) ij = false ->
     x st' ij = x st ij /\ v st' ij = v st ij) /\
  jitter = ((r0 - dec 5 1) * dec 1 1, (r1 - dec 5 1) * dec 1 1) /\
  (forall i j, in_grid (n P) (i, j) = true ->
     v st' (i, j) = V3 (of_int 0) (of_int 0) (of_int 0) /\
     x st' (i, j) =
       V3 (of_int i * quad_size P - dec 5 1 + fst jitter)
          (dec 6 1)
          (of_int j * quad_size P - dec 5 1 + snd jitter)) /\
  (forall i j j', in_grid (n P) (i, j) = true -> in_grid (n P) (i, j') = true ->
     c0 (x st' (i, j)) = c0 (x st' (i, j'))) /\
  (forall i i' j, in_grid (n P) (i, j) = true -> in_grid (n P) (i', j) = true ->
     c2 (x st' (i, j)) = c2 (x st' (i', j))) /\
  frame st' = frame st.
Proof.
  intros st' jitter.
  assert (Hat : forall i j, in_grid (n P) (i, j) = true ->
            v st' (i, j) = V3 (of_int 0) (of_int 0) (of_int 0) /\
            x st' (i, j) =
              V3 (of_int i * quad_size P - dec 5 1 + fst jitter)
                 (dec 6 1)
                 (of_int j * quad_size P - dec 5 1 + snd jitter)).
  { intros i j Hij.
    destruct (initialize_mass_points_in P r0 r1 st (i, j) Hij) as [Ex Ev].
    split; [exact Ev|exact Ex]. }
  split; [|split; [reflexivity|split; [exact Hat|split; [|split]]]].
  - split; [apply length_nodes|]. split; [apply NoDup_nodes|].
    split; [intros ij; apply in_nodes|].
    intros ij Hij. now apply initialize_mass_points_notin.
  - intros i j j' H H'.
    destruct (Hat i j H) as [_ ->]. destruct (Hat i j' H') as [_ ->].
    reflexivity.
  - intros i i' j H H'.
    destruct (Hat i j H) as [_ ->]. destruct (Hat i' j H') as [_ ->].
    reflexivity.
  - apply initialize_mass_points_frame.
Qed.
End Lattice.

Section Jittered.
#[local] Existing Instance b32.

(** Variant A's sheet in binary32, with the draws [0.7] and [0.3]: the
    axis-adjacent nodes [(29, 0)] and [(30, 0)] are not [quad_size] apart,
    and their relative position is not the one they have without jitter
    (draws [0.5] and [0.5]), which is [(quad_size, 0, 0)]. *)
Lemma jitter_moves_relative_positions :
  let P := PhysSim.params in
  let jittered := initialize_mass_points P (dec 7 1) (dec 3 1) blank in
  let plain := initialize_mass_points P (dec 5 1) (dec 5 1) blank in
  in_grid (n P) (29, 0)%Z = true /\ in_grid (n P) (30, 0)%Z = true /\
  random_offset (dec 5 1) (dec 5 1) = (S754_zero false, S754_zero false) /\
  vsub (x plain (30, 0)%Z) (x plain (29, 0)%Z) =
    V3 (quad_size P) (of_int 0) (of_int 0) /\
  vsub (x jittered (30, 0)%Z) (x jittered (29, 0)%Z) <>
    vsub (x plain (30, 0)%Z) (x plain (29, 0)%Z) /\
  norm (vsub (x jittered (30, 0)%Z) (x jittered (29, 0)%Z)) <> quad_size P.
Proof.
  intros P jittered plain.
  split; [reflexivity|]. split; [reflexivity|].
  split; [vm_compute; reflexivity|].
  destruct (initialize_mass_points_in P (dec 7 1) (dec 3 1) blank (29, 0)%Z
              eq_refl) as [E29 _].
  destruct (initialize_mass_points_in P (dec 7 1) (dec 3 1) blank (30, 0)%Z
              eq_refl) as [E30 _].
  destruct (initialize_mass_points_in P (dec 5 1) (dec 5 1) blank (29, 0)%Z
              eq_refl) as [F29 _].
  destruct (initialize_mass_points_in P (dec 5 1) (dec 5 1) blank (30, 0)%Z
              eq_refl) as [F30 _].
  fold jittered in E29, E30. fold plain in F29, F30.
  rewrite E29, E30, F29, F30.
  split; [vm_compute; reflexivity|].
  split; vm_compute; discriminate.
Qed.
End Jittered.

(** * Further properties of the scripts *)

(** ** The mesh and the vertex buffer *)

(** A loop over grid nodes that writes a flat field: iteration [ij] writes
    [val s ij k] to the slots [k] with [hit ij k] and to no other.  When no
    two iterations of the list hit the same slot, a slot ends with what its
    one iteration wrote, and a slot that is never hit keeps its value. *)
Section SlotWrites.
Context {T : Type} {ST : Scalar T}.
Variables (A : Type) (get : Store T -> Z -> A)
  (step : Store T -> node -> Store T)
  (hit : node -> Z -> bool) (val : Store T -> node -> Z -> A).
Hypothesis step_get :
  forall s ij k,
    get (step s ij) k = if hit ij k then val s ij k else get s k.
Hypothesis val_step :
  forall s ij ij' k, val (step s ij) ij' k = val s ij' k.

Lemma slot_writes_miss (l : list node) :
  forall s k, (forall ij, In ij l -> hit ij k = false) ->
    get (fold_left step l s) k = get s k.
Proof.
  induction l as [|a l IH]; intros s k H; [reflexivity|].
  cbn [fold_left]. rewrite IH by (intros; apply H; now right).
  rewrite step_get, H; [reflexivity|now left].
Qed.

Lemma slot_writes_hit (l : list node) :
  (forall ij ij' k, In ij l -> In ij' l ->
     hit ij k = true -> hit ij' k = true -> ij = ij') ->
  forall s ij k, In ij l -> hit ij k = true ->
    get (fold_left step l s) k = val s ij k.
Proof.
  induction l as [|a l IH]; intros Hu s ij k Hin Hh; [destruct Hin|].
  cbn [fold_left].
  destruct (existsb (fun ij' => hit ij' k) l) eqn:E.
  - apply existsb_exists in E as [ij' [Hin' Hh']].
    assert (ij' = ij) as -> by (apply (Hu ij' ij k); simpl; auto).
    rewrite (IH (fun p q r Hp Hq => Hu p q r (or_intror Hp) (or_intror Hq))
               (step s a) ij k Hin' Hh).
    apply val_step.
  - rewrite slot_writes_miss.
    + destruct Hin as [->|Hin].
      * now rewrite step_get, Hh.
      * exfalso. rewrite <- not_true_iff_false in E. apply E.
        apply existsb_exists. eauto.
    + intros ij' Hin'. destruct (hit ij' k) eqn:Hh'; [|reflexivity].
      exfalso. rewrite <- not_true_iff_false in E. apply E.
      apply existsb_exists. eauto.
Qed.
End SlotWrites.

Section Mesh.
Context {T : Type} {ST : Scalar T}.
Local Open Scope Z_scope.

(** The vertex a triangle corner refers to: corner [t] of quad [(i, j)]. *)
Definition corner (m : Z) (ij : node) (t : Z) : Z :=
  let i := fst ij in
  let j := snd ij in
  if t =? 0 then i * m + j
  else if t =? 1 then (i + 1) * m + j
  else if t =? 2 then i * m + (j + 1)
  else if t =? 3 then (i + 1) * m + (j + 1)
  else if t =? 4 then i * m + (j + 1)
  else (i + 1) * m + j.

(** The grid node of a vertex number. *)
Definition vertex_node (m : Z) (k : Z) : node := (k / m, k mod m).

(** The colour test of the second loop. *)
Definition checker (ij : node) : bool := (fst ij / 4 + snd ij / 4) mod 2 =? 0.

Lemma flat_index_inj (m i j i' j' : Z) :
  0 <= j < m -> 0 <= j' < m -> i * m + j = i' * m + j' -> i = i' /\ j = j'.
Proof. intros Hj Hj' E. assert (i = i') by nia. subst. lia. Qed.

Lemma vertex_node_flat (m i j : Z) :
  0 <= j < m -> vertex_node m (i * m + j) = (i, j).
Proof.
  intros Hj. unfold vertex_node. f_equal.
  - symmetry. apply (Z.div_unique _ _ i j); lia.
  - symmetry. apply (Z.mod_unique _ _ i j); lia.
Qed.

Lemma in_grid_iff (m : nat) (i j : Z) :
  in_grid m (i, j) = true <-> 0 <= i < Z.of_nat m /\ 0 <= j < Z.of_nat m.
Proof.
  unfold in_grid. cbn [fst snd].
  rewrite !andb_true_iff, !Z.leb_le, !Z.ltb_lt. tauto.
Qed.


(** The bodies of the two loops of [initialize_mesh_indices]. *)
Definition quad_step (m : Z) (s : Store T) (ij : node) : Store T :=
  let i := fst ij in
  let j := snd ij in
  let quad_id := i * (m - 1) + j in
  let s0 := set_indices s (quad_id * 6 + 0) (i * m + j) in
  let s1 := set_indices s0 (quad_id * 6 + 1) ((i + 1) * m + j) in
  let s2 := set_indices s1 (quad_id * 6 + 2) (i * m + (j + 1)) in
  let s3 := set_indices s2 (quad_id * 6 + 3) ((i + 1) * m + (j + 1)) in
  let s4 := set_indices s3 (quad_id * 6 + 4) (i * m + (j + 1)) in
  set_indices s4 (quad_id * 6 + 5) ((i + 1) * m + j).

Definition colour_step (m : Z) (s : Store T) (ij : node) : Store T :=
  let i := fst ij in
  let j := snd ij in
  if (i / 4 + j / 4) mod 2 =? 0 then
    set_colors s (i * m + j) (V3 (dec 22 2) (dec 72 2) (dec 52 2))
  else
    set_colors s (i * m + j) (V3 (of_int 1) (dec 334 3) (dec 52 2)).

Lemma initialize_mesh_indices_loops (P : Params T) (st : Store T) :
  initialize_mesh_indices P st =
  fold_left (colour_step (Z.of_nat (n P))) (nodes (n P))
    (fold_left (quad_step (Z.of_nat (n P))) (nodes (n P - 1)) st).
Proof. reflexivity. Qed.

Lemma quad_step_indices (m : Z) (s : Store T) (ij : node) (k : Z) :
  indices (quad_step m s ij) k =
  if k / 6 =? fst ij * (m - 1) + snd ij then corner m ij (k mod 6)
  else indices s k.
Proof.
  unfold quad_step. cbv zeta. unfold set_indices, corner. cbn [indices].
  generalize (fst ij * (m - 1) + snd ij). intros q.
  generalize (fst ij * m + snd ij) ((fst ij + 1) * m + snd ij)
    (fst ij * m + (snd ij + 1)) ((fst ij + 1) * m + (snd ij + 1)).
  intros a b c d.
  repeat match goal with
         | |- context [(?u =? ?w)] => destruct (Z.eqb_spec u w)
         end; try reflexivity; exfalso; Z.div_mod_to_equations; lia.
Qed.

Lemma colour_step_indices (m : Z) (s : Store T) (ij : node) :
  indices (colour_step m s ij) = indices s.
Proof. unfold colour_step. cbv zeta. destruct (_ =? 0); reflexivity. Qed.

Lemma quad_id_inj (m i j i' j' : Z) :
  0 <= j < m - 1 -> 0 <= j' < m - 1 ->
  i * (m - 1) + j = i' * (m - 1) + j' -> i = i' /\ j = j'.
Proof. apply flat_index_inj. Qed.

Lemma slot_quad (q t : Z) : 0 <= t < 6 -> (q * 6 + t) / 6 = q /\ (q * 6 + t) mod 6 = t.
Proof. intros Ht. Z.div_mod_to_equations. lia. Qed.


Lemma mesh_indices_at (P : Params T) (st : Store T) (k : Z) :
  let m := Z.of_nat (n P) in
  indices (initialize_mesh_indices P st) k =
  if existsb (fun ij => k / 6 =? fst ij * (m - 1) + snd ij) (nodes (n P - 1))
  then corner m (vertex_node (m - 1) (k / 6)) (k mod 6)
  else indices st k.
Proof.
  intros m. rewrite initialize_mesh_indices_loops. fold m.
  rewrite (fold_left_preserves (colour_step m) (fun s => indices s))
    by apply colour_step_indices.
  pose (hit := fun (ij : node) k => k / 6 =? fst ij * (m - 1) + snd ij).
  pose (val := fun (_ : Store T) ij k => corner m ij (k mod 6)).
  assert (Z.of_nat (n P - 1) = m - 1 \/ nodes (n P - 1) = []) as Em.
  { destruct (n P) eqn:E; [right; reflexivity|left; unfold m; lia]. }
  destruct (existsb _ _) eqn:E.
  - apply existsb_exists in E as [[i j] [Hin Hq]].
    destruct Em as [Em|Em]; [|rewrite Em in Hin; destruct Hin].
    apply Z.eqb_eq in Hq. cbn [fst snd] in Hq.
    pose proof Hin as Hg. apply in_nodes, in_grid_iff in Hg. rewrite Em in Hg.
    rewrite (@slot_writes_hit _ _ (fun s => indices s) (quad_step m) hit val)
      with (ij := (i, j)).
    + unfold val. rewrite Hq, vertex_node_flat by lia. reflexivity.
    + intros s ij k'. apply quad_step_indices.
    + reflexivity.
    + intros [a b] [a' b'] k' Ha Ha' H H'.
      apply in_nodes, in_grid_iff in Ha, Ha'. rewrite Em in Ha, Ha'.
      apply Z.eqb_eq in H, H'. cbn [fst snd] in *.
      destruct (@quad_id_inj m a b a' b') as [-> ->]; [lia|lia|lia|reflexivity].
    + assumption.
    + apply Z.eqb_eq. assumption.
  - apply (@slot_writes_miss _ _ (fun s => indices s) (quad_step m) hit val).
    + intros s ij k'. apply quad_step_indices.
    + intros ij Hin. unfold hit. destruct (_ =? _) eqn:H; [|reflexivity].
      rewrite <- not_true_iff_false in E. exfalso. apply E.
      apply existsb_exists. exists ij. auto.
Qed.

Lemma mesh_indices_corner (P : Params T) (st : Store T) (i j t : Z) :
  let m := Z.of_nat (n P) in
  0 <= i < m - 1 -> 0 <= j < m - 1 -> 0 <= t < 6 ->
  indices (initialize_mesh_indices P st) ((i * (m - 1) + j) * 6 + t) =
  corner m (i, j) t.
Proof.
  intros m Hi Hj Ht. rewrite mesh_indices_at. fold m.
  destruct (slot_quad (i * (m - 1) + j) Ht) as [-> ->].
  rewrite vertex_node_flat by lia.
  replace (existsb _ _) with true; [reflexivity|].
  symmetry. apply existsb_exists. exists (i, j). split.
  - apply in_nodes, in_grid_iff. lia.
  - cbn [fst snd]. apply Z.eqb_refl.
Qed.

(** The grid node of corner [t] of quad [(i, j)]. *)
Definition corner_node (ij : node) (t : Z) : node :=
  if t =? 0 then ij
  else if t =? 1 then node_add ij (1, 0)
  else if t =? 2 then node_add ij (0, 1)
  else if t =? 3 then node_add ij (1, 1)
  else if t =? 4 then node_add ij (0, 1)
  else node_add ij (1, 0).

Lemma corner_decodes (m i j t : Z) :
  0 <= j < m - 1 ->
  vertex_node m (corner m (i, j) t) = corner_node (i, j) t.
Proof.
  intros Hj. unfold corner, corner_node, node_add. cbn [fst snd].
  repeat match goal with
         | |- context [(?u =? ?w)] => destruct (Z.eqb_spec u w)
         end; rewrite ?Z.add_0_r; apply vertex_node_flat; lia.
Qed.

Lemma corner_node_in_grid (m : nat) (i j t : Z) :
  0 <= i < Z.of_nat m - 1 -> 0 <= j < Z.of_nat m - 1 ->
  in_grid m (corner_node (i, j) t) = true.
Proof.
  intros Hi Hj. unfold corner_node, node_add. cbn [fst snd].
  repeat match goal with
         | |- context [(?u =? ?w)] => destruct (Z.eqb_spec u w)
         end; apply in_grid_iff; lia.
Qed.

(** Twice the signed area of the triangle [a b c] in index space. *)
Definition orient (a b c : node) : Z :=
  (fst b - fst a) * (snd c - snd a) - (snd b - snd a) * (fst c - fst a).

(** X1.  [initialize_mesh_indices] ([initial_mesh_indices] in variant A),
    for a grid of side [n >= 1]: slot [quad_id * 6 + t] of quad [(i, j)]
    holds the vertex number of corner [t], whatever the loop wrote before or
    after (every slot is written by one quad only); every slot of the index
    field, of length [(n - 1) * (n - 1) * 2 * 3], holds a vertex number
    below [n * n]; and no slot outside the field is written. *)
Theorem mesh_indices_filled (P : Params T) (st : Store T) :
  (1 <= n P)%nat ->
  let m := Z.of_nat (n P) in
  let st' := initialize_mesh_indices P st in
  (forall i j t, 0 <= i < m - 1 -> 0 <= j < m - 1 -> 0 <= t < 6 ->
     indices st' ((i * (m - 1) + j) * 6 + t) = corner m (i, j) t) /\
  (forall k, 0 <= k < (m - 1) * (m - 1) * 2 * 3 ->
     0 <= indices st' k < m * m) /\
  (forall k, ~ 0 <= k < (m - 1) * (m - 1) * 2 * 3 ->
     indices st' k = indices st k).
Proof.
  intros Hn m st'.
  pose proof (mesh_indices_corner P st) as Ha. cbv zeta in Ha.
  fold m st' in Ha.
  split; [exact Ha|]. split.
  - intros k Hk.
    assert (0 <= k / 6 < (m - 1) * (m - 1)) as Hq
      by (Z.div_mod_to_equations; nia).
    assert (0 < m - 1) as Hm by nia.
    pose proof (Z.mod_pos_bound (k / 6) (m - 1) Hm) as Hj.
    pose proof (Z.mod_pos_bound k 6 ltac:(lia)) as Ht.
    assert (0 <= k / 6 / (m - 1) < m - 1) as Hi.
    { split; [apply Z.div_pos; lia|apply Z.div_lt_upper_bound; lia]. }
    assert (k = (k / 6 / (m - 1) * (m - 1) + (k / 6) mod (m - 1)) * 6 + k mod 6)
      as Ek.
    { rewrite (Z.mul_comm _ (m - 1)), <- Z.div_mod by lia.
      rewrite (Z.mul_comm _ 6), <- Z.div_mod by lia. reflexivity. }
    rewrite Ek, Ha by assumption.
    revert Hi Hj. generalize (k / 6 / (m - 1)) ((k / 6) mod (m - 1)).
    intros i j Hi Hj. unfold corner. cbn [fst snd].
    repeat match goal with
           | |- context [(?u =? ?w)] => destruct (Z.eqb_spec u w)
           end; nia.
  - intros k Hk. unfold st'. rewrite mesh_indices_at. fold m.
    destruct (existsb _ _) eqn:E; [|reflexivity].
    exfalso. apply Hk.
    apply existsb_exists in E as [[i j] [Hin Hq]].
    apply in_nodes, in_grid_iff in Hin. apply Z.eqb_eq in Hq.
    cbn [fst snd] in Hq.
    assert (0 <= i * (m - 1) + j < (m - 1) * (m - 1)) by nia.
    Z.div_mod_to_equations. nia.
Qed.

(** X2.  The two triangles of quad [(i, j)], read back from [indices]
    as grid nodes: [(i, j), (i + 1, j), (i, j + 1)] and
    [(i + 1, j + 1), (i, j + 1), (i + 1, j)].  All six corners are grid
    nodes, and both triangles have the same orientation (twice the signed
    area is [1] in index space), so the mesh is wound consistently. *)
Theorem mesh_triangles_oriented (P : Params T) (st : Store T) (i j : Z) :
  let m := Z.of_nat (n P) in
  0 <= i < m - 1 -> 0 <= j < m - 1 ->
  let a := fun t =>
    vertex_node m
      (indices (initialize_mesh_indices P st) ((i * (m - 1) + j) * 6 + t)) in
  (a 0 = (i, j) /\ a 1 = (i + 1, j) /\ a 2 = (i, j + 1)) /\
  (a 3 = (i + 1, j + 1) /\ a 4 = (i, j + 1) /\ a 5 = (i + 1, j)) /\
  (forall t, 0 <= t < 6 -> in_grid (n P) (a t) = true) /\
  orient (a 0) (a 1) (a 2) = 1 /\ orient (a 3) (a 4) (a 5) = 1.
Proof.
  intros m Hi Hj a.
  assert (forall t, 0 <= t < 6 -> a t = corner_node (i, j) t) as Ha.
  { intros t Ht. unfold a. rewrite mesh_indices_corner by assumption.
    apply corner_decodes. assumption. }
  assert (a 0 = (i, j) /\ a 1 = (i + 1, j) /\ a 2 = (i, j + 1) /\
          a 3 = (i + 1, j + 1) /\ a 4 = (i, j + 1) /\ a 5 = (i + 1, j))
    as [E0 [E1 [E2 [E3 [E4 E5]]]]].
  { rewrite !Ha by lia. unfold corner_node, node_add. cbn.
    rewrite !Z.add_0_r. repeat split; reflexivity. }
  split; [auto|]. split; [auto|]. split.
  - intros t Ht. rewrite Ha by assumption.
    apply corner_node_in_grid; assumption.
  - rewrite E0, E1, E2, E3, E4, E5. unfold orient. cbn [fst snd]. lia.
Qed.

Definition green : vec3 T := V3 (dec 22 2) (dec 72 2) (dec 52 2).
Definition pink : vec3 T := V3 (of_int 1) (dec 334 3) (dec 52 2).

Lemma colour_step_colors (m : Z) (s : Store T) (ij : node) (k : Z) :
  colors (colour_step m s ij) k =
  if k =? fst ij * m + snd ij then (if checker ij then green else pink)
  else colors s k.
Proof.
  unfold colour_step, checker. cbv zeta.
  destruct (_ mod 2 =? 0); reflexivity.
Qed.

Lemma quad_step_colors (m : Z) (s : Store T) (ij : node) :
  colors (quad_step m s ij) = colors s.
Proof. reflexivity. Qed.

Lemma checker_shift (i j : Z) :
  checker (i + 4, j) = negb (checker (i, j)) /\
  checker (i, j + 4) = negb (checker (i, j)).
Proof.
  unfold checker. cbn [fst snd].
  replace (i + 4) with (i + 1 * 4) by lia.
  replace (j + 4) with (j + 1 * 4) by lia.
  rewrite !Z.div_add by lia.
  split.
  - destruct (Z.eqb_spec ((i / 4 + 1 + j / 4) mod 2) 0),
      (Z.eqb_spec ((i / 4 + j / 4) mod 2) 0); try reflexivity;
      exfalso; Z.div_mod_to_equations; lia.
  - destruct (Z.eqb_spec ((i / 4 + (j / 4 + 1)) mod 2) 0),
      (Z.eqb_spec ((i / 4 + j / 4) mod 2) 0); try reflexivity;
      exfalso; Z.div_mod_to_equations; lia.
Qed.

(** X3.  The second loop of [initialize_mesh_indices] colours vertex
    [i * n + j] by the parity of [i // 4 + j // 4]: every vertex number
    below [n * n] gets one of the two colours, nothing outside is written,
    nodes of one 4 x 4 block share their colour, and moving by four nodes
    along either axis changes it. *)
Theorem mesh_colors_checkerboard (P : Params T) (st : Store T) :
  let m := Z.of_nat (n P) in
  let st' := initialize_mesh_indices P st in
  (forall i j, in_grid (n P) (i, j) = true ->
     colors st' (i * m + j) = if checker (i, j) then green else pink) /\
  (forall k, 0 <= k < m * m ->
     colors st' k = green \/ colors st' k = pink) /\
  (forall k, ~ 0 <= k < m * m -> colors st' k = colors st k) /\
  (forall i j i' j', i / 4 = i' / 4 -> j / 4 = j' / 4 ->
     checker (i, j) = checker (i', j')) /\
  (forall i j,
     checker (i + 4, j) = negb (checker (i, j)) /\
     checker (i, j + 4) = negb (checker (i, j))).
Proof.
  intros m st'.
  pose (hit := fun (ij : node) k => k =? fst ij * m + snd ij).
  pose (val := fun (_ : Store T) ij (_ : Z) =>
                 if checker ij then green else pink).
  assert (forall s ij k,
            colors (colour_step m s ij) k =
            if hit ij k then val s ij k else colors s k) as Hstep
    by (intros; apply colour_step_colors).
  assert (forall i j, in_grid (n P) (i, j) = true ->
            colors st' (i * m + j) = if checker (i, j) then green else pink)
    as Ha.
  { intros i j Hg. unfold st'. rewrite initialize_mesh_indices_loops. fold m.
    rewrite (@slot_writes_hit _ _ (fun s => colors s) (colour_step m) hit val
               Hstep) with (ij := (i, j)).
    - reflexivity.
    - reflexivity.
    - intros [a b] [a' b'] k Hin Hin' H H'.
      apply in_nodes, in_grid_iff in Hin, Hin'. fold m in Hin, Hin'.
      apply Z.eqb_eq in H, H'. cbn [fst snd] in *.
      destruct (@flat_index_inj m a b a' b') as [-> ->];
        [lia|lia|lia|reflexivity].
    - now apply in_nodes.
    - apply Z.eqb_refl. }
  split; [exact Ha|]. split; [|split; [|split]].
  - intros k Hk.
    assert (0 < m) as Hm by nia.
    assert (k = k / m * m + k mod m) as Ek
      by (rewrite (Z.mul_comm _ m); apply Z.div_mod; lia).
    pose proof (Z.mod_pos_bound k m Hm) as Hj.
    assert (0 <= k / m < m) as Hi.
    { split; [apply Z.div_pos; lia|apply Z.div_lt_upper_bound; lia]. }
    rewrite Ek, Ha by (apply in_grid_iff; fold m; lia).
    destruct (checker _); auto.
  - intros k Hk. unfold st'. rewrite initialize_mesh_indices_loops. fold m.
    rewrite (@slot_writes_miss _ _ (fun s => colors s) (colour_step m) hit val
               Hstep).
    + rewrite (fold_left_preserves (quad_step m) (fun s => colors s))
        by (intros; apply quad_step_colors).
      reflexivity.
    + intros [i j] Hin. apply in_nodes, in_grid_iff in Hin. fold m in Hin.
      unfold hit. cbn [fst snd]. apply Z.eqb_neq. intros ->. apply Hk. nia.
  - intros i j i' j' Ei Ej. unfold checker. cbn [fst snd].
    now rewrite Ei, Ej.
  - apply checker_shift.
Qed.

(** ** [update_vertices] *)

Definition vertex_step (m : Z) (s : Store T) (ij : node) : Store T :=
  set_vertices s (fst ij * m + snd ij) (x s ij).

Lemma update_vertices_loop (P : Params T) (st : Store T) :
  update_vertices P st =
  fold_left (vertex_step (Z.of_nat (n P))) (nodes (n P)) st.
Proof. reflexivity. Qed.

Lemma vertex_step_x (m : Z) (s : Store T) (ij : node) :
  x (vertex_step m s ij) = x s.
Proof. reflexivity. Qed.

Lemma update_vertices_rest (P : Params T) (st : Store T) :
  let st' := update_vertices P st in
  x st' = x st /\ v st' = v st /\ indices st' = indices st /\
  colors st' = colors st /\ ball_center st' = ball_center st /\
  spring_offsets st' = spring_offsets st /\ dragging st' = dragging st /\
  picked_node st' = picked_node st /\ drag_pos st' = drag_pos st.
Proof.
  cbv zeta. rewrite update_vertices_loop.
  repeat split;
    match goal with
    | |- ?f (fold_left _ _ _) = _ =>
        apply (fold_left_preserves (vertex_step (Z.of_nat (n P)))
                 (fun s => f s)); reflexivity
    end.
Qed.

Lemma update_vertices_at (P : Params T) (st : Store T) (i j : Z) :
  in_grid (n P) (i, j) = true ->
  vertices (update_vertices P st) (i * Z.of_nat (n P) + j) = x st (i, j).
Proof.
  intros Hg. rewrite update_vertices_loop. set (m := Z.of_nat (n P)).
  rewrite (@slot_writes_hit _ _ (fun s => vertices s) (vertex_step m)
             (fun (ij : node) k => k =? fst ij * m + snd ij)
             (fun s ij (_ : Z) => x s ij)) with (ij := (i, j)).
  - reflexivity.
  - reflexivity.
  - reflexivity.
  - intros [a b] [a' b'] k Hin Hin' H H'.
    apply in_nodes, in_grid_iff in Hin, Hin'. fold m in Hin, Hin'.
    apply Z.eqb_eq in H, H'. cbn [fst snd] in *.
    destruct (@flat_index_inj m a b a' b') as [-> ->];
      [lia|lia|lia|reflexivity].
  - now apply in_nodes.
  - apply Z.eqb_refl.
Qed.

(** X4.  [update_vertices] copies the sheet into the vertex buffer:
    [vertices[i * n + j]] is [x[i, j]] for every grid node, so vertex [k]
    below [n * n] is the position of node [(k // n, k % n)]; entries from
    [n * n] on, and every other field, are left as they were. *)
Theorem update_vertices_mirrors (P : Params T) (st : Store T) :
  let m := Z.of_nat (n P) in
  let st' := update_vertices P st in
  (forall i j, in_grid (n P) (i, j) = true ->
     vertices st' (i * m + j) = x st (i, j)) /\
  (forall k, 0 <= k < m * m -> vertices st' k = x st (vertex_node m k)) /\
  (forall k, ~ 0 <= k < m * m -> vertices st' k = vertices st k) /\
  x st' = x st /\ v st' = v st /\ indices st' = indices st /\
  colors st' = colors st.
Proof.
  intros m st'. split; [|split; [|split]].
  - intros i j Hg. now apply update_vertices_at.
  - intros k Hk.
    assert (0 < m) as Hm by nia.
    assert (k = k / m * m + k mod m) as Ek
      by (rewrite (Z.mul_comm _ m); apply Z.div_mod; lia).
    pose proof (Z.mod_pos_bound k m Hm) as Hj.
    assert (0 <= k / m < m) as Hi.
    { split; [apply Z.div_pos; lia|apply Z.div_lt_upper_bound; lia]. }
    unfold st'. rewrite Ek at 1.
    rewrite update_vertices_at by (apply in_grid_iff; fold m; lia).
    reflexivity.
  - intros k Hk. unfold st'. rewrite update_vertices_loop. fold m.
    apply (@slot_writes_miss _ _ (fun s => vertices s) (vertex_step m)
             (fun (ij : node) k => k =? fst ij * m + snd ij)
             (fun s ij (_ : Z) => x s ij)).
    + reflexivity.
    + intros [i j] Hin. apply in_nodes, in_grid_iff in Hin. fold m in Hin.
      cbn [fst snd]. apply Z.eqb_neq. intros ->. apply Hk. nia.
  - destruct (update_vertices_rest P st) as [H1 [H2 [H3 [H4 _]]]]. auto.
Qed.

End Mesh.

(** The turns of the two main loops, as far as the buffers handed to
    [scene.mesh] go. *)
Section MainLoops.
Context {T : Type} {ST : Scalar T}.
Local Open Scope Z_scope.

Lemma frame_indices (s s' : Store T) :
  frame s = frame s' -> indices s = indices s' /\ vertices s = vertices s'.
Proof. unfold frame. intros E. inversion E. auto. Qed.

Lemma iter_tick (P : Params T) (k : nat) (s : Store T * T) :
  fst (Nat.iter k (PhysSim.tick P) s) = Nat.iter k (PhysSim.substep P) (fst s).
Proof.
  induction k as [|k IH]; [reflexivity|].
  rewrite !Nat.iter_succ. unfold PhysSim.tick at 1. cbn [fst]. now rewrite IH.
Qed.

(** The store variant A's turn leaves. *)
Lemma physsim_main_turn_store (P : Params T) (substeps : nat) (r0 r1 : T)
  (s : Store T * T) :
  fst (PhysSim.main_turn P substeps r0 r1 s) =
  update_vertices P
    (Nat.iter substeps (PhysSim.substep P)
       (if sltb (dec 15 1) (snd s) then initialize_mass_points P r0 r1 (fst s)
        else fst s)).
Proof.
  unfold PhysSim.main_turn. cbv zeta. cbn [fst]. rewrite iter_tick.
  destruct (sltb _ _); reflexivity.
Qed.

Lemma handle_mouse_sheet (P : Params T) (m : Clothes.mouse (T:=T))
  (st : Store T) :
  let st' := Clothes.handle_mouse P m st in
  x st' = x st /\ v st' = v st /\ vertices st' = vertices st /\
  indices st' = indices st /\ colors st' = colors st /\
  spring_offsets st' = spring_offsets st /\ ball_center st' = ball_center st.
Proof.
  cbv zeta. unfold Clothes.handle_mouse.
  destruct m as [|o d].
  - repeat split; reflexivity.
  - destruct (negb (dragging st)).
    + destruct (Clothes.pick_node P o d st); repeat split; reflexivity.
    + repeat split; reflexivity.
Qed.

(** The store variant B's turn leaves, when it completes. *)
Lemma clothes_main_turn_store (inv : mat4 T -> option (mat4 T))
  (P : Params T) (substeps : nat) (camera : Clothes.Camera (T:=T))
  (input : option (T * T)) (st st' : Store T) :
  Clothes.main_turn inv P substeps camera input st = Some st' ->
  exists m,
    st' = Clothes.handle_mouse P m
            (update_vertices P (Nat.iter substeps (Clothes.substep P) st)).
Proof.
  unfold Clothes.main_turn. cbv zeta. destruct input as [mpos|].
  - destruct (Clothes.get_mouse_ray inv camera mpos _ _) as [[o d]|];
      [|discriminate].
    intros E. exists (Clothes.Pressed o d). congruence.
  - intros E. exists (@Clothes.Released T). congruence.
Qed.

Lemma drawn_corner (P : Params T) (st0 st : Store T) (i j t : Z) :
  let m := Z.of_nat (n P) in
  0 <= i < m - 1 -> 0 <= j < m - 1 -> 0 <= t < 6 ->
  indices st = indices (initialize_mesh_indices P st0) ->
  vertices (update_vertices P st)
    (indices (update_vertices P st) ((i * (m - 1) + j) * 6 + t))
  = x (update_vertices P st) (corner_node (i, j) t).
Proof.
  intros m Hi Hj Ht Hidx.
  destruct (update_vertices_rest P st) as [-> [_ [-> _]]].
  rewrite Hidx. unfold m. rewrite mesh_indices_corner by assumption. fold m.
  rewrite <- (@corner_decodes m i j t Hj).
  assert (0 <= corner m (i, j) t < m * m) as Hc.
  { unfold corner. cbn [fst snd].
    repeat match goal with
           | |- context [(?u =? ?w)] => destruct (Z.eqb_spec u w)
           end; nia. }
  revert Hc. generalize (corner m (i, j) t). intros k Hk.
  assert (0 < m) as Hm by nia.
  assert (k = k / m * m + k mod m) as Ek
    by (rewrite (Z.mul_comm _ m); apply Z.div_mod; lia).
  pose proof (Z.mod_pos_bound k m Hm) as Hj'.
  assert (0 <= k / m < m) as Hi'.
  { split; [apply Z.div_pos; lia|apply Z.div_lt_upper_bound; lia]. }
  rewrite Ek at 1. unfold m.
  rewrite update_vertices_at by (apply in_grid_iff; fold m; lia).
  reflexivity.
Qed.

(** X5.  What a turn of either main loop hands to [scene.mesh]: once
    [initialize_mesh_indices] has run, after the substeps, [update_vertices]
    and (in variant B) the mouse handling of the turn, corner [t] of quad
    [(i, j)] is drawn at the current position of the grid node
    [corner_node (i, j) t]. *)
Theorem drawn_triangles_follow_sheet (P : Params T) (st0 st : Store T)
  (substeps : nat) (i j t : Z) :
  let m := Z.of_nat (n P) in
  0 <= i < m - 1 -> 0 <= j < m - 1 -> 0 <= t < 6 ->
  indices st = indices (initialize_mesh_indices P st0) ->
  let slot := (i * (m - 1) + j) * 6 + t in
  (forall r0 r1 current_t,
     let st' := fst (PhysSim.main_turn P substeps r0 r1 (st, current_t)) in
     in_grid (n P) (corner_node (i, j) t) = true /\
     vertices st' (indices st' slot) = x st' (corner_node (i, j) t)) /\
  (forall inv camera input st',
     Clothes.main_turn inv P substeps camera input st = Some st' ->
     vertices st' (indices st' slot) = x st' (corner_node (i, j) t)).
Proof.
  intros m Hi Hj Ht Hidx slot. split.
  - intros r0 r1 current_t st'. split; [now apply corner_node_in_grid|].
    unfold st'. rewrite physsim_main_turn_store. cbn [fst snd].
    apply drawn_corner with (st0 := st0); try assumption.
    destruct (frame_indices
                (iter_frame (PhysSim.substep P) (physsim_substep_frame P)
                   substeps
                   (if sltb (dec 15 1) current_t
                    then initialize_mass_points P r0 r1 st else st)))
      as [-> _].
    destruct (sltb _ _); [|assumption].
    destruct (frame_indices (initialize_mass_points_frame P r0 r1 st))
      as [-> _].
    assumption.
  - intros inv camera input st' E.
    apply clothes_main_turn_store in E as [mo ->].
    destruct (handle_mouse_sheet P mo
                (update_vertices P (Nat.iter substeps (Clothes.substep P) st)))
      as [-> [_ [-> [-> _]]]].
    apply drawn_corner with (st0 := st0); try assumption.
    destruct (frame_indices
                (iter_frame (Clothes.substep P) (clothes_substep_frame P)
                   substeps st)) as [-> _].
    assumption.
Qed.
End MainLoops.

Section MeshRun.
#[local] Existing Instance b32.

(** The index buffer of a 3 x 3 grid, and the colour test on a 6 x 6 one. *)
Example mesh_indices_3x3 :
  map (indices (initialize_mesh_indices (PhysSim.params_of 3) blank))
    (range 24)
  = [0; 3; 1; 4; 1; 3;  1; 4; 2; 5; 2; 4;
     3; 6; 4; 7; 4; 6;  4; 7; 5; 8; 5; 7]%Z.
Proof. vm_compute. reflexivity. Qed.

Example checker_6x6 :
  map checker (nodes 6)
  = [true; true; true; true; false; false;
     true; true; true; true; false; false;
     true; true; true; true; false; false;
     true; true; true; true; false; false;
     false; false; false; false; true; true;
     false; false; false; false; true; true].
Proof. vm_compute. reflexivity. Qed.
End MeshRun.

(** ** The spring offsets *)

(** The lists [startup] leaves in [spring_offsets]. *)
Section Stencils.
Context {T : Type} {ST : Scalar T}.
Local Open Scope Z_scope.

Lemma physsim_startup_offsets (P : Params T) (r0 r1 : T) :
  spring_offsets (PhysSim.startup P r0 r1) = offsets_of true.
Proof.
  unfold PhysSim.startup.
  rewrite (frame_spring_offsets (initialize_mass_points_frame P r0 r1 _)).
  apply spring_offsets_set_spring_offsets.
Qed.

Lemma initialize_mesh_indices_offsets (P : Params T) (st : Store T) :
  spring_offsets (initialize_mesh_indices P st) = spring_offsets st.
Proof.
  unfold initialize_mesh_indices. cbv zeta.
  match goal with
  | |- spring_offsets (fold_left ?f _ _) = _ =>
      rewrite (fold_left_preserves f (fun s => spring_offsets s))
        by (intros s ij; destruct (_ =? 0); reflexivity)
  end.
  match goal with
  | |- spring_offsets (fold_left ?f _ _) = _ =>
      rewrite (fold_left_preserves f (fun s => spring_offsets s))
        by reflexivity
  end.
  reflexivity.
Qed.

Lemma clothes_startup_offsets (P : Params T) (r0 r1 : T) :
  spring_offsets (Clothes.startup P r0 r1) = offsets_of false.
Proof.
  unfold Clothes.startup, Clothes.initialize_spring_offsets.
  rewrite spring_offsets_set_spring_offsets.
  rewrite (frame_spring_offsets (initialize_mass_points_frame P r0 r1 _)).
  rewrite initialize_mesh_indices_offsets. reflexivity.
Qed.

(** X6.  The spring offsets the two scripts run with.  Variant A
    ([bending_springs = True]) has the 8 offsets [(a, b)] with
    [max(|a|, |b|) = 1]; variant B ([bending_springs = False]) has the 12
    offsets with [1 <= |a| + |b| <= 2].  Neither list has a repetition or the
    offset [(0, 0)], and B's list contains A's. *)
Theorem spring_offsets_stencils (P : Params T) (r0 r1 : T) :
  let A := spring_offsets (PhysSim.startup P r0 r1) in
  let B := spring_offsets (Clothes.startup P r0 r1) in
  (forall a b, In (a, b) A <-> Z.max (Z.abs a) (Z.abs b) = 1) /\
  (forall a b, In (a, b) B <-> 1 <= Z.abs a + Z.abs b <= 2) /\
  length A = 8%nat /\ length B = 12%nat /\ NoDup A /\ NoDup B /\
  (forall o, In o A -> In o B).
Proof.
  cbv zeta. rewrite physsim_startup_offsets, clothes_startup_offsets.
  split; [|split; [|split; [|split; [|split; [|split]]]]].
  - intros a b. split.
    + intros H. vm_compute in H.
      repeat (destruct H as [H|H]; [inversion H; reflexivity|]).
      destruct H.
    + intros H.
      assert ((a = -1 \/ a = 0 \/ a = 1) /\ (b = -1 \/ b = 0 \/ b = 1)) as [Ha Hb]
        by lia.
      destruct Ha as [-> | [-> | ->]], Hb as [-> | [-> | ->]];
        try (vm_compute in H; discriminate); vm_compute; tauto.
  - intros a b. split.
    + intros H. vm_compute in H.
      repeat (destruct H as [H|H]; [inversion H; lia|]).
      destruct H.
    + intros H.
      assert ((a = -2 \/ a = -1 \/ a = 0 \/ a = 1 \/ a = 2) /\
              (b = -2 \/ b = -1 \/ b = 0 \/ b = 1 \/ b = 2)) as [Ha Hb] by lia.
      destruct Ha as [-> | [-> | [-> | [-> | ->]]]],
        Hb as [-> | [-> | [-> | [-> | ->]]]];
        try (exfalso; lia); vm_compute; tauto.
  - reflexivity.
  - reflexivity.
  - apply offsets_of_symmetric.
  - apply offsets_of_symmetric.
  - intros o. vm_compute. intros H.
    repeat (destruct H as [H|H]; [subst o; tauto|]). destruct H.
Qed.
End Stencils.

Section AppendTwice.
Context {T : Type} {ST : Scalar T}.

(** X7.  [initialize_spring_offsets] of variant B appends to the module's
    list: called on the empty list it leaves the 12 offsets; called again it
    leaves each of them twice (24 entries), and the spring loop then runs
    over every offset twice: the force it accumulates for a node is the sum
    over the 12 offsets continued by a second pass over the same 12
    offsets. *)
Theorem initialize_spring_offsets_appends (st : Store T) :
  let st1 := Clothes.initialize_spring_offsets st in
  let st2 := Clothes.initialize_spring_offsets st1 in
  spring_offsets st = [] ->
  spring_offsets st1 = offsets_of false /\
  spring_offsets st2 = offsets_of false ++ offsets_of false /\
  length (spring_offsets st2) = 24%nat /\
  x st2 = x st /\ v st2 = v st /\
  forall P i,
    spring_force P st2 i =
    fold_left
      (fun force spring_offset =>
         let j := node_add i spring_offset in
         if in_grid (n P) j then spring_term P st i j force else force)
      (offsets_of false) (spring_force P st1 i).
Proof.
  intros st1 st2 He.
  assert (spring_offsets st1 = offsets_of false) as E1.
  { unfold st1, Clothes.initialize_spring_offsets.
    rewrite spring_offsets_set_spring_offsets, He. reflexivity. }
  assert (spring_offsets st2 = offsets_of false ++ offsets_of false) as E2.
  { unfold st2. unfold Clothes.initialize_spring_offsets at 1.
    rewrite spring_offsets_set_spring_offsets, E1. reflexivity. }
  split; [exact E1|]. split; [exact E2|]. split; [now rewrite E2|].
  split; [reflexivity|]. split; [reflexivity|].
  intros P i. unfold spring_force. rewrite E2, E1, fold_left_app.
  reflexivity.
Qed.
End AppendTwice.

(** ** The order of the nodes *)

Section OrderOfNodes.
Context {T : Type} {ST : Scalar T}.
Local Open Scope sc_scope.

(** The first and the third loop of [substep], run serially over the nodes
    in the order [ord]. *)
Definition gravity_step (P : Params T) (s : Store T) (i : node) : Store T :=
  set_v s i (vadd (v s i) (vsmul (gravity P) (dt P))).

Definition gravity_pass_over (P : Params T) (ord : list node) (st : Store T)
  : Store T :=
  fold_left (gravity_step P) ord st.

Definition physsim_third_pass_over (P : Params T) (ord : list node)
  (st : Store T) : Store T :=
  fold_left (physsim_step P) ord st.

Definition clothes_third_pass_over (P : Params T) (ord : list node)
  (st : Store T) : Store T :=
  fold_left (clothes_step P) ord st.

Lemma passes_over_nodes (P : Params T) (st : Store T) :
  gravity_pass P st = gravity_pass_over P (nodes (n P)) st /\
  PhysSim.third_pass P st = physsim_third_pass_over P (nodes (n P)) st /\
  Clothes.third_pass P st = clothes_third_pass_over P (nodes (n P)) st.
Proof. repeat split; reflexivity. Qed.

(** A loop whose iteration [i] reads and writes [x[i]] and [v[i]] only. *)
Section AnyLocalPass.
Variable step : Store T -> node -> Store T.
Hypothesis step_frame : forall s i, frame (step s i) = frame s.
Hypothesis step_other :
  forall s i k, k <> i -> x (step s i) k = x s k /\ v (step s i) k = v s k.
Hypothesis step_local :
  forall s s' i, frame s = frame s' -> x s i = x s' i -> v s i = v s' i ->
    x (step s i) i = x (step s' i) i /\ v (step s i) i = v (step s' i) i.

Lemma local_pass_any_order (l l' : list node) (s : Store T) :
  NoDup l -> Permutation l l' ->
  frame (fold_left step l' s) = frame (fold_left step l s) /\
  forall k,
    x (fold_left step l' s) k = x (fold_left step l s) k /\
    v (fold_left step l' s) k = v (fold_left step l s) k.
Proof.
  intros Hnd Hp. split.
  - now rewrite !(local_pass_frame step step_frame).
  - intros k. pose proof (Permutation_NoDup Hp Hnd) as Hnd'.
    destruct (in_dec node_eq_dec k l) as [Hin|Hout].
    + destruct (local_pass_in step step_frame step_other step_local Hnd s k Hin)
        as [-> ->].
      apply (local_pass_in step step_frame step_other step_local Hnd').
      now apply (Permutation_in k Hp).
    + destruct (local_pass_notin step step_other l s k Hout) as [-> ->].
      apply (local_pass_notin step step_other).
      intros F. apply Hout. apply (Permutation_in k (Permutation_sym Hp) F).
Qed.
End AnyLocalPass.

Lemma gravity_step_facts (P : Params T) :
  (forall s i, frame (gravity_step P s i) = frame s) /\
  (forall s i k, k <> i ->
     x (gravity_step P s i) k = x s k /\ v (gravity_step P s i) k = v s k) /\
  (forall s s' i, frame s = frame s' -> x s i = x s' i -> v s i = v s' i ->
     x (gravity_step P s i) i = x (gravity_step P s' i) i /\
     v (gravity_step P s i) i = v (gravity_step P s' i) i).
Proof.
  unfold gravity_step. split; [|split].
  - intros s i. apply frame_set_v.
  - intros s i k Hk. rewrite x_set_v, v_set_v. split; [reflexivity|].
    now apply upd_other.
  - intros s s' i _ Ex Ev. rewrite !x_set_v, !v_set_v, !upd_same, Ev.
    split; [assumption|reflexivity].
Qed.

Lemma physsim_step_local (P : Params T) (s s' : Store T) (i : node) :
  frame s = frame s' -> x s i = x s' i -> v s i = v s' i ->
  x (physsim_step P s i) i = x (physsim_step P s' i) i /\
  v (physsim_step P s i) i = v (physsim_step P s' i) i.
Proof.
  intros Ef Ex Ev.
  destruct (physsim_step_self P s i) as [-> ->].
  destruct (physsim_step_self P s' i) as [-> ->].
  apply frame_ball_center in Ef. rewrite Ef, Ex, Ev. split; reflexivity.
Qed.

Lemma clothes_step_local (P : Params T) (s s' : Store T) (i : node) :
  frame s = frame s' -> x s i = x s' i -> v s i = v s' i ->
  x (clothes_step P s i) i = x (clothes_step P s' i) i /\
  v (clothes_step P s i) i = v (clothes_step P s' i) i.
Proof.
  intros Ef Ex Ev.
  destruct (clothes_step_self P s i) as [-> ->].
  destruct (clothes_step_self P s' i) as [-> ->].
  unfold dragged, Clothes.is_dragged.
  destruct (frame_drag Ef) as [-> [-> ->]].
  apply frame_ball_center in Ef. rewrite Ef, Ex, Ev. split; reflexivity.
Qed.

(** X8.  The first loop of [substep] (gravity) and the third loop (damping,
    drag override, collision, integration), in both variants, leave the same
    store in whatever order the grid nodes are visited: each iteration reads
    and writes its own node only.  (The second loop, the springs, does
    depend on the order.) *)
Theorem local_passes_any_order (P : Params T) (st : Store T)
  (ord : list node) :
  Permutation (nodes (n P)) ord ->
  (frame (gravity_pass_over P ord st) = frame (gravity_pass P st) /\
   forall k,
     x (gravity_pass_over P ord st) k = x (gravity_pass P st) k /\
     v (gravity_pass_over P ord st) k = v (gravity_pass P st) k) /\
  (frame (physsim_third_pass_over P ord st) = frame (PhysSim.third_pass P st)
   /\
   forall k,
     x (physsim_third_pass_over P ord st) k = x (PhysSim.third_pass P st) k /\
     v (physsim_third_pass_over P ord st) k = v (PhysSim.third_pass P st) k) /\
  (frame (clothes_third_pass_over P ord st) = frame (Clothes.third_pass P st)
   /\
   forall k,
     x (clothes_third_pass_over P ord st) k = x (Clothes.third_pass P st) k /\
     v (clothes_third_pass_over P ord st) k = v (Clothes.third_pass P st) k).
Proof.
  intros Hp. pose proof (NoDup_nodes (n P)) as Hnd.
  destruct (gravity_step_facts P) as [G1 [G2 G3]].
  split; [|split].
  - apply (local_pass_any_order (gravity_step P) G1 G2 G3 st Hnd Hp).
  - apply (local_pass_any_order (physsim_step P) (physsim_step_frame P)
             (fun s i k => @physsim_step_other _ _ P s i k)
             (physsim_step_local P) st Hnd Hp).
  - apply (local_pass_any_order (clothes_step P) (clothes_step_frame P)
             (fun s i k => @clothes_step_other _ _ P s i k)
             (clothes_step_local P) st Hnd Hp).
Qed.
End OrderOfNodes.

(** ** Field bounds *)

Section InBounds.
Context {T : Type} {ST : Scalar T}.
Local Open Scope sc_scope.

(** Two stores hold the same values at the indices of the fields [x] and
    [v]. *)
Definition agree_on_grid (m : nat) (s s' : Store T) : Prop :=
  forall k, in_grid m k = true -> x s k = x s' k /\ v s k = v s' k.

Lemma spring_force_on_grid (P : Params T) (s s' : Store T) (i : node) :
  spring_offsets s = spring_offsets s' ->
  agree_on_grid (n P) s s' ->
  in_grid (n P) i = true ->
  spring_force P s i = spring_force P s' i.
Proof.
  intros Eo Ha Hi. unfold spring_force. rewrite <- Eo. clear Eo.
  generalize (V3 (T:=T) (of_int 0) (of_int 0) (of_int 0)).
  induction (spring_offsets s) as [|o l IH]; intros f; [reflexivity|].
  cbn [fold_left]. rewrite IH.
  destruct (in_grid (n P) (node_add i o)) eqn:Hj; [|reflexivity].
  unfold spring_term, spring_elastic, spring_damping.
  destruct (Ha i Hi) as [-> ->]. destruct (Ha _ Hj) as [-> ->]. reflexivity.
Qed.

Lemma spring_pass_over_on_grid (P : Params T) (l : list node) :
  forall s s',
    (forall i, In i l -> in_grid (n P) i = true) ->
    spring_offsets s = spring_offsets s' ->
    agree_on_grid (n P) s s' ->
    agree_on_grid (n P) (spring_pass_over P l s) (spring_pass_over P l s').
Proof.
  induction l as [|a l IH]; intros s s' Hl Eo Ha; [exact Ha|].
  unfold spring_pass_over. cbn [fold_left]. apply IH.
  - intros i Hi. apply Hl. now right.
  - now rewrite !spring_offsets_set_v.
  - intros k Hk. rewrite !x_set_v, !v_set_v. destruct (Ha k Hk) as [Ex Ev].
    split; [assumption|]. unfold upd. destruct (node_eqb k a); [|assumption].
    assert (in_grid (n P) a = true) as Hga by (apply Hl; now left).
    rewrite (spring_force_on_grid P a Eo Ha Hga).
    destruct (Ha a Hga) as [_ ->]. reflexivity.
Qed.

Lemma physsim_third_pass_notin (P : Params T) (st : Store T) k :
  in_grid (n P) k = false ->
  x (PhysSim.third_pass P st) k = x st k /\
  v (PhysSim.third_pass P st) k = v st k.
Proof.
  intros Hk. apply (local_pass_notin (physsim_step P)).
  - intros s j k'. apply physsim_step_other.
  - intros F. apply in_nodes in F. congruence.
Qed.

Lemma pin_pass_notin (P : Params T) (st : Store T) (k : node) :
  in_grid (n P) k = false ->
  x (Clothes.pin_pass P st) k = x st k /\ v (Clothes.pin_pass P st) k = v st k.
Proof.
  intros Hk. unfold Clothes.pin_pass.
  assert (forall a, In a (range (n P)) -> (0 <= a < Z.of_nat (n P))%Z) as Hr
    by (intros a; apply in_range).
  revert st Hr. induction (range (n P)) as [|a l IH]; intros st Hr;
    cbn [fold_left].
  - split; reflexivity.
  - destruct (IH (set_v (set_x st (a, (Z.of_nat (n P) - 1)%Z)
                           (Clothes.pin_position P a))
                    (a, (Z.of_nat (n P) - 1)%Z)
                    (V3 (of_int 0) (of_int 0) (of_int 0)))) as [-> ->].
    + intros b Hb. apply Hr. now right.
    + assert (k <> (a, (Z.of_nat (n P) - 1)%Z)) as Hne.
      { intros ->. specialize (Hr a (or_introl eq_refl)).
        unfold in_grid in Hk. cbn [fst snd] in Hk.
        rewrite !andb_false_iff, !Z.leb_gt, !Z.ltb_ge in Hk. lia. }
      rewrite x_set_v, v_set_v, x_set_x, v_set_x, !upd_other by assumption.
      split; reflexivity.
Qed.

Lemma agree_after_substeps (P : Params T) (s s' : Store T) :
  frame s = frame s' ->
  agree_on_grid (n P) s s' ->
  agree_on_grid (n P) (spring_pass P (gravity_pass P s))
    (spring_pass P (gravity_pass P s')).
Proof.
  intros Ef Ha. apply spring_pass_over_on_grid.
  - intros i Hi. now apply in_nodes.
  - rewrite (frame_spring_offsets (gravity_pass_frame P s)).
    rewrite (frame_spring_offsets (gravity_pass_frame P s')).
    now apply frame_spring_offsets.
  - intros k Hk. rewrite !gravity_pass_x, !gravity_pass_v, Hk.
    destruct (Ha k Hk) as [-> ->]. split; reflexivity.
Qed.

(** X9.  [substep] stays within the [n x n] fields, in both variants: what
    it leaves at the grid nodes depends only on the values [x] and [v] hold
    at grid nodes (two stores that agree there, and on the other fields,
    agree there after a substep), and no value outside the grid is
    changed. *)
Theorem substep_stays_in_bounds (P : Params T) (s s' : Store T) :
  frame s = frame s' ->
  agree_on_grid (n P) s s' ->
  agree_on_grid (n P) (PhysSim.substep P s) (PhysSim.substep P s') /\
  agree_on_grid (n P) (Clothes.substep P s) (Clothes.substep P s') /\
  (forall k, in_grid (n P) k = false ->
     (x (PhysSim.substep P s) k = x s k /\ v (PhysSim.substep P s) k = v s k)
     /\
     (x (Clothes.substep P s) k = x s k /\ v (Clothes.substep P s) k = v s k)).
Proof.
  intros Ef Ha.
  pose proof (agree_after_substeps P Ef Ha) as H2.
  set (s2 := spring_pass P (gravity_pass P s)) in *.
  set (s2' := spring_pass P (gravity_pass P s')) in *.
  assert (frame s2 = frame s2') as Ef2.
  { unfold s2, s2'. now rewrite !spring_pass_frame, !gravity_pass_frame. }
  split; [|split].
  - intros k Hk. unfold PhysSim.substep. fold s2 s2'.
    destruct (physsim_third_pass_in P s2 k Hk) as [-> ->].
    destruct (physsim_third_pass_in P s2' k Hk) as [-> ->].
    destruct (H2 k Hk) as [Ex Ev]. now apply physsim_step_local.
  - intros k Hk.
    destruct (Z.eq_dec (snd k) (Z.of_nat (n P) - 1)) as [Ep|Ep].
    + destruct k as [i j]. cbn [snd] in Ep. subst j.
      assert (0 <= i < Z.of_nat (n P))%Z as Hi.
      { unfold in_grid in Hk. cbn [fst snd] in Hk.
        rewrite !andb_true_iff, !Z.leb_le, !Z.ltb_lt in Hk. lia. }
      destruct (substep_pinned P s Hi) as [-> ->].
      destruct (substep_pinned P s' Hi) as [-> ->].
      split; reflexivity.
    + unfold Clothes.substep. fold s2 s2'.
      destruct (@pin_pass_elsewhere _ _ P (Clothes.third_pass P s2) k Ep)
        as [-> ->].
      destruct (@pin_pass_elsewhere _ _ P (Clothes.third_pass P s2') k Ep)
        as [-> ->].
      destruct (clothes_third_pass_in P s2 k Hk) as [-> ->].
      destruct (clothes_third_pass_in P s2' k Hk) as [-> ->].
      destruct (H2 k Hk) as [Ex Ev]. now apply clothes_step_local.
  - intros k Hk.
    assert (x s2 k = x s k /\ v s2 k = v s k) as [E2x E2v].
    { unfold s2, spring_pass. rewrite spring_pass_over_x, gravity_pass_x.
      split; [reflexivity|].
      rewrite spring_pass_over_notin
        by (intros F; apply in_nodes in F; congruence).
      now rewrite gravity_pass_v, Hk. }
    split.
    + unfold PhysSim.substep. fold s2.
      destruct (physsim_third_pass_notin P s2 k Hk) as [-> ->]. auto.
    + unfold Clothes.substep. fold s2.
      destruct (pin_pass_notin P (Clothes.third_pass P s2) k Hk) as [-> ->].
      destruct (clothes_third_pass_notin P s2 k Hk) as [-> ->]. auto.
Qed.
End InBounds.

(** ** The turn that picks a node *)

Section DragTarget.
Context {T : Type} {ST : Scalar T}.
Local Open Scope sc_scope.




End DragTarget.

(** ** The clock of variant A *)

Section HostClock.
Context {T : Type} {ST : Scalar T} {U : Type} {SU : Scalar U}.
Local Open Scope sc_scope.
Variables (P : Params T) (host_dt : U) (steps : nat).

(** What one turn does to [current_t]. *)
Definition clock_turn (current_t : U) : U :=
  Nat.iter steps (fun t => t + host_dt)
    (if sltb (dec 15 1) current_t then of_int 0 else current_t).

Lemma iter_tick_host (k : nat) (s : Store T * U) :
  Nat.iter k (PhysSim.tick_host P host_dt) s =
  (Nat.iter k (PhysSim.substep P) (fst s),
   Nat.iter k (fun t => t + host_dt) (snd s)).
Proof.
  induction k as [|k IH].
  - now destruct s.
  - rewrite !Nat.iter_succ, IH. reflexivity.
Qed.

Lemma main_turn_host_clock (r0 r1 : T) (s : Store T * U) :
  snd (PhysSim.main_turn_host P host_dt steps r0 r1 s) = clock_turn (snd s).
Proof.
  unfold PhysSim.main_turn_host, clock_turn. cbv zeta. cbn [snd].
  rewrite iter_tick_host. cbn [snd]. now destruct (sltb _ _).
Qed.

Lemma main_turn_host_store (r0 r1 : T) (s : Store T * U) :
  fst (PhysSim.main_turn_host P host_dt steps r0 r1 s) =
  update_vertices P
    (Nat.iter steps (PhysSim.substep P)
       (if sltb (dec 15 1) (snd s) then initialize_mass_points P r0 r1 (fst s)
        else fst s)).
Proof.
  unfold PhysSim.main_turn_host. cbv zeta. cbn [fst].
  rewrite iter_tick_host. cbn [fst]. now destruct (sltb _ _).
Qed.

Lemma main_loop_host_snoc (draws : list (T * T)) (d : T * T)
  (s : Store T * U) :
  PhysSim.main_loop_host P host_dt steps (draws ++ [d]) s =
  PhysSim.main_turn_host P host_dt steps (fst d) (snd d)
    (PhysSim.main_loop_host P host_dt steps draws s).
Proof. unfold PhysSim.main_loop_host. now rewrite fold_left_app. Qed.

(** [current_t] does not depend on the sheet. *)
Lemma main_loop_host_clock (draws : list (T * T)) (s : Store T * U) :
  snd (PhysSim.main_loop_host P host_dt steps draws s) =
  Nat.iter (length draws) clock_turn (snd s).
Proof.
  induction draws as [|d draws IH] using rev_ind.
  - reflexivity.
  - rewrite main_loop_host_snoc, main_turn_host_clock, IH.
    rewrite length_app, Nat.add_comm. reflexivity.
Qed.
End HostClock.

(** When [current_t] is kept in the field's arithmetic, the turn is
    [main_turn]. *)
Lemma main_turn_host_same (T : Type) (ST : Scalar T) (P : Params T)
  (steps : nat) (r0 r1 : T) (s : Store T * T) :
  PhysSim.main_turn_host P (dt P) steps r0 r1 s =
  PhysSim.main_turn P steps r0 r1 s.
Proof. reflexivity. Qed.

Section ResetPeriod.
Context {T : Type} {ST : Scalar T}.
Variable expf : spec_float -> spec_float.

Local Abbreviation B := (B64.scalar expf).
Local Abbreviation dtA := (dt (@PhysSim.params _ B)).

(** [current_t] over the first 91 turns, evaluated in binary64. *)
Lemma clock_of_variant_A :
  forallb
    (fun k =>
       negb (SFltb (@dec _ B 15 1)
               (Nat.iter k (@clock_turn _ B dtA 53) (@of_int _ B 0))))
    (seq 0 91) = true /\
  SFltb (@dec _ B 15 1) (Nat.iter 91 (@clock_turn _ B dtA 53) (@of_int _ B 0))
    = true.
Proof. split; vm_compute; reflexivity. Qed.

(** X22.  Variant A's main loop with its own constants, [dt] and
    [current_t] being Python floats (binary64): [substeps] evaluates to 53;
    started with [current_t = 0.0], the value of [current_t] stays at or
    below [1.5] during the first 90 turns and exceeds it after the 91st; so
    the 92nd turn is the first to call [initialize_mass_points]: it sets
    [current_t] back to [0], runs its 53 substeps on the fresh sheet and
    leaves [current_t] as the first turn left it.  This holds whatever the
    kernels compute on the sheet. *)
Theorem physsim_resets_every_92_turns (P : Params T) (st : Store T)
  (draws : list (T * T)) (d : T * T) :
  length draws = 91%nat ->
  let run :=
    fun l => PhysSim.main_loop_host (SU:=B) P dtA 53 l (st, @of_int _ B 0) in
  substeps dtA = Some 53%Z /\
  (forall k, (k < 91)%nat ->
     SFltb (@dec _ B 15 1) (snd (run (firstn k draws))) = false) /\
  SFltb (@dec _ B 15 1) (snd (run draws)) = true /\
  snd (run (draws ++ [d])) = snd (run (firstn 1 draws)) /\
  fst (run (draws ++ [d])) =
    update_vertices P
      (Nat.iter 53 (PhysSim.substep P)
         (initialize_mass_points P (fst d) (snd d) (fst (run draws)))).
Proof.
  intros Hl run. destruct clock_of_variant_A as [Hlow Hhigh].
  assert (Hrun : forall l,
            snd (run l) =
            Nat.iter (length l) (@clock_turn _ B dtA 53) (@of_int _ B 0)).
  { intros l. unfold run. now rewrite main_loop_host_clock. }
  split; [vm_compute; reflexivity|]. split; [|split; [|split]].
  - intros k Hk. rewrite Hrun, length_firstn, Hl, Nat.min_l by lia.
    rewrite forallb_forall in Hlow.
    specialize (Hlow k). rewrite in_seq in Hlow.
    apply negb_true_iff, Hlow. lia.
  - rewrite Hrun, Hl. exact Hhigh.
  - rewrite !Hrun, length_app, Hl, length_firstn, Hl.
    cbn [length Nat.add Nat.min].
    change (91 + 1)%nat with 92%nat.
    rewrite (Nat.iter_succ 91).
    unfold clock_turn at 1. change (@sltb spec_float _) with SFltb.
    rewrite Hhigh. reflexivity.
  - unfold run at 1. rewrite main_loop_host_snoc, main_turn_host_store.
    fold (run draws). change (@sltb spec_float _) with SFltb.
    rewrite Hrun, Hl, Hhigh. reflexivity.
Qed.
End ResetPeriod.

(** ** IEEE-754 binary32: NaN spreads *)

Section NaNSpreads.
Variable expf : spec_float -> spec_float.
#[local] Hint Extern 0 (Scalar spec_float) =>
  exact (binary32 expf) : typeclass_instances.
Local Abbreviation B := (binary32 expf).
Local Abbreviation nan := S754_nan.

(** Some component is NaN. *)
Definition has_nan (a : vec3 spec_float) : bool :=
  B32.is_nan (c0 a) || B32.is_nan (c1 a) || B32.is_nan (c2 a).

Lemma is_nan_eq (a : spec_float) : B32.is_nan a = true -> a = nan.
Proof. destruct a; try discriminate. reflexivity. Qed.

Lemma sdiv_nan_r (a : spec_float) : sdiv (Scalar:=B) a nan = nan.
Proof. destruct a; reflexivity. Qed.

Lemma norm_has_nan (a : vec3 spec_float) :
  has_nan a = true -> norm (ST:=B) a = nan.
Proof.
  unfold has_nan. rewrite !orb_true_iff. destruct a as [a0 a1 a2].
  cbn [c0 c1 c2]. unfold norm, norm_sqr, dot. cbn [c0 c1 c2].
  intros [[H|H]|H]; apply is_nan_eq in H; subst.
  - reflexivity.
  - change (smul (Scalar:=B) nan nan) with nan.
    rewrite (sadd_nan_r expf). reflexivity.
  - change (smul (Scalar:=B) nan nan) with nan.
    rewrite (sadd_nan_r expf). reflexivity.
Qed.

Lemma normalized_has_nan (a : vec3 spec_float) :
  has_nan a = true -> normalized (ST:=B) a = nanv.
Proof.
  intros H. unfold normalized. rewrite (norm_has_nan _ H), sdiv_nan_r.
  reflexivity.
Qed.

Lemma vsub_has_nan (a b : vec3 spec_float) :
  has_nan a = true \/ has_nan b = true -> has_nan (vsub (ST:=B) a b) = true.
Proof.
  unfold has_nan, vsub. rewrite !orb_true_iff. cbn [c0 c1 c2].
  intros [[[H|H]|H]|[[H|H]|H]]; apply is_nan_eq in H; rewrite H;
    rewrite ?(ssub_nan_r expf); cbn; rewrite ?orb_true_r; auto.
Qed.

Lemma spring_term_nan_neighbour (P : Params spec_float)
  (st : Store spec_float) (i j : node) (force : vec3 spec_float) :
  has_nan (x st i) = true \/ has_nan (x st j) = true ->
  spring_term (ST:=B) P st i j force = nanv.
Proof.
  intros H. unfold spring_term, spring_damping. cbv zeta.
  rewrite (normalized_has_nan _ (vsub_has_nan _ _ H)).
  rewrite (svmul_nanv expf), !(vsmul_nanv expf).
  apply (vadd_nanv_r expf).
Qed.

Lemma spring_force_nan_neighbour (P : Params spec_float)
  (st : Store spec_float) (i o : node) :
  In o (spring_offsets st) ->
  in_grid (n P) (node_add i o) = true ->
  has_nan (x st i) = true \/ has_nan (x st (node_add i o)) = true ->
  spring_force (ST:=B) P st i = nanv.
Proof.
  intros Ho Hg Ex. unfold spring_force.
  generalize (V3 (T:=spec_float) (of_int 0) (of_int 0) (of_int 0)).
  revert Ho. induction (spring_offsets st) as [|a l IH]; intros Ho f.
  - destruct Ho.
  - cbn [fold_left]. destruct Ho as [->|Ho].
    + rewrite Hg, spring_term_nan_neighbour by assumption.
      clear IH. induction l as [|b l IHl]; [reflexivity|].
      cbn [fold_left]. destruct (in_grid (n P) (node_add i b)); apply IHl.
    + now apply IH.
Qed.

(** X23.  In binary32, with any implementation of [exp]: if some
    coordinate of a grid node or of one of its in-bounds spring neighbours is
    NaN, one substep leaves NaN in every coordinate of the node's velocity
    and position (variant A always; variant B unless the node is the dragged
    one or lies in the pinned column).  So NaN spreads by one spring per
    substep. *)
Theorem nan_spreads_to_neighbours (P : Params spec_float)
  (st : Store spec_float) (i o : node) :
  in_grid (n P) i = true ->
  In o (spring_offsets st) ->
  in_grid (n P) (node_add i o) = true ->
  has_nan (x st i) = true \/ has_nan (x st (node_add i o)) = true ->
  (v (PhysSim.substep P st) i = nanv /\ x (PhysSim.substep P st) i = nanv) /\
  (Clothes.is_dragged st i = false ->
   snd i <> (Z.of_nat (n P) - 1)%Z ->
   v (Clothes.substep P st) i = nanv /\ x (Clothes.substep P st) i = nanv).
Proof.
  intros Hi Ho Hg Ex.
  assert (v (spring_pass P (gravity_pass P st)) i = nanv) as Hv.
  { pose proof Hi as Hin. apply in_nodes in Hin. unfold spring_pass.
    pose proof (NoDup_nodes (n P)) as Hnd.
    destruct (in_split _ _ Hin) as [p [q E]]. rewrite E in *.
    rewrite spring_pass_over_at by assumption.
    rewrite (@spring_force_nan_neighbour P
               (spring_pass_over P p (gravity_pass P st)) i o).
    - now rewrite (vsmul_nanv expf), (vadd_nanv_r expf).
    - rewrite (frame_spring_offsets
                 (spring_pass_over_frame P p (gravity_pass P st))).
      now rewrite (frame_spring_offsets (gravity_pass_frame P st)).
    - assumption.
    - now rewrite spring_pass_over_x, gravity_pass_x. }
  split.
  - unfold PhysSim.substep.
    destruct (physsim_third_pass_in P (spring_pass P (gravity_pass P st)) i Hi)
      as [-> ->].
    destruct (physsim_step_self P (spring_pass P (gravity_pass P st)) i)
      as [-> ->].
    rewrite Hv, (vsmul_nanv expf), (collided_nanv expf), (svmul_nanv expf),
      (vadd_nanv_r expf).
    split; reflexivity.
  - intros Hd Hp. unfold Clothes.substep.
    destruct (@pin_pass_elsewhere _ _ P
                (Clothes.third_pass P (spring_pass P (gravity_pass P st))) i Hp)
      as [-> ->].
    destruct (clothes_third_pass_in P (spring_pass P (gravity_pass P st)) i Hi)
      as [-> ->].
    destruct (clothes_step_self P (spring_pass P (gravity_pass P st)) i)
      as [-> ->].
    unfold dragged, Clothes.is_dragged in *.
    destruct (frame_drag (spring_pass_frame P (gravity_pass P st)))
      as [-> [-> _]].
    destruct (frame_drag (gravity_pass_frame P st)) as [-> [-> _]].
    rewrite Hd, Hv, (vsmul_nanv expf), (collided_nanv expf),
      (svmul_nanv expf), (vadd_nanv_r expf).
    split; reflexivity.
Qed.
End NaNSpreads.

(** ** Counting primes *)

(** [is_prime] and [count_primes] against [prime] of the Standard
    Library. *)
Section Primes.
Local Open Scope Z_scope.
Import CountPrime.

Lemma in_range_from (lo hi z : Z) :
  In z (range_from lo hi) <-> lo <= z < hi.
Proof.
  unfold range_from. rewrite in_map_iff. split.
  - intros [k [<- Hk]]. apply in_seq in Hk. lia.
  - intros Hz. exists (Z.to_nat (z - lo)). split; [lia|]. apply in_seq. lia.
Qed.

Lemma range_from_snoc (lo hi : Z) :
  lo <= hi -> range_from lo (hi + 1) = range_from lo hi ++ [hi].
Proof.
  intros H. unfold range_from.
  replace (Z.to_nat (hi + 1 - lo)) with (S (Z.to_nat (hi - lo))) by lia.
  rewrite seq_S, map_app. cbn [map Nat.add]. f_equal. f_equal. lia.
Qed.

Lemma wrap32_small (z : Z) : - 2 ^ 31 <= z < 2 ^ 31 -> wrap32 z = z.
Proof.
  intros H. unfold wrap32. rewrite Z.mod_small; lia.
Qed.

Lemma is_prime_loop_true (n : Z) (ks : list Z) :
  is_prime_loop n ks true = true <-> forall k, In k ks -> n mod k <> 0.
Proof.
  induction ks as [|k ks IH]; cbn [is_prime_loop].
  - split; [intros _ k []|reflexivity].
  - destruct (Z.eqb_spec (n mod k) 0) as [E|E].
    + split; [discriminate|]. intros H. exfalso. apply (H k); [now left|exact E].
    + rewrite IH. split.
      * intros H q [<-|Hq]; [exact E|now apply H].
      * intros H q Hq. apply H. now right.
Qed.

Section Root.
Variable isqrt : Z -> Z.

(** What [int(n ** 0.5)] has to be for [n]: the integer square root. *)
Definition root_of (n : Z) : Prop :=
  0 <= isqrt n /\ isqrt n * isqrt n <= n < (isqrt n + 1) * (isqrt n + 1).

Lemma is_prime_true (n : Z) :
  0 <= isqrt n < 2 ^ 31 - 1 ->
  is_prime isqrt n = true <-> forall k, 2 <= k <= isqrt n -> n mod k <> 0.
Proof.
  intros Hr. unfold is_prime. rewrite wrap32_small by lia.
  rewrite is_prime_loop_true. split.
  - intros H k Hk. apply H, in_range_from. lia.
  - intros H k Hk. apply in_range_from in Hk. apply H. lia.
Qed.

Lemma small_divisor (n d : Z) :
  root_of n -> 1 < d < n -> (d | n) ->
  exists k, 2 <= k <= isqrt n /\ n mod k = 0.
Proof.
  intros [Hr0 [Hr1 Hr2]] Hd [q Eq].
  assert (1 < q) as Hq by nia.
  destruct (Z_le_gt_dec d (isqrt n)) as [Hle|Hgt].
  - exists d. split; [lia|]. subst n. apply Z.mod_mul. lia.
  - exists q. split.
    + split; [lia|]. destruct (Z_le_gt_dec q (isqrt n)); [assumption|]. nia.
    + subst n. rewrite Z.mul_comm. apply Z.mod_mul. lia.
Qed.

(** X24.  [is_prime(n)] for [2 <= n < 2^31], when [int(n ** 0.5)] is the
    integer square root of [n]: the result is [True] exactly when [n] is
    prime. *)
Theorem is_prime_correct (n : Z) :
  2 <= n < 2 ^ 31 ->
  root_of n ->
  is_prime isqrt n = true <-> prime n.
Proof.
  intros Hn Hroot. pose proof Hroot as [Hr0 [Hr1 Hr2]].
  assert (isqrt n < n) as Hlt by nia.
  rewrite is_prime_true by lia. split.
  - intros H. apply prime_alt. split; [lia|].
    intros d Hd Hdiv.
    destruct (small_divisor Hroot Hd Hdiv) as [k [Hk Ek]].
    exact (H k Hk Ek).
  - intros Hp k Hk Ek.
    apply Z.mod_divide in Ek; [|lia].
    apply prime_alt in Hp. destruct Hp as [_ Hp]. apply (Hp k); [lia|exact Ek].
Qed.

(** X25.  When [int(n ** 0.5)] is 0 or 1 (as it is for [n] from 0 to 3)
    the loop of [is_prime] has nothing to test and the result is [True]: so
    [is_prime] accepts 0 and 1. *)
Theorem is_prime_accepts_below_four (n : Z) :
  0 <= isqrt n <= 1 -> is_prime isqrt n = true.
Proof.
  intros H. apply is_prime_true; [lia|]. intros k Hk. lia.
Qed.

Definition primeb (k : Z) : bool := if prime_dec k then true else false.

Lemma count_loop (n : Z) (l : list Z) :
  (forall k, In k l -> 2 <= k < 2 ^ 31 /\ root_of k) ->
  forall count, 0 <= count -> count + Z.of_nat (length l) < 2 ^ 31 ->
    fold_left
      (fun count k => if is_prime isqrt k then wrap32 (count + 1) else count)
      l count
    = count + Z.of_nat (length (filter primeb l)).
Proof.
  induction l as [|a l IH]; intros Hl count H0 Hb.
  - cbn. lia.
  - cbn [fold_left filter length] in *.
    destruct (Hl a (or_introl eq_refl)) as [Ha Hra].
    pose proof (is_prime_correct Ha Hra) as Hp.
    unfold primeb at 1. destruct (prime_dec a) as [Hpa|Hpa].
    + replace (is_prime isqrt a) with true by (symmetry; now apply Hp).
      rewrite wrap32_small by lia.
      rewrite IH; [cbn [length]; lia| |lia|lia].
      intros k Hk. apply Hl. now right.
    + destruct (is_prime isqrt a) eqn:E; [exfalso; apply Hpa, Hp, eq_refl|].
      rewrite IH; [lia| |lia|lia].
      intros k Hk. apply Hl. now right.
Qed.

(** X26.  [count_primes(n)] for [n < 2^31], when [int(k ** 0.5)] is the
    integer square root for every [k] tested: the result is the number of
    primes [p] with [2 <= p < n].  The bound [n] itself is not counted
    ([count_primes(n + 1)] is one more when [n] is prime); the result is at
    most [n - 2], so the 32-bit counter does not wrap. *)
Theorem count_primes_counts (n : Z) :
  n < 2 ^ 31 ->
  (forall k, 2 <= k < n -> root_of k) ->
  count_primes isqrt n =
    Z.of_nat (length (filter primeb (range_from 2 n))) /\
  0 <= count_primes isqrt n <= Z.max 0 (n - 2) /\
  (2 <= n -> n + 1 < 2 ^ 31 -> root_of n ->
   count_primes isqrt (n + 1) =
     count_primes isqrt n + (if primeb n then 1 else 0)).
Proof.
  intros Hn Hroot.
  assert (forall m, m <= n + 1 -> m < 2 ^ 31 ->
            (forall k, 2 <= k < m -> root_of k) ->
            count_primes isqrt m =
              Z.of_nat (length (filter primeb (range_from 2 m)))) as Hc.
  { intros m _ Hm Hr. unfold count_primes.
    rewrite (@count_loop m (range_from 2 m)); [lia| |lia|].
    - intros k Hk. apply in_range_from in Hk. split; [lia|]. apply Hr. lia.
    - unfold range_from. rewrite length_map, length_seq. lia. }
  assert (length (filter primeb (range_from 2 n)) <= length (range_from 2 n))%nat
    as Hlen by apply filter_length_le.
  assert (length (range_from 2 n) = Z.to_nat (n - 2)) as El
    by (unfold range_from; now rewrite length_map, length_seq).
  split; [apply Hc; [lia|assumption|assumption]|]. split.
  - rewrite Hc by (try lia; assumption). lia.
  - intros H2 Hn1 Hrn.
    rewrite (Hc (n + 1)), (Hc n); try lia; try assumption.
    + rewrite range_from_snoc by lia. rewrite filter_app, length_app.
      cbn [filter]. destruct (primeb n); cbn [length]; lia.
    + intros k Hk. destruct (Z.eq_dec k n) as [->|Hne]; [assumption|].
      apply Hroot. lia.
Qed.
End Root.

End Primes.

(** ** Worked inputs of the further properties *)

Section WorkedExtras.
Local Open Scope R_scope.

Lemma mesh_indices_filled_witness :
  (1 <= n two_node_params)%nat /\
  indices (initialize_mesh_indices two_node_params blank) 3%Z = 3%Z.
Proof.
  assert (1 <= n two_node_params)%nat as H by (simpl; lia).
  split; [exact H|].
  exact (proj1 (@mesh_indices_filled R _ two_node_params blank H)
           0%Z 0%Z 3%Z
           (conj (Z.le_refl 0) eq_refl) (conj (Z.le_refl 0) eq_refl)
           (conj (Zle_0_pos 3) eq_refl)).
Defined.

Lemma mesh_triangles_oriented_witness :
  orient (0, 0)%Z (1, 0)%Z (0, 1)%Z = 1%Z /\
  vertex_node 2
    (indices (initialize_mesh_indices two_node_params blank) 3%Z) = (1, 1)%Z.
Proof.
  pose proof (@mesh_triangles_oriented R _ two_node_params blank 0%Z 0%Z
                (conj (Z.le_refl 0) eq_refl) (conj (Z.le_refl 0) eq_refl))
    as [_ [[H3 _] _]].
  split; [reflexivity|exact H3].
Defined.

Lemma drawn_triangles_follow_sheet_witness :
  in_grid (n two_node_params) (corner_node (0, 0)%Z 3) = true.
Proof.
  exact (proj1 (proj1 (@drawn_triangles_follow_sheet R _ two_node_params blank
                         (initialize_mesh_indices two_node_params blank)
                         1%nat 0%Z 0%Z 3%Z
                         (conj (Z.le_refl 0) eq_refl)
                         (conj (Z.le_refl 0) eq_refl)
                         (conj (Zle_0_pos 3) eq_refl) eq_refl)
                  0 0 0)).
Defined.

Lemma local_passes_any_order_witness :
  Permutation (nodes (n two_node_params)) (rev (nodes (n two_node_params))) /\
  frame (gravity_pass_over two_node_params (rev (nodes (n two_node_params)))
           two_node_store)
  = frame (gravity_pass two_node_params two_node_store).
Proof.
  pose proof (Permutation_rev (nodes (n two_node_params))) as H.
  split; [exact H|].
  exact (proj1 (proj1 (@local_passes_any_order R _ two_node_params
                         two_node_store (rev (nodes (n two_node_params))) H))).
Defined.

(** A store that differs from [two_node_store] outside the grid only. *)
Definition two_node_store_far : Store R :=
  set_x two_node_store (5, 5)%Z (V3 1 1 1).

Lemma two_node_stores_agree :
  agree_on_grid (n two_node_params) two_node_store two_node_store_far.
Proof.
  intros k Hk. unfold two_node_store_far. rewrite x_set_x, v_set_x.
  split; [|reflexivity]. rewrite upd_other; [reflexivity|].
  intros ->. discriminate.
Qed.

Lemma substep_stays_in_bounds_witness :
  frame two_node_store = frame two_node_store_far /\
  x (PhysSim.substep two_node_params two_node_store) (0, 1)%Z =
  x (PhysSim.substep two_node_params two_node_store_far) (0, 1)%Z.
Proof.
  split; [reflexivity|].
  exact (proj1 (proj1 (@substep_stays_in_bounds R _ two_node_params
                         two_node_store two_node_store_far eq_refl
                         two_node_stores_agree) (0, 1)%Z eq_refl)).
Defined.
End WorkedExtras.

Section WorkedFloats.
#[local] Existing Instance b32.

Lemma initialize_spring_offsets_appends_witness :
  spring_offsets (blank (T:=spec_float)) = [] /\
  length
    (spring_offsets
       (Clothes.initialize_spring_offsets
          (Clothes.initialize_spring_offsets (blank (T:=spec_float)))))
  = 24%nat.
Proof.
  split; [reflexivity|].
  exact (proj1 (proj2 (proj2 (@initialize_spring_offsets_appends
                                spec_float _ blank eq_refl)))).
Defined.


(** Variant A's sheet in binary32, 91 turns without a reset, then one with
    the draws [0.25] and [0.75]. *)
Lemma physsim_resets_every_92_turns_witness :
  let draws := repeat (of_int 0, of_int 0) 91 in
  length draws = 91%nat /\
  SFltb (dec (Scalar:=B64.scalar B64.exp_taylor) 15 1)
    (snd (PhysSim.main_loop_host (SU:=B64.scalar B64.exp_taylor)
            PhysSim.params
            (dt (PhysSim.params (ST:=B64.scalar B64.exp_taylor))) 53 draws
            (PhysSim.startup PhysSim.params (dec 25 2) (dec 75 2),
             of_int (Scalar:=B64.scalar B64.exp_taylor) 0))) = true.
Proof.
  intros draws.
  assert (H : length draws = 91%nat) by apply repeat_length.
  split; [exact H|].
  exact (proj1 (proj2 (proj2
           (@physsim_resets_every_92_turns spec_float _ B64.exp_taylor
              PhysSim.params
              (PhysSim.startup PhysSim.params (dec 25 2) (dec 75 2))
              draws (dec 25 2, dec 75 2) H)))).
Defined.
End WorkedFloats.

Section WorkedPrimes.
Local Open Scope Z_scope.

Lemma sqrt_is_root (k : Z) : 0 <= k -> root_of Z.sqrt k.
Proof.
  intros Hk. unfold root_of. pose proof (Z.sqrt_spec k Hk) as H.
  pose proof (Z.sqrt_nonneg k). unfold Z.succ in H. lia.
Qed.

Lemma is_prime_correct_witness :
  2 <= 7 < 2 ^ 31 /\ root_of Z.sqrt 7 /\
  (CountPrime.is_prime Z.sqrt 7 = true <-> prime 7).
Proof.
  assert (2 <= 7 < 2 ^ 31) as H1 by (split; [discriminate|reflexivity]).
  assert (root_of Z.sqrt 7) as H2 by (apply sqrt_is_root; discriminate).
  split; [exact H1|]. split; [exact H2|].
  exact (@is_prime_correct Z.sqrt 7 H1 H2).
Defined.

Lemma is_prime_accepts_below_four_witness :
  0 <= Z.sqrt 1 <= 1 /\ CountPrime.is_prime Z.sqrt 1 = true.
Proof.
  assert (0 <= Z.sqrt 1 <= 1) as H by (split; discriminate).
  split; [exact H|].
  exact (@is_prime_accepts_below_four Z.sqrt 1 H).
Defined.

Lemma count_primes_counts_witness :
  100 < 2 ^ 31 /\
  CountPrime.count_primes Z.sqrt 100 = 25 /\
  CountPrime.count_primes Z.sqrt 100 =
    Z.of_nat (length (filter primeb (range_from 2 100))).
Proof.
  assert (100 < 2 ^ 31) as H1 by reflexivity.
  split; [exact H1|]. split; [vm_compute; reflexivity|].
  exact (proj1 (@count_primes_counts Z.sqrt 100 H1
                  (fun k Hk => sqrt_is_root (Z.le_trans 0 2 k (Zle_0_pos 2)
                                               (proj1 Hk))))).
Defined.
End WorkedPrimes.

Section WorkedNaN.
#[local] Existing Instance b32.

(** Variant A's initialized sheet with NaN in the position of node
    [(0, 1)]. *)
Definition poisoned : Store spec_float :=
  set_x (PhysSim.startup PhysSim.params (dec 5 1) (dec 5 1)) (0, 1)%Z nanv.

Lemma poisoned_offsets : In (0, 1)%Z (spring_offsets poisoned).
Proof.
  unfold poisoned. rewrite spring_offsets_set_x, physsim_startup_offsets.
  vm_compute. tauto.
Qed.

Lemma poisoned_neighbour :
  has_nan (x poisoned (0, 0)%Z) = true \/
  has_nan (x poisoned (node_add (0, 0) (0, 1))%Z) = true.
Proof.
  right. unfold poisoned. rewrite x_set_x.
  change (node_add (0, 0) (0, 1))%Z with (0, 1)%Z. rewrite upd_same.
  reflexivity.
Qed.

Lemma nan_spreads_to_neighbours_witness :
  In (0, 1)%Z (spring_offsets poisoned) /\
  (has_nan (x poisoned (0, 0)%Z) = true \/
   has_nan (x poisoned (node_add (0, 0) (0, 1))%Z) = true) /\
  x (PhysSim.substep PhysSim.params poisoned) (0, 0)%Z = nanv.
Proof.
  split; [exact poisoned_offsets|]. split; [exact poisoned_neighbour|].
  exact (proj2 (proj1 (@nan_spreads_to_neighbours B32.exp_taylor
                         PhysSim.params poisoned (0, 0)%Z (0, 1)%Z
                         eq_refl poisoned_offsets eq_refl
                         poisoned_neighbour))).
Defined.
End WorkedNaN.
